(** * STANAL: 3D frame analysis core (Matrix, Member3DElement, Analyzer)

    A shallow embedding of the analysis engine of the STANAL extension.
    JavaScript numbers are modelled as real numbers (exact arithmetic):
    [Math.sqrt], [Math.abs], [Math.min], [Math.cos], [Math.sin] and
    [Math.PI] are the functions of the standard library of reals.
    Exceptions are values of [Result]; [for] loops are [for_loop]s over an
    explicit state. *)

From Stdlib Require Import Reals Lra Lia String DecimalString Sorted Permutation.
From stdpp Require Import gmap strings list.

Local Open Scope R_scope.

(** ** Exceptions *)

Inductive Result (A : Type) : Type :=
| Ok (a : A)
| Throw (msg : string).
Arguments Ok {A} a.
Arguments Throw {A} msg.

Definition bind {A B : Type} (c : Result A) (k : A -> Result B) : Result B :=
  match c with
  | Ok a => k a
  | Throw msg => Throw msg
  end.

Notation "'let!' x ':=' c 'in' k" := (bind c (fun x => k))
  (at level 10, x pattern, c at level 100, k at level 200).

(** ** Loops *)

(** [for (i = lo; i < lo + cnt; i++) s = body i s] *)
Fixpoint for_loop {S : Type} (cnt lo : nat) (body : nat -> S -> S) (s : S) : S :=
  match cnt with
  | O => s
  | Datatypes.S c => for_loop c (Datatypes.S lo) body (body lo s)
  end.

(** [for (i = lo; i < hi; i++)] *)
Definition For {S : Type} (lo hi : nat) (body : nat -> S -> S) (s : S) : S :=
  for_loop (hi - lo) lo body s.

(** The same loop with a body that may throw. *)
Fixpoint for_loopE {S : Type} (cnt lo : nat) (body : nat -> S -> Result S) (s : S)
  : Result S :=
  match cnt with
  | O => Ok s
  | Datatypes.S c => let! s' := body lo s in for_loopE c (Datatypes.S lo) body s'
  end.

Definition ForE {S : Type} (lo hi : nat) (body : nat -> S -> Result S) (s : S)
  : Result S :=
  for_loopE (hi - lo) lo body s.

(** [for (i = hi - 1; i >= 0; i--)] *)
Fixpoint for_down {S : Type} (hi : nat) (body : nat -> S -> S) (s : S) : S :=
  match hi with
  | O => s
  | Datatypes.S i => for_down i body (body i s)
  end.

(** [for (const v of l)] *)
Definition ForOf {S B : Type} (l : list B) (body : B -> S -> S) (s : S) : S :=
  foldl (fun s v => body v s) s l.

Fixpoint ForOfE {S B : Type} (l : list B) (body : B -> S -> Result S) (s : S)
  : Result S :=
  match l with
  | [] => Ok s
  | v :: l' => let! s' := body v s in ForOfE l' body s'
  end.

(** ** Numbers and arrays of numbers *)

(** [v[i]] on an array of numbers; every read of the modelled code is in
    range, where this is the stored number. *)
Definition vget (v : list R) (i : nat) : R := nth i v 0.

(** [a < b] as a boolean, for conditions joined by [&&] *)
Definition Rltb (a b : R) : bool := if Rlt_dec a b then true else false.

(** [`${n}`] for a natural number *)
Definition string_of_nat (n : nat) : string :=
  NilZero.string_of_uint (Nat.to_uint n).

(** Finite sums, used to state what the loops compute. *)
Fixpoint Rsum (n : nat) (f : nat -> R) : R :=
  match n with
  | O => 0
  | Datatypes.S k => Rsum k f + f k
  end.

(** ** Matrix.ts *)

Module Matrix.

Record t : Type := mk { rows : nat; cols : nat; data : list (list R) }.

(** [new Matrix(rows, cols, initialValue)] *)
Definition new (rows cols : nat) (initialValue : R) : t :=
  mk rows cols (replicate rows (replicate cols initialValue)).

Definition zeros (rows cols : nat) : t := new rows cols 0.

(** [this.data[row][col]]; reads of the modelled code are in range. *)
Definition get (m : t) (row col : nat) : R :=
  nth col (nth row (data m) []) 0.

(** [this.data[row][col] = value]; writes of the modelled code are in
    range. *)
Definition set (m : t) (row col : nat) (value : R) : t :=
  mk (rows m) (cols m) (alter (fun r => <[col := value]> r) row (data m)).

(** [this.data[row][col] += value] *)
Definition add (m : t) (row col : nat) (value : R) : t :=
  set m row col (get m row col + value).

(** [arr[i][j] || 0] is [arr[i][j]] for a number, and [0] for a missing
    entry. *)
Definition fromArray (arr : list (list R)) : t :=
  let rows := length arr in
  let cols := length (nth 0 arr []) in
  For 0 rows (fun i m =>
    For 0 cols (fun j m => set m i j (nth j (nth i arr []) 0)) m)
    (new rows cols 0).

Definition identity (n : nat) : t :=
  For 0 n (fun i m => set m i i 1) (new n n 0).

Definition multiply (this other : t) : Result t :=
  if negb (cols this =? rows other)%nat then
    Throw ("Cannot multiply " ++ string_of_nat (rows this) ++ "x"
             ++ string_of_nat (cols this) ++ " with "
             ++ string_of_nat (rows other) ++ "x"
             ++ string_of_nat (cols other))%string
  else
    Ok (For 0 (rows this) (fun i result =>
          For 0 (cols other) (fun j result =>
            let sum :=
              For 0 (cols this)
                (fun k sum => sum + get this i k * get other k j) 0 in
            set result i j sum) result)
          (new (rows this) (cols other) 0)).

Definition multiplyVector (this : t) (vec : list R) : Result (list R) :=
  if negb (cols this =? length vec)%nat then
    Throw "Vector length must match matrix columns"
  else
    Ok (For 0 (rows this) (fun i result =>
          For 0 (cols this) (fun j result =>
            <[i := vget result i + get this i j * vget vec j]> result) result)
          (replicate (rows this) 0)).

Definition transpose (this : t) : t :=
  For 0 (rows this) (fun i result =>
    For 0 (cols this) (fun j result => set result j i (get this i j)) result)
    (new (cols this) (rows this) 0).

Definition subMatrix (this : t) (rowIndices colIndices : list nat) : t :=
  For 0 (length rowIndices) (fun i result =>
    For 0 (length colIndices) (fun j result =>
      set result i j (get this (nth i rowIndices O) (nth j colIndices O)))
      result)
    (new (length rowIndices) (length colIndices) 0).

Definition extractVector (vec : list R) (indices : list nat) : list R :=
  map (fun i => vget vec i) indices.

(** [vec[indices[i]] = values[i]], in place *)
Definition setVector (vec : list R) (indices : list nat) (values : list R)
  : list R :=
  For 0 (length indices) (fun i vec =>
    <[nth i indices O := vget values i]> vec) vec.

Definition clone (this : t) : t :=
  For 0 (rows this) (fun i result =>
    For 0 (cols this) (fun j result => set result i j (get this i j)) result)
    (new (rows this) (cols this) 0).

(** [this.data.map(row => [...row])] *)
Definition toArray (this : t) : list (list R) :=
  map (fun row => row) (data this).

Definition plus (this other : t) : Result t :=
  if negb (rows this =? rows other)%nat || negb (cols this =? cols other)%nat then
    Throw "Matrix dimensions must match for addition"
  else
    Ok (For 0 (rows this) (fun i result =>
          For 0 (cols this) (fun j result =>
            set result i j (get this i j + get other i j)) result)
          (new (rows this) (cols this) 0)).

Definition minus (this other : t) : Result t :=
  if negb (rows this =? rows other)%nat || negb (cols this =? cols other)%nat then
    Throw "Matrix dimensions must match for subtraction"
  else
    Ok (For 0 (rows this) (fun i result =>
          For 0 (cols this) (fun j result =>
            set result i j (get this i j - get other i j)) result)
          (new (rows this) (cols this) 0)).


(** *** solve: Gaussian elimination with partial pivoting *)

(** The pivot search of column [k]: the pair [(maxVal, maxRow)]. *)
Definition findPivot (A : t) (n k : nat) : R * nat :=
  For (k + 1) n (fun i '(maxVal, maxRow) =>
    if Rgt_dec (Rabs (get A i k)) maxVal
    then (Rabs (get A i k), i)
    else (maxVal, maxRow))
    (Rabs (get A k k), k).

Definition swapRows (A : t) (n k maxRow : nat) : t :=
  For 0 n (fun j A =>
    let temp := get A k j in
    let A := set A k j (get A maxRow j) in
    set A maxRow j temp) A.

Definition swapEntries (x : list R) (k maxRow : nat) : list R :=
  let temp := vget x k in
  let x := <[k := vget x maxRow]> x in
  <[maxRow := temp]> x.

Definition eliminate (n k : nat) (akk : R) (Ax : t * list R) : t * list R :=
  For (k + 1) n (fun i '(A, x) =>
    let factor := get A i k / akk in
    let A := set A i k factor in
    let A :=
      For (k + 1) n (fun j A =>
        set A i j (get A i j - factor * get A k j)) A in
    (A, <[i := vget x i - factor * vget x k]> x)) Ax.

Definition backSubstitute (A : t) (n : nat) (x : list R) : list R :=
  for_down n (fun i x =>
    let x :=
      For (i + 1) n (fun j x => <[i := vget x i - get A i j * vget x j]> x) x in
    <[i := vget x i / get A i i]> x) x.

Definition singular : string := "Matrix is singular or nearly singular".

(** One pass of the outer loop of [solve]. *)
Definition solveStep (n k : nat) (Ax : t * list R) : Result (t * list R) :=
  let '(A, x) := Ax in
  let '(_, maxRow) := findPivot A n k in
  let '(A, x) :=
    if negb (maxRow =? k)%nat
    then (swapRows A n k maxRow, swapEntries x k maxRow)
    else (A, x) in
  let akk := get A k k in
  if Rlt_dec (Rabs akk) 1e-12 then Throw singular
  else Ok (eliminate n k akk (A, x)).

(** The array [pivot] of the source is written and never read; it is left
    out. With [n = 0] the check of the last diagonal entry reads
    [this.data[-1][-1]], which is a [TypeError]. *)
Definition solve (this : t) (b : list R) : Result (list R) :=
  if negb (rows this =? cols this)%nat then
    Throw "Matrix must be square for solving"
  else if negb (rows this =? length b)%nat then
    Throw "Vector b length must match matrix rows"
  else
    let n := rows this in
    let A := clone this in
    let x := b in
    let! (A, x) := ForE 0 (n - 1) (solveStep n) (A, x) in
    if (n =? 0)%nat then
      Throw "Cannot read properties of undefined (reading '-1')"
    else if Rlt_dec (Rabs (get A (n - 1) (n - 1))) 1e-12 then
      Throw singular
    else
      Ok (backSubstitute A n x).

End Matrix.

(** ** model/types.ts *)

Module Material.
Record t : Type := mk { id : string; E : R; G : R; nu : R; rho : R }.
End Material.

Module Section_.
Record t : Type := mk { id : string; A : R; Iy : R; Iz : R; J : R }.
End Section_.

Module Node.
Record t : Type := mk { id : string; x : R; y : R; z : R }.
End Node.

Module NodeDOF.
Record t : Type := mk { dx : R; dy : R; dz : R; rx : R; ry : R; rz : R }.
End NodeDOF.

Module NodeResult.
Record t : Type :=
  mk { nodeId : string; displacement : NodeDOF.t; reaction : NodeDOF.t }.
End NodeResult.

(** [releases] is never read by the analysis and is left out. *)
Module Member.
Record t : Type :=
  mk { id : string; iNode : string; jNode : string; material : string;
       section : string; rotation : option R }.
End Member.

Module MemberForces.
Record t : Type :=
  mk { x : R; axial : R; shearY : R; shearZ : R; torsion : R;
       momentY : R; momentZ : R }.
End MemberForces.

Module Extremum.
Record t : Type := mk { value : R; location : R }.
End Extremum.

Module MaxForces.
Record t : Type :=
  mk { axial : Extremum.t; shearY : Extremum.t; shearZ : Extremum.t;
       momentY : Extremum.t; momentZ : Extremum.t }.
End MaxForces.

Module MemberResult.
Record t : Type :=
  mk { memberId : string; forces : list MemberForces.t; maxForces : MaxForces.t }.
End MemberResult.

Module Support.
Record t : Type :=
  mk { node : string; dx : bool; dy : bool; dz : bool;
       rx : bool; ry : bool; rz : bool }.
End Support.

Inductive LoadDirection : Type :=
| FX | FY | FZ | MX | MY | MZ
| Fx | Fy | Fz | Mx | My | Mz.

(** [direction.toUpperCase()] *)
Definition toUpperCase (d : LoadDirection) : LoadDirection :=
  match d with
  | FX | Fx => FX
  | FY | Fy => FY
  | FZ | Fz => FZ
  | MX | Mx => MX
  | MY | My => MY
  | MZ | Mz => MZ
  end.

Inductive MemberLoadType : Type := distributed | point | moment.

Module NodeLoad.
Record t : Type := mk { node : string; direction : LoadDirection; magnitude : R }.
End NodeLoad.

Module MemberLoad.
Record t : Type :=
  mk { member : string; type : MemberLoadType; direction : LoadDirection;
       magnitude : option R; w1 : option R; w2 : option R;
       x1 : option R; x2 : option R; x : option R }.
End MemberLoad.

Module LoadCase.
Record t : Type :=
  mk { name : string; nodeLoads : list NodeLoad.t; memberLoads : list MemberLoad.t }.
End LoadCase.

(** [factors] in the order of [Object.entries]. *)
Module LoadCombination.
Record t : Type := mk { name : string; factors : list (string * R) }.
End LoadCombination.

(** [model] (name and units) is never read by the analysis and is left out. *)
Module StanalModel.
Record t : Type :=
  mk { materials : list Material.t; sections : list Section_.t;
       nodes : list Node.t; members : list Member.t;
       supports : list Support.t; loadCases : list LoadCase.t;
       loadCombinations : list LoadCombination.t }.
End StanalModel.

Module NodeExtremum.
Record t : Type := mk { nodeId : string; value : R; direction : string }.
End NodeExtremum.

Module MemberExtremum.
Record t : Type := mk { memberId : string; value : R; location : R }.
End MemberExtremum.

Module Summary.
Record t : Type :=
  mk { maxDisplacement : NodeExtremum.t; maxReaction : NodeExtremum.t;
       maxMoment : MemberExtremum.t; maxShear : MemberExtremum.t }.
End Summary.

Module AnalysisResult.
Record t : Type :=
  mk { success : bool; error : option string; loadCase : string;
       nodes : list NodeResult.t; members : list MemberResult.t;
       summary : Summary.t }.
End AnalysisResult.

(** [v || d] on an optional number: [undefined] and [0] are falsy. *)
Definition orElse (v : option R) (d : R) : R :=
  match v with
  | Some r => if Req_dec_T r 0 then d else r
  | None => d
  end.

(** [v ?? d] *)
Definition nullish (v : option R) (d : R) : R :=
  match v with
  | Some r => r
  | None => d
  end.

(** [v[i] += d] *)
Definition vadd (v : list R) (i : nat) (d : R) : list R :=
  <[i := vget v i + d]> v.

(** ** Matrix.ts: rotation and transformation matrices *)

Definition createRotationMatrix (iNode jNode : Node.t) (rotation : R)
  : Result Matrix.t :=
  let dx := Node.x jNode - Node.x iNode in
  let dy := Node.y jNode - Node.y iNode in
  let dz := Node.z jNode - Node.z iNode in
  let L := sqrt (dx * dx + dy * dy + dz * dz) in
  if Rlt_dec L 1e-10 then Throw "Member has zero length"
  else
    let cx := dx / L in
    let cy := dy / L in
    let cz := dz / L in
    let xLocal := [cx; cy; cz] in
    let horizontalLength := sqrt (cx * cx + cz * cz) in
    let yLocal :=
      if Rlt_dec horizontalLength 1e-10 then
        if Rgt_dec cy 0 then [-1; 0; 0] else [1; 0; 0]
      else
        [- cy * cx / horizontalLength;
         horizontalLength;
         - cy * cz / horizontalLength] in
    let zLocal :=
      [vget xLocal 1 * vget yLocal 2 - vget xLocal 2 * vget yLocal 1;
       vget xLocal 2 * vget yLocal 0 - vget xLocal 0 * vget yLocal 2;
       vget xLocal 0 * vget yLocal 1 - vget xLocal 1 * vget yLocal 0] in
    let '(yLocal, zLocal) :=
      if Rgt_dec (Rabs rotation) 1e-10 then
        let rad := rotation * PI / 180 in
        let cos := cos rad in
        let sin := sin rad in
        let yNew :=
          [vget yLocal 0 * cos + vget zLocal 0 * sin;
           vget yLocal 1 * cos + vget zLocal 1 * sin;
           vget yLocal 2 * cos + vget zLocal 2 * sin] in
        let zNew :=
          [- vget yLocal 0 * sin + vget zLocal 0 * cos;
           - vget yLocal 1 * sin + vget zLocal 1 * cos;
           - vget yLocal 2 * sin + vget zLocal 2 * cos] in
        (yNew, zNew)
      else (yLocal, zLocal) in
    Ok (Matrix.transpose (Matrix.fromArray [xLocal; yLocal; zLocal])).

Definition createTransformationMatrix (iNode jNode : Node.t) (rotation : R)
  : Result Matrix.t :=
  let! R_ := createRotationMatrix iNode jNode rotation in
  Ok (For 0 4 (fun block T =>
        let offset := (block * 3)%nat in
        For 0 3 (fun i T =>
          For 0 3 (fun j T =>
            Matrix.set T (offset + i) (offset + j) (Matrix.get R_ i j)) T) T)
        (Matrix.zeros 12 12)).

(** ** Member3DElement.ts *)

(** One sample of [computeMemberForces]: [{ x, forces }]. *)
Module ForcePoint.
Record t : Type := mk { x : R; forces : list R }.
End ForcePoint.

Module Member3DElement.

Record t : Type :=
  mk { id : string; iNode : Node.t; jNode : Node.t;
       material : Material.t; section : Section_.t;
       rotation : R; length : R }.

(** The constructor. *)
Definition new (member : Member.t) (iNode jNode : Node.t)
    (material : Material.t) (section : Section_.t) : Result t :=
  let dx := Node.x jNode - Node.x iNode in
  let dy := Node.y jNode - Node.y iNode in
  let dz := Node.z jNode - Node.z iNode in
  let length := sqrt (dx * dx + dy * dy + dz * dz) in
  if Rlt_dec length 1e-10 then
    Throw ("Member " ++ Member.id member ++ " has zero length")%string
  else
    Ok (mk (Member.id member) iNode jNode material section
           (orElse (Member.rotation member) 0) length).

(** The [k.set(i, j, v)] calls of [localStiffnessMatrix], in order. *)
Definition localStiffnessEntries (this : t) : list (nat * nat * R) :=
  let E := Material.E (material this) in
  let G := Material.G (material this) in
  let A := Section_.A (section this) in
  let Iy := Section_.Iy (section this) in
  let Iz := Section_.Iz (section this) in
  let J := Section_.J (section this) in
  let L := length this in
  let L2 := L * L in
  let L3 := L2 * L in
  let EA_L := E * A / L in
  let GJ_L := G * J / L in
  let EIz := E * Iz in
  let k_y1 := 12 * EIz / L3 in
  let k_y2 := 6 * EIz / L2 in
  let k_y3 := 4 * EIz / L in
  let k_y4 := 2 * EIz / L in
  let EIy := E * Iy in
  let k_z1 := 12 * EIy / L3 in
  let k_z2 := 6 * EIy / L2 in
  let k_z3 := 4 * EIy / L in
  let k_z4 := 2 * EIy / L in
  [ (0, 0, EA_L); (0, 6, - EA_L); (6, 0, - EA_L); (6, 6, EA_L);
    (1, 1, k_y1); (1, 5, k_y2); (1, 7, - k_y1); (1, 11, k_y2);
    (5, 1, k_y2); (5, 5, k_y3); (5, 7, - k_y2); (5, 11, k_y4);
    (7, 1, - k_y1); (7, 5, - k_y2); (7, 7, k_y1); (7, 11, - k_y2);
    (11, 1, k_y2); (11, 5, k_y4); (11, 7, - k_y2); (11, 11, k_y3);
    (2, 2, k_z1); (2, 4, - k_z2); (2, 8, - k_z1); (2, 10, - k_z2);
    (4, 2, - k_z2); (4, 4, k_z3); (4, 8, k_z2); (4, 10, k_z4);
    (8, 2, - k_z1); (8, 4, k_z2); (8, 8, k_z1); (8, 10, k_z2);
    (10, 2, - k_z2); (10, 4, k_z4); (10, 8, k_z2); (10, 10, k_z3);
    (3, 3, GJ_L); (3, 9, - GJ_L); (9, 3, - GJ_L); (9, 9, GJ_L) ]%nat.

Definition localStiffnessMatrix (this : t) : Matrix.t :=
  ForOf (localStiffnessEntries this)
    (fun '(i, j, v) k => Matrix.set k i j v) (Matrix.zeros 12 12).

Definition transformationMatrix (this : t) : Result Matrix.t :=
  createTransformationMatrix (iNode this) (jNode this) (rotation this).

Definition globalStiffnessMatrix (this : t) : Result Matrix.t :=
  let kLocal := localStiffnessMatrix this in
  let! T := transformationMatrix this in
  let Tt := Matrix.transpose T in
  let! TtK := Matrix.multiply Tt kLocal in
  Matrix.multiply TtK T.

Definition addUniformLoadFER (fer : list R) (direction : LoadDirection)
    (w x1 x2 L : R) : list R :=
  if Rltb (Rabs x1) 1e-10 && Rltb (Rabs (x2 - L)) 1e-10 then
    let wL := w * L in
    let wL2 := w * L * L in
    match direction with
    | FY =>
        let fer := vadd fer 1 (wL / 2) in
        let fer := vadd fer 5 (wL2 / 12) in
        let fer := vadd fer 7 (wL / 2) in
        vadd fer 11 (- wL2 / 12)
    | FZ =>
        let fer := vadd fer 2 (wL / 2) in
        let fer := vadd fer 4 (- wL2 / 12) in
        let fer := vadd fer 8 (wL / 2) in
        vadd fer 10 (wL2 / 12)
    | FX =>
        let fer := vadd fer 0 (wL / 2) in
        vadd fer 6 (wL / 2)
    | _ => fer
    end
  else
    let a := x1 in
    let b := x2 in
    let loadLen := b - a in
    match direction with
    | FY =>
        let R1 := w * loadLen * (L - (a + b) / 2) / L in
        let R2 := w * loadLen - R1 in
        let M1 := w * loadLen * ((a + b) / 2 - a * (L - (a + b) / 2) / L) in
        let fer := vadd fer 1 R1 in
        let fer := vadd fer 7 R2 in
        let fer := vadd fer 5 M1 in
        vadd fer 11 (- M1)
    | FZ =>
        let R1 := w * loadLen * (L - (a + b) / 2) / L in
        let R2 := w * loadLen - R1 in
        let fer := vadd fer 2 R1 in
        vadd fer 8 R2
    | FX =>
        let R1 := w * loadLen * (L - (a + b) / 2) / L in
        let R2 := w * loadLen - R1 in
        let fer := vadd fer 0 R1 in
        vadd fer 6 R2
    | _ => fer
    end.

Definition addLinearLoadFER (fer : list R) (direction : LoadDirection)
    (w1 w2 x1 x2 L : R) : list R :=
  let wMin := Rmin w1 w2 in
  let wDiff := Rabs (w2 - w1) in
  let fer := addUniformLoadFER fer direction wMin x1 x2 L in
  let wAvg := wDiff / 2 in
  addUniformLoadFER fer direction wAvg x1 x2 L.

Definition addPointLoadFER (fer : list R) (direction : LoadDirection)
    (P a L : R) : list R :=
  let b := L - a in
  let L2 := L * L in
  let L3 := L2 * L in
  match direction with
  | FY =>
      let fer := vadd fer 1 (P * b * b * (3 * a + b) / L3) in
      let fer := vadd fer 5 (P * a * b * b / L2) in
      let fer := vadd fer 7 (P * a * a * (a + 3 * b) / L3) in
      vadd fer 11 (- P * a * a * b / L2)
  | FZ =>
      let fer := vadd fer 2 (P * b * b * (3 * a + b) / L3) in
      let fer := vadd fer 4 (- P * a * b * b / L2) in
      let fer := vadd fer 8 (P * a * a * (a + 3 * b) / L3) in
      vadd fer 10 (P * a * a * b / L2)
  | FX =>
      let fer := vadd fer 0 (P * b / L) in
      vadd fer 6 (P * a / L)
  | MZ =>
      let fer := vadd fer 1 (6 * P * a * b / L3) in
      let fer := vadd fer 5 (P * b * (2 * a - b) / L2) in
      let fer := vadd fer 7 (- 6 * P * a * b / L3) in
      vadd fer 11 (P * a * (2 * b - a) / L2)
  | MY =>
      let fer := vadd fer 2 (- 6 * P * a * b / L3) in
      let fer := vadd fer 4 (P * b * (2 * a - b) / L2) in
      let fer := vadd fer 8 (6 * P * a * b / L3) in
      vadd fer 10 (P * a * (2 * b - a) / L2)
  | MX =>
      let fer := vadd fer 3 (P * b / L) in
      vadd fer 9 (P * a / L)
  | _ => fer
  end.

(** The body of the loop over [memberLoads] in [fixedEndReactions]: the
    local vector [fer] after one load. *)
Definition accumulateLoad (this : t) (load : MemberLoad.t) (fer : list R)
  : list R :=
  let L := length this in
  if negb (String.eqb (MemberLoad.member load) (id this)) then fer
  else
    let dir := toUpperCase (MemberLoad.direction load) in
    match MemberLoad.type load with
    | distributed =>
        let w1 := orElse (MemberLoad.w1 load) 0 in
        let w2 := nullish (MemberLoad.w2 load) w1 in
        let x1 := orElse (MemberLoad.x1 load) 0 * L in
        let x2 := nullish (MemberLoad.x2 load) 1 * L in
        if Rlt_dec (Rabs (w1 - w2)) 1e-10 then
          addUniformLoadFER fer dir w1 x1 x2 L
        else
          addLinearLoadFER fer dir w1 w2 x1 x2 L
    | point =>
        let P := orElse (MemberLoad.magnitude load) 0 in
        let x := orElse (MemberLoad.x load) 0.5 * L in
        addPointLoadFER fer dir P x L
    | moment => fer
    end.

(** The local vector [fer] at the end of the loop. *)
Definition localFER (this : t) (memberLoads : list MemberLoad.t) : list R :=
  ForOf memberLoads (accumulateLoad this) (replicate 12 0).

Definition fixedEndReactions (this : t) (memberLoads : list MemberLoad.t)
  : Result (list R) :=
  let fer := localFER this memberLoads in
  let! T := transformationMatrix this in
  let ferLocal := Matrix.transpose (Matrix.fromArray [fer]) in
  let! ferGlobal := Matrix.multiply (Matrix.transpose T) ferLocal in
  Ok (map (fun i => Matrix.get ferGlobal i 0) (seq 0 12)).

Definition computeMemberForces (this : t) (displacements : list R)
    (memberLoads : list MemberLoad.t) (numPoints : nat)
  : Result (list ForcePoint.t) :=
  let! T := transformationMatrix this in
  let kLocal := localStiffnessMatrix this in
  let dGlobal := Matrix.transpose (Matrix.fromArray [displacements]) in
  let! dLocal := Matrix.multiply T dGlobal in
  let! fLocal := Matrix.multiply kLocal dLocal in
  let! fer := fixedEndReactions this memberLoads in
  let ferLocal := Matrix.transpose (Matrix.fromArray [fer]) in
  let! ferLocalTransformed := Matrix.multiply T ferLocal in
  Ok (For 0 (numPoints + 1) (fun i results =>
        let x := INR i / INR numPoints * length this in
        let ratio := x / length this in
        results ++
        [ForcePoint.mk x
           [Matrix.get fLocal 0 0 * (1 - ratio) + Matrix.get fLocal 6 0 * ratio;
            Matrix.get fLocal 1 0 * (1 - ratio) + Matrix.get fLocal 7 0 * ratio;
            Matrix.get fLocal 2 0 * (1 - ratio) + Matrix.get fLocal 8 0 * ratio;
            Matrix.get fLocal 3 0 * (1 - ratio) + Matrix.get fLocal 9 0 * ratio;
            Matrix.get fLocal 4 0 * (1 - ratio) + Matrix.get fLocal 10 0 * ratio;
            Matrix.get fLocal 5 0 * (1 - ratio) + Matrix.get fLocal 11 0 * ratio]])
        []).

End Member3DElement.

(** ** Analyzer.ts *)

(** [l.forEach((v, index) => ...)] and [for (i = 0; i < l.length; i++)]
    reading [l[i]] *)
Fixpoint forEach_from {S B : Type} (l : list B) (index : nat)
    (body : B -> nat -> S -> S) (s : S) : S :=
  match l with
  | [] => s
  | v :: l' => forEach_from l' (Datatypes.S index) body (body v index s)
  end.

Definition ForEach {S B : Type} (l : list B) (body : B -> nat -> S -> S) (s : S)
  : S :=
  forEach_from l 0 body s.

(** [l.map(f)] with an [f] that may throw *)
Fixpoint mapE {B C : Type} (f : B -> Result C) (l : list B) : Result (list C) :=
  match l with
  | [] => Ok []
  | v :: l' => let! c := f v in let! cs := mapE f l' in Ok (c :: cs)
  end.

Module Analyzer.

Record t : Type :=
  mk { model : StanalModel.t;
       nodeMap : gmap string Node.t;
       nodeIndexMap : gmap string nat;
       materialMap : gmap string Material.t;
       sectionMap : gmap string Section_.t;
       supportMap : gmap string Support.t;
       elements : list Member3DElement.t;
       numDOF : nat;
       freeDOF : list nat;
       fixedDOF : list nat }.

Definition constraintsOf (support : option Support.t) : list bool :=
  match support with
  | Some s =>
      [Support.dx s; Support.dy s; Support.dz s;
       Support.rx s; Support.ry s; Support.rz s]
  | None => [false; false; false; false; false; false]
  end.

(** The lists [(freeDOF, fixedDOF)] built by [classifyDOF]. *)
Definition classify (nodes : list Node.t) (supportMap : gmap string Support.t)
  : list nat * list nat :=
  ForEach nodes (fun node i '(freeDOF, fixedDOF) =>
    let support := supportMap !! Node.id node in
    let baseDOF := (i * 6)%nat in
    let constraints := constraintsOf support in
    For 0 6 (fun j '(freeDOF, fixedDOF) =>
      if nth j constraints false
      then (freeDOF, fixedDOF ++ [(baseDOF + j)%nat])
      else (freeDOF ++ [(baseDOF + j)%nat], fixedDOF))
      (freeDOF, fixedDOF))
    ([], []).

Definition classifyDOF (this : t) : t :=
  let '(freeDOF, fixedDOF) :=
    classify (StanalModel.nodes (model this)) (supportMap this) in
  mk (model this) (nodeMap this) (nodeIndexMap this) (materialMap this)
     (sectionMap this) (supportMap this) (elements this) (numDOF this)
     freeDOF fixedDOF.

Definition initialize (this : t) : Result t :=
  let m := model this in
  let '(nodeMap, nodeIndexMap) :=
    ForEach (StanalModel.nodes m) (fun node index '(nodeMap, nodeIndexMap) =>
      (<[Node.id node := node]> nodeMap, <[Node.id node := index]> nodeIndexMap))
      (nodeMap this, nodeIndexMap this) in
  let materialMap :=
    ForOf (StanalModel.materials m)
      (fun mat materialMap => <[Material.id mat := mat]> materialMap)
      (materialMap this) in
  let sectionMap :=
    ForOf (StanalModel.sections m)
      (fun sec sectionMap => <[Section_.id sec := sec]> sectionMap)
      (sectionMap this) in
  let supportMap :=
    ForOf (StanalModel.supports m)
      (fun support supportMap => <[Support.node support := support]> supportMap)
      (supportMap this) in
  let! elements :=
    ForOfE (StanalModel.members m) (fun member elements =>
      match nodeMap !! Member.iNode member, nodeMap !! Member.jNode member,
            materialMap !! Member.material member,
            sectionMap !! Member.section member with
      | Some iNode, Some jNode, Some material, Some section =>
          let! element :=
            Member3DElement.new member iNode jNode material section in
          Ok (elements ++ [element])
      | _, _, _, _ => Ok elements
      end) (elements this) in
  let numDOF := (List.length (StanalModel.nodes m) * 6)%nat in
  Ok (classifyDOF
        (mk m nodeMap nodeIndexMap materialMap sectionMap supportMap
            elements numDOF (freeDOF this) (fixedDOF this))).

(** The constructor; an exception of [initialize] leaves it. *)
Definition new (model : StanalModel.t) : Result t :=
  initialize (mk model ∅ ∅ ∅ ∅ ∅ [] 0 [] []).

(** [[iIndex * 6, ..., iIndex * 6 + 5, jIndex * 6, ..., jIndex * 6 + 5]] *)
Definition dofMap (iIndex jIndex : nat) : list nat :=
  [iIndex * 6; iIndex * 6 + 1; iIndex * 6 + 2;
   iIndex * 6 + 3; iIndex * 6 + 4; iIndex * 6 + 5;
   jIndex * 6; jIndex * 6 + 1; jIndex * 6 + 2;
   jIndex * 6 + 3; jIndex * 6 + 4; jIndex * 6 + 5]%nat.

(** With an index that is [undefined] the entries of [dofMap] are [NaN] and
    [K.add] reads [this.data[NaN][NaN]]: a [TypeError]. *)
Definition assembleGlobalStiffnessMatrix (this : t) : Result Matrix.t :=
  ForOfE (elements this) (fun element K =>
    let! kGlobal := Member3DElement.globalStiffnessMatrix element in
    match nodeIndexMap this !! Node.id (Member3DElement.iNode element),
          nodeIndexMap this !! Node.id (Member3DElement.jNode element) with
    | Some iIndex, Some jIndex =>
        let dofMap := dofMap iIndex jIndex in
        Ok (For 0 12 (fun i K =>
              For 0 12 (fun j K =>
                Matrix.add K (nth i dofMap O) (nth j dofMap O)
                  (Matrix.get kGlobal i j)) K) K)
    | _, _ => Throw "Cannot read properties of undefined (reading 'NaN')"
    end) (Matrix.zeros (numDOF this) (numDOF this)).

Definition getDOFOffset (direction : LoadDirection) : Z :=
  match direction with
  | FX => 0
  | FY => 1
  | FZ => 2
  | MX => 3
  | MY => 4
  | MZ => 5
  | _ => -1
  end%Z.

(** [P[index * 6 + i] -= v]; with [index] undefined the write goes to the
    property [NaN] and no entry of [P] changes. *)
Definition subAt (P : list R) (index : option nat) (i : nat) (v : R) : list R :=
  match index with
  | Some n => <[(n * 6 + i)%nat := vget P (n * 6 + i) - v]> P
  | None => P
  end.

Definition assembleLoadVector (this : t) (loadCase : LoadCase.t)
  : Result (list R) :=
  let P := replicate (numDOF this) 0 in
  let P :=
    ForOf (LoadCase.nodeLoads loadCase) (fun load P =>
      match nodeIndexMap this !! NodeLoad.node load with
      | None => P
      | Some nodeIndex =>
          let dir := toUpperCase (NodeLoad.direction load) in
          let dofOffset := getDOFOffset dir in
          if (0 <=? dofOffset)%Z then
            vadd P (nodeIndex * 6 + Z.to_nat dofOffset) (NodeLoad.magnitude load)
          else P
      end) P in
  ForOfE (elements this) (fun element P =>
    let! fer :=
      Member3DElement.fixedEndReactions element (LoadCase.memberLoads loadCase) in
    let iIndex := nodeIndexMap this !! Node.id (Member3DElement.iNode element) in
    let jIndex := nodeIndexMap this !! Node.id (Member3DElement.jNode element) in
    Ok (For 0 6 (fun i P =>
          let P := subAt P iIndex i (vget fer i) in
          subAt P jIndex i (vget fer (i + 6))) P)) P.

Definition findLoadCase (this : t) (caseName : string) : option LoadCase.t :=
  List.find (fun lc => String.eqb (LoadCase.name lc) caseName)
    (StanalModel.loadCases (model this)).

(** The combined load vector [P] of [analyze]. *)
Definition combinedLoadVector (this : t) (combo : LoadCombination.t)
  : Result (list R) :=
  ForOfE (LoadCombination.factors combo) (fun '(caseName, factor) P =>
    match findLoadCase this caseName with
    | Some loadCase =>
        let! caseP := assembleLoadVector this loadCase in
        Ok (For 0 (numDOF this) (fun i P =>
              <[i := vget P i + factor * vget caseP i]> P) P)
    | None => Ok P
    end) (replicate (numDOF this) 0).

Definition extractNodeResults (this : t) (D reactions : list R)
  : list NodeResult.t :=
  imap (fun index node =>
    let baseDOF := (index * 6)%nat in
    NodeResult.mk (Node.id node)
      (NodeDOF.mk (vget D baseDOF) (vget D (baseDOF + 1)) (vget D (baseDOF + 2))
         (vget D (baseDOF + 3)) (vget D (baseDOF + 4)) (vget D (baseDOF + 5)))
      (NodeDOF.mk (vget reactions baseDOF) (vget reactions (baseDOF + 1))
         (vget reactions (baseDOF + 2)) (vget reactions (baseDOF + 3))
         (vget reactions (baseDOF + 4)) (vget reactions (baseDOF + 5))))
    (StanalModel.nodes (model this)).

Definition findMax (forces : list MemberForces.t) (key : MemberForces.t -> R)
  : Extremum.t :=
  let '(maxVal, maxLoc) :=
    ForOf forces (fun f '(maxVal, maxLoc) =>
      let val := Rabs (key f) in
      if Rgt_dec val (Rabs maxVal) then (key f, MemberForces.x f)
      else (maxVal, maxLoc)) (0, 0) in
  Extremum.mk maxVal maxLoc.

(** [D[index * 6 + c]], read into an array that goes through
    [Matrix.fromArray]: a missing entry is [0] there. *)
Definition dofAt (D : list R) (index : option nat) (c : nat) : R :=
  match index with
  | Some n => vget D (n * 6 + c)
  | None => 0
  end.

Definition combinedLoads (this : t) (element : Member3DElement.t)
    (combo : LoadCombination.t) : list MemberLoad.t :=
  ForOf (LoadCombination.factors combo) (fun '(caseName, factor) combinedLoads =>
    match findLoadCase this caseName with
    | Some loadCase =>
        ForOf (LoadCase.memberLoads loadCase) (fun ml combinedLoads =>
          if String.eqb (MemberLoad.member ml) (Member3DElement.id element) then
            combinedLoads ++
            [MemberLoad.mk (MemberLoad.member ml) (MemberLoad.type ml)
               (MemberLoad.direction ml)
               (Some (orElse (MemberLoad.magnitude ml) 0 * factor))
               (Some (orElse (MemberLoad.w1 ml) 0 * factor))
               (Some (orElse (MemberLoad.w2 ml) 0 * factor))
               (MemberLoad.x1 ml) (MemberLoad.x2 ml) (MemberLoad.x ml)]
          else combinedLoads) combinedLoads
    | None => combinedLoads
    end) [].

Definition toMemberForces (fp : ForcePoint.t) : MemberForces.t :=
  MemberForces.mk (ForcePoint.x fp)
    (vget (ForcePoint.forces fp) 0) (vget (ForcePoint.forces fp) 1)
    (vget (ForcePoint.forces fp) 2) (vget (ForcePoint.forces fp) 3)
    (vget (ForcePoint.forces fp) 4) (vget (ForcePoint.forces fp) 5).

Definition extractMemberResults (this : t) (D : list R)
    (combo : LoadCombination.t) : Result (list MemberResult.t) :=
  mapE (fun element =>
    let iIndex := nodeIndexMap this !! Node.id (Member3DElement.iNode element) in
    let jIndex := nodeIndexMap this !! Node.id (Member3DElement.jNode element) in
    let elementD :=
      [dofAt D iIndex 0; dofAt D iIndex 1; dofAt D iIndex 2;
       dofAt D iIndex 3; dofAt D iIndex 4; dofAt D iIndex 5;
       dofAt D jIndex 0; dofAt D jIndex 1; dofAt D jIndex 2;
       dofAt D jIndex 3; dofAt D jIndex 4; dofAt D jIndex 5] in
    let combinedLoads := combinedLoads this element combo in
    let! forcePoints :=
      Member3DElement.computeMemberForces element elementD combinedLoads 11 in
    let forces := map toMemberForces forcePoints in
    let maxForces :=
      MaxForces.mk (findMax forces MemberForces.axial)
        (findMax forces MemberForces.shearY)
        (findMax forces MemberForces.shearZ)
        (findMax forces MemberForces.momentY)
        (findMax forces MemberForces.momentZ) in
    Ok (MemberResult.mk (Member3DElement.id element) forces maxForces))
    (elements this).

Definition directions : list (string * (NodeDOF.t -> R)) :=
  [("dx"%string, NodeDOF.dx); ("dy"%string, NodeDOF.dy); ("dz"%string, NodeDOF.dz)].

(** The loop of [computeSummary] over the nodes, for the six-tuple [sel]. *)
Definition maxOfNodes (sel : NodeResult.t -> NodeDOF.t) (nodes : list NodeResult.t)
  : NodeExtremum.t :=
  ForOf nodes (fun node best =>
    ForOf directions (fun '(dir, proj) best =>
      if Rgt_dec (Rabs (proj (sel node))) (Rabs (NodeExtremum.value best))
      then NodeExtremum.mk (NodeResult.nodeId node) (proj (sel node)) dir
      else best) best)
    (NodeExtremum.mk "" 0 "").

Definition computeSummary (nodes : list NodeResult.t)
    (members : list MemberResult.t) : Summary.t :=
  let maxDisp := maxOfNodes NodeResult.displacement nodes in
  let maxReaction := maxOfNodes NodeResult.reaction nodes in
  let '(maxMoment, maxShear) :=
    ForOf members (fun member '(maxMoment, maxShear) =>
      let mz := MaxForces.momentZ (MemberResult.maxForces member) in
      let sy := MaxForces.shearY (MemberResult.maxForces member) in
      let maxMoment :=
        if Rgt_dec (Rabs (Extremum.value mz)) (Rabs (MemberExtremum.value maxMoment))
        then MemberExtremum.mk (MemberResult.memberId member)
               (Extremum.value mz) (Extremum.location mz)
        else maxMoment in
      let maxShear :=
        if Rgt_dec (Rabs (Extremum.value sy)) (Rabs (MemberExtremum.value maxShear))
        then MemberExtremum.mk (MemberResult.memberId member)
               (Extremum.value sy) (Extremum.location sy)
        else maxShear in
      (maxMoment, maxShear))
      (MemberExtremum.mk "" 0 0, MemberExtremum.mk "" 0 0) in
  Summary.mk maxDisp maxReaction maxMoment maxShear.

Definition emptySummary : Summary.t :=
  Summary.mk (NodeExtremum.mk "" 0 "") (NodeExtremum.mk "" 0 "")
    (MemberExtremum.mk "" 0 0) (MemberExtremum.mk "" 0 0).

Definition findCombination (this : t) (combinationName : string)
  : option LoadCombination.t :=
  List.find (fun c => String.eqb (LoadCombination.name c) combinationName)
    (StanalModel.loadCombinations (model this)).

(** [reactions = K * D - P] *)
Definition computeReactions (this : t) (K : Matrix.t) (D P : list R)
  : Result (list R) :=
  let! reactions := Matrix.multiplyVector K D in
  Ok (For 0 (numDOF this) (fun i reactions =>
        <[i := vget reactions i - vget P i]> reactions) reactions).

(** The displacement vector [D] of [analyze]. *)
Definition solveDisplacements (this : t) (K : Matrix.t) (P : list R)
  : Result (list R) :=
  let K11 := Matrix.subMatrix K (freeDOF this) (freeDOF this) in
  let P1 := Matrix.extractVector P (freeDOF this) in
  let! D1 := Matrix.solve K11 P1 in
  Ok (Matrix.setVector (replicate (numDOF this) 0) (freeDOF this) D1).

(** The body of the [try] block of [analyze]. *)
Definition analyzeTry (this : t) (combinationName : string)
  : Result AnalysisResult.t :=
  match findCombination this combinationName with
  | None =>
      Ok (AnalysisResult.mk false
            (Some ("Load combination '" ++ combinationName ++ "' not found")%string)
            combinationName [] [] emptySummary)
  | Some combo =>
      let! K := assembleGlobalStiffnessMatrix this in
      let! P := combinedLoadVector this combo in
      let! D := solveDisplacements this K P in
      let! reactions := computeReactions this K D P in
      let nodeResults := extractNodeResults this D reactions in
      let! memberResults := extractMemberResults this D combo in
      Ok (AnalysisResult.mk true None combinationName nodeResults memberResults
            (computeSummary nodeResults memberResults))
  end.

(** The result of [analyze]: whatever is thrown in the [try] block is an
    [Error] and becomes a failed result with its message. *)
Definition analyzeResult (this : t) (combinationName : string)
  : AnalysisResult.t :=
  match analyzeTry this combinationName with
  | Ok result => result
  | Throw msg =>
      AnalysisResult.mk false (Some msg) combinationName [] [] emptySummary
  end.


End Analyzer.

(** ** Vocabulary of the statements *)

(** [data] holds [rows] rows of [cols] entries each, as the constructor
    builds it. *)
Definition wf (m : Matrix.t) : Prop :=
  length (Matrix.data m) = Matrix.rows m
  /\ Forall (fun r => length r = Matrix.cols m) (Matrix.data m).

(** [m] is [m0] with the entries at the places [W] overwritten by [g]. *)
Definition filled (m m0 : Matrix.t) (W : nat -> nat -> Prop) (g : nat -> nat -> R)
  : Prop :=
  wf m /\ Matrix.rows m = Matrix.rows m0 /\ Matrix.cols m = Matrix.cols m0
  /\ forall i j, (W i j -> Matrix.get m i j = g i j)
              /\ (~ W i j -> Matrix.get m i j = Matrix.get m0 i j).

(** Entry [i] of the product of the matrix [M] and the vector [v], both of
    size [n]. *)
Definition matVec (n : nat) (M : Matrix.t) (v : nat -> R) (i : nat) : R :=
  Rsum n (fun j => Matrix.get M i j * v j).

(** What the constructor of an element establishes: [length] is the distance
    of the end nodes and is not below [1e-10]. *)
Definition constructed (e : Member3DElement.t) : Prop :=
  let dx := Node.x (Member3DElement.jNode e) - Node.x (Member3DElement.iNode e) in
  let dy := Node.y (Member3DElement.jNode e) - Node.y (Member3DElement.iNode e) in
  let dz := Node.z (Member3DElement.jNode e) - Node.z (Member3DElement.iNode e) in
  Member3DElement.length e = sqrt (dx * dx + dy * dy + dz * dz)
  /\ ~ Member3DElement.length e < 1e-10.

(** [T] is made of four copies of [Rm] along the diagonal. *)
Definition blockDiag (T Rm : Matrix.t) : Prop :=
  forall i j, (i < 12)%nat -> (j < 12)%nat ->
    Matrix.get T i j
    = if decide (i / 3 = j / 3)%nat
      then Matrix.get Rm (i mod 3) (j mod 3) else 0.

(** [(T^t K T)[i][j]], summed in the order in which the code multiplies. *)
Definition tripleProduct (T K : Matrix.t) (i j : nat) : R :=
  Rsum 12 (fun l => Rsum 12 (fun k => Matrix.get T k i * Matrix.get K k l)
                    * Matrix.get T l j).

(** The local end forces [K_local * (T * d)]. *)
Definition localEndForces (K T : Matrix.t) (d : list R) (k : nat) : R :=
  matVec 12 K (matVec 12 T (vget d)) k.

(** The sample at point [i] of [numPoints] as the specification gives it: at
    [x = (i / numPoints) * L], each component interpolated linearly between
    the end values [f k] and [f (k + 6)]. *)
Definition interpolatedSample (L : R) (f : nat -> R) (numPoints i : nat)
  : ForcePoint.t :=
  let x := INR i / INR numPoints * L in
  ForcePoint.mk x
    (map (fun k => (1 - x / L) * f k + (x / L) * f (k + 6)%nat) (seq 0 6)).

(** The load [load] with its position [x] replaced. *)
Definition withX (load : MemberLoad.t) (x : option R) : MemberLoad.t :=
  MemberLoad.mk (MemberLoad.member load) (MemberLoad.type load)
    (MemberLoad.direction load) (MemberLoad.magnitude load)
    (MemberLoad.w1 load) (MemberLoad.w2 load)
    (MemberLoad.x1 load) (MemberLoad.x2 load) x.

(** What the constructor establishes and [analyze] relies on. *)
Definition analyzer_ok (a : Analyzer.t) : Prop :=
  Analyzer.numDOF a = (length (StanalModel.nodes (Analyzer.model a)) * 6)%nat
  /\ (forall e, e ∈ Analyzer.elements a ->
        constructed e
        /\ exists i j,
             Analyzer.nodeIndexMap a !! Node.id (Member3DElement.iNode e) = Some i
             /\ Analyzer.nodeIndexMap a !! Node.id (Member3DElement.jNode e) = Some j
             /\ (i < length (StanalModel.nodes (Analyzer.model a)))%nat
             /\ (j < length (StanalModel.nodes (Analyzer.model a)))%nat)
  /\ (Analyzer.freeDOF a, Analyzer.fixedDOF a)
     = Analyzer.classify (StanalModel.nodes (Analyzer.model a)) (Analyzer.supportMap a).

(** What one element adds at [(r, s)]: the entries of its 12 x 12 matrix
    whose global place under [dm] is [(r, s)]. *)
Definition scatter (dm : nat -> nat) (kG : Matrix.t) (r s : nat) : R :=
  Rsum 12 (fun i => Rsum 12 (fun j =>
    if decide (dm i = r /\ dm j = s) then Matrix.get kG i j else 0)).

(** The global index of the local degree of freedom [i] of an element. *)
Definition dofIndex (iIndex jIndex : nat) (i : nat) : nat :=
  nth i (Analyzer.dofMap iIndex jIndex) O.

(** An [n] x [n] matrix with a right-hand side of length [n]. *)
Definition system (n : nat) (A : Matrix.t) (x : list R) : Prop :=
  wf A /\ Matrix.rows A = n /\ Matrix.cols A = n /\ length x = n.

(** The index that rows [k] and [p] exchange. *)
Definition swapIndex (k p i : nat) : nat :=
  if decide (i = k) then p else if decide (i = p) then k else i.

(** The rows below the pivot row [k] after the elimination with pivot
    [akk]. *)
Definition eliminated (A : Matrix.t) (k : nat) (akk : R) (i j : nat) : R :=
  if decide (j = k) then Matrix.get A i k / akk
  else if decide (k < j)%nat
       then Matrix.get A i j - Matrix.get A i k / akk * Matrix.get A k j
       else Matrix.get A i j.

(** [y] solves the [n] x [n] system with matrix [M] and right-hand side
    [v]. *)
Definition solves (n : nat) (M : nat -> nat -> R) (v : nat -> R) (y : nat -> R)
  : Prop :=
  forall i, (i < n)%nat -> Rsum n (fun j => M i j * y j) = v i.

(** The matrix that the working copy stands for before pass [k]: the
    entries under the diagonal in the columns already eliminated hold the
    factors, and count as zero. *)
Definition effective (k : nat) (A : Matrix.t) (i j : nat) : R :=
  if decide (j < k /\ j < i)%nat then 0 else Matrix.get A i j.

(** The upper triangle of [A]. *)
Definition upper (A : Matrix.t) (i j : nat) : R :=
  if decide (j < i)%nat then 0 else Matrix.get A i j.

(** The transformation matrix of an element built by the constructor. *)
Definition transformationOf (e : Member3DElement.t) : Matrix.t :=
  match Member3DElement.transformationMatrix e with
  | Ok T => T
  | Throw _ => Matrix.zeros 12 12
  end.

(** The twelve displacements of the two end nodes of an element. *)
Definition elementDisplacements (a : Analyzer.t) (D : list R)
    (e : Member3DElement.t) : list R :=
  let iIndex := Analyzer.nodeIndexMap a !! Node.id (Member3DElement.iNode e) in
  let jIndex := Analyzer.nodeIndexMap a !! Node.id (Member3DElement.jNode e) in
  [Analyzer.dofAt D iIndex 0; Analyzer.dofAt D iIndex 1; Analyzer.dofAt D iIndex 2;
   Analyzer.dofAt D iIndex 3; Analyzer.dofAt D iIndex 4; Analyzer.dofAt D iIndex 5;
   Analyzer.dofAt D jIndex 0; Analyzer.dofAt D jIndex 1; Analyzer.dofAt D jIndex 2;
   Analyzer.dofAt D jIndex 3; Analyzer.dofAt D jIndex 4; Analyzer.dofAt D jIndex 5].

(** The samples of an element for the displacements [d]. *)
Definition samplesOf (e : Member3DElement.t) (d : list R) : list ForcePoint.t :=
  map (interpolatedSample (Member3DElement.length e)
         (localEndForces (Member3DElement.localStiffnessMatrix e)
            (transformationOf e) d) 11)
    (seq 0 12).

(** The member result built from the samples of an element. *)
Definition memberResultOf (e : Member3DElement.t) (d : list R) : MemberResult.t :=
  let forces := map Analyzer.toMemberForces (samplesOf e d) in
  MemberResult.mk (Member3DElement.id e) forces
    (MaxForces.mk (Analyzer.findMax forces MemberForces.axial)
       (Analyzer.findMax forces MemberForces.shearY)
       (Analyzer.findMax forces MemberForces.shearZ)
       (Analyzer.findMax forces MemberForces.momentY)
       (Analyzer.findMax forces MemberForces.momentZ)).

(** The failed result of [analyze] with message [msg]. *)
Definition failedResult (msg combinationName : string) : AnalysisResult.t :=
  AnalysisResult.mk false (Some msg) combinationName [] [] Analyzer.emptySummary.

(** The unit translation of every node in the global direction [c]. *)
Definition translation (c : nat) (s : nat) : R :=
  if (s mod 6 =? c)%nat then 1 else 0.

(** The component [c] of a six-tuple: [dx, dy, dz, rx, ry, rz]. *)
Definition component (d : NodeDOF.t) (c : nat) : R :=
  match c with
  | 0%nat => NodeDOF.dx d
  | 1%nat => NodeDOF.dy d
  | 2%nat => NodeDOF.dz d
  | 3%nat => NodeDOF.rx d
  | 4%nat => NodeDOF.ry d
  | _ => NodeDOF.rz d
  end.

(** The sum of a list of numbers. *)
Definition Rsum_list (l : list R) : R := foldr Rplus 0 l.

(** The constraint flag [j] of the node at position [i]. *)
Definition constraintAt (nodes : list Node.t) (supportMap : gmap string Support.t)
    (i j : nat) : bool :=
  match nodes !! i with
  | Some node => nth j (Analyzer.constraintsOf (supportMap !! Node.id node)) false
  | None => false
  end.

(** The vector [v] with every entry multiplied by [s]. *)
Definition scaleVec (s : R) (v : list R) : list R := map (Rmult s) v.

(** The result of a computation that may throw, mapped through [f]. *)
Definition mapResult {A B : Type} (f : A -> B) (r : Result A) : Result B :=
  match r with
  | Ok a => Ok (f a)
  | Throw msg => Throw msg
  end.










(** The load vector of the case named [caseName]; zero when there is no such
    case. *)
Definition caseVector (a : Analyzer.t) (caseName : string) : list R :=
  match Analyzer.findLoadCase a caseName with
  | Some loadCase =>
      match Analyzer.assembleLoadVector a loadCase with
      | Ok caseP => caseP
      | Throw _ => replicate (Analyzer.numDOF a) 0
      end
  | None => replicate (Analyzer.numDOF a) 0
  end.

(** A material with [E = G = 1]. *)
Definition beamMaterial : Material.t := Material.mk "Steel" 1 1 0 0.

(** A section with [A = Iy = Iz = J = 1]. *)
Definition beamSection : Section_.t := Section_.mk "Default" 1 1 1 1.

(** Two nodes at distance 1 on the global X axis. *)
Definition beamNodes : list Node.t := [Node.mk "N1" 0 0 0; Node.mk "N2" 1 0 0].

(** The member from [N1] to [N2], without rotation. *)
Definition beamMember : Member.t := Member.mk "M1" "N1" "N2" "Steel" "Default" None.

(** [N1] is fixed in all six directions, [N2] in all but the translation in
    Y. *)
Definition beamSupports : list Support.t :=
  [Support.mk "N1" true true true true true true;
   Support.mk "N2" true false true true true true].

(** The load case [A]: the force [FY = 12] at [N2]. *)
Definition beamCase : LoadCase.t := LoadCase.mk "A" [NodeLoad.mk "N2" FY 12] [].

(** The combination [C1 = {A: 1}]. *)
Definition beamOnce : LoadCombination.t := LoadCombination.mk "C1" [("A"%string, 1)].

(** The combination [C2 = {A: 2}]. *)
Definition beamTwice : LoadCombination.t := LoadCombination.mk "C2" [("A"%string, 2)].

(** The guided beam: one member of unit length and unit properties along the
    global X axis, fixed at [N1], free to move in Y only at [N2], where it
    carries the load. *)
Definition beam : StanalModel.t :=
  StanalModel.mk [beamMaterial] [beamSection] beamNodes [beamMember] beamSupports
    [beamCase] [beamOnce; beamTwice].

(** The element that the constructor builds for the member of the beam. *)
Definition beamElement : Member3DElement.t :=
  Member3DElement.mk "M1" (Node.mk "N1" 0 0 0) (Node.mk "N2" 1 0 0)
    beamMaterial beamSection 0
    (sqrt ((1 - 0) * (1 - 0) + (0 - 0) * (0 - 0) + (0 - 0) * (0 - 0))).

(** The analyzer that the constructor builds for [beam]. *)
Definition beamAnalyzer : Analyzer.t :=
  Analyzer.mk beam
    (<["N2"%string := Node.mk "N2" 1 0 0]> (<["N1"%string := Node.mk "N1" 0 0 0]> ∅))
    (<["N2"%string := 1%nat]> (<["N1"%string := 0%nat]> ∅))
    (<["Steel"%string := beamMaterial]> ∅)
    (<["Default"%string := beamSection]> ∅)
    (<["N2"%string := Support.mk "N2" true false true true true true]>
       (<["N1"%string := Support.mk "N1" true true true true true true]> ∅))
    [beamElement] 12 [7%nat] [0; 1; 2; 3; 4; 5; 6; 8; 9; 10; 11]%nat.



(** The guided beam with both nodes fixed in all six directions. *)
Definition clamped : StanalModel.t :=
  StanalModel.mk [beamMaterial] [beamSection] beamNodes [beamMember]
    [Support.mk "N1" true true true true true true;
     Support.mk "N2" true true true true true true]
    [beamCase] [beamOnce; beamTwice].

(** The analyzer that the constructor builds for [clamped]: no degree of
    freedom is free. *)
Definition clampedAnalyzer : Analyzer.t :=
  Analyzer.mk clamped
    (<["N2"%string := Node.mk "N2" 1 0 0]> (<["N1"%string := Node.mk "N1" 0 0 0]> ∅))
    (<["N2"%string := 1%nat]> (<["N1"%string := 0%nat]> ∅))
    (<["Steel"%string := beamMaterial]> ∅)
    (<["Default"%string := beamSection]> ∅)
    (<["N2"%string := Support.mk "N2" true true true true true true]>
       (<["N1"%string := Support.mk "N1" true true true true true true]> ∅))
    [beamElement] 12 [] [0; 1; 2; 3; 4; 5; 6; 7; 8; 9; 10; 11]%nat.






(** The entrywise sum of two vectors. *)
Definition vplus (b c : list R) : list R := zip_with Rplus b c.

(** The scalar product of two vectors of three components. *)
Definition dot3 (u v : list R) : R :=
  vget u 0 * vget v 0 + vget u 1 * vget v 1 + vget u 2 * vget v 2.

(** Three vectors of unit length, perpendicular to each other. *)
Definition orthonormal3 (x y z : list R) : Prop :=
  dot3 x x = 1 /\ dot3 y y = 1 /\ dot3 z z = 1
  /\ dot3 x y = 0 /\ dot3 x z = 0 /\ dot3 y z = 0.

(** The state of the loops of [classifyDOF] when the degrees of freedom
    below [bound] have been classified. *)
Definition classified (nodes : list Node.t) (supportMap : gmap string Support.t)
    (bound : nat) (s : list nat * list nat) : Prop :=
  StronglySorted lt s.1 /\ StronglySorted lt s.2
  /\ (forall d, d ∈ s.1 <->
        (d < bound)%nat /\ constraintAt nodes supportMap (d / 6) (d mod 6) = false)
  /\ (forall d, d ∈ s.2 <->
        (d < bound)%nat /\ constraintAt nodes supportMap (d / 6) (d mod 6) = true).

(** The state [(maxVal, maxLoc)] of the loop of [findMax] after the samples
    [l]. *)
Definition extremumOf (l : list MemberForces.t) (key : MemberForces.t -> R)
    (s : R * R) : Prop :=
  (forall f, f ∈ l -> Rabs (key f) <= Rabs s.1)
  /\ ((s = (0, 0) /\ forall f, f ∈ l -> key f = 0)
      \/ exists k f, l !! k = Some f /\ s = (key f, MemberForces.x f)
           /\ key f <> 0
           /\ forall k' f', (k' < k)%nat -> l !! k' = Some f' ->
                Rabs (key f') < Rabs (key f)).

(** Some entry of [l] has the id [k]. *)
Definition hasId {A : Type} (id : A -> string) (l : list A) (k : string) : bool :=
  existsb (fun v => String.eqb (id v) k) l.

(** The end nodes, the material and the section of the member are defined in
    the model. *)
Definition resolvable (model : StanalModel.t) (m : Member.t) : bool :=
  hasId Node.id (StanalModel.nodes model) (Member.iNode m)
  && hasId Node.id (StanalModel.nodes model) (Member.jNode m)
  && hasId Material.id (StanalModel.materials model) (Member.material m)
  && hasId Section_.id (StanalModel.sections model) (Member.section m).

(** The element [e] is built from the member [m]. *)
Definition builtFrom (e : Member3DElement.t) (m : Member.t) : Prop :=
  Member3DElement.id e = Member.id m
  /\ Node.id (Member3DElement.iNode e) = Member.iNode m
  /\ Node.id (Member3DElement.jNode e) = Member.jNode m
  /\ Material.id (Member3DElement.material e) = Member.material m
  /\ Section_.id (Member3DElement.section e) = Member.section m
  /\ Member3DElement.rotation e = orElse (Member.rotation m) 0.

(** The beam with a second member that names the unknown node [N9]. *)
Definition stray : StanalModel.t :=
  StanalModel.mk [beamMaterial] [beamSection] beamNodes
    [Member.mk "M0" "N1" "N9" "Steel" "Default" None; beamMember] beamSupports
    [beamCase] [beamOnce; beamTwice].

(** The analyzer that the constructor builds for [stray]: the element of the
    beam only. *)
Definition strayAnalyzer : Analyzer.t :=
  Analyzer.mk stray
    (<["N2"%string := Node.mk "N2" 1 0 0]> (<["N1"%string := Node.mk "N1" 0 0 0]> ∅))
    (<["N2"%string := 1%nat]> (<["N1"%string := 0%nat]> ∅))
    (<["Steel"%string := beamMaterial]> ∅)
    (<["Default"%string := beamSection]> ∅)
    (<["N2"%string := Support.mk "N2" true false true true true true]>
       (<["N1"%string := Support.mk "N1" true true true true true true]> ∅))
    [beamElement] 12 [7%nat] [0; 1; 2; 3; 4; 5; 6; 8; 9; 10; 11]%nat.

(** The sum of two six-tuples. *)
Definition addDOF (d1 d2 : NodeDOF.t) : NodeDOF.t :=
  NodeDOF.mk (NodeDOF.dx d1 + NodeDOF.dx d2) (NodeDOF.dy d1 + NodeDOF.dy d2)
    (NodeDOF.dz d1 + NodeDOF.dz d2) (NodeDOF.rx d1 + NodeDOF.rx d2)
    (NodeDOF.ry d1 + NodeDOF.ry d2) (NodeDOF.rz d1 + NodeDOF.rz d2).

(** The sum of two results of the same node. *)
Definition addNode (n1 n2 : NodeResult.t) : NodeResult.t :=
  NodeResult.mk (NodeResult.nodeId n1)
    (addDOF (NodeResult.displacement n1) (NodeResult.displacement n2))
    (addDOF (NodeResult.reaction n1) (NodeResult.reaction n2)).

(** The sum of two samples at the same position. *)
Definition addForces (f1 f2 : MemberForces.t) : MemberForces.t :=
  MemberForces.mk (MemberForces.x f1)
    (MemberForces.axial f1 + MemberForces.axial f2)
    (MemberForces.shearY f1 + MemberForces.shearY f2)
    (MemberForces.shearZ f1 + MemberForces.shearZ f2)
    (MemberForces.torsion f1 + MemberForces.torsion f2)
    (MemberForces.momentY f1 + MemberForces.momentY f2)
    (MemberForces.momentZ f1 + MemberForces.momentZ f2).

(** The beam with a second load case [B] on the same node and the
    combinations [{A: 1}], [{B: 2}] and [{A: 1, B: 2}]. *)
Definition twoCases : StanalModel.t :=
  StanalModel.mk [beamMaterial] [beamSection] beamNodes [beamMember] beamSupports
    [beamCase; LoadCase.mk "B" [NodeLoad.mk "N2" FY 5] []]
    [LoadCombination.mk "CA" [("A"%string, 1)];
     LoadCombination.mk "CB" [("B"%string, 2)];
     LoadCombination.mk "CAB" [("A"%string, 1); ("B"%string, 2)]].

(** The analyzer that the constructor builds for [twoCases]. *)
Definition twoCasesAnalyzer : Analyzer.t :=
  Analyzer.mk twoCases
    (<["N2"%string := Node.mk "N2" 1 0 0]> (<["N1"%string := Node.mk "N1" 0 0 0]> ∅))
    (<["N2"%string := 1%nat]> (<["N1"%string := 0%nat]> ∅))
    (<["Steel"%string := beamMaterial]> ∅)
    (<["Default"%string := beamSection]> ∅)
    (<["N2"%string := Support.mk "N2" true false true true true true]>
       (<["N1"%string := Support.mk "N1" true true true true true true]> ∅))
    [beamElement] 12 [7%nat] [0; 1; 2; 3; 4; 5; 6; 8; 9; 10; 11]%nat.

(** * Properties *)

(** ** Invariants of loops *)

Lemma for_loop_last {S : Type} (cnt lo : nat) (body : nat -> S -> S) (s : S) :
  for_loop (Datatypes.S cnt) lo body s
  = body (lo + cnt)%nat (for_loop cnt lo body s).
Proof.
  revert lo s. induction cnt as [|cnt IH]; intros lo s.
  - simpl. by rewrite Nat.add_0_r.
  - change (for_loop (Datatypes.S (Datatypes.S cnt)) lo body s)
      with (for_loop (Datatypes.S cnt) (Datatypes.S lo) body (body lo s)).
    rewrite IH. simpl. do 2 f_equal. lia.
Qed.

(** Invariants of a loop: [P i s] holds before pass [i]. *)
Lemma For_ind {S : Type} (P : nat -> S -> Prop) (lo hi : nat)
    (body : nat -> S -> S) (s : S) :
  (lo <= hi)%nat ->
  P lo s ->
  (forall i s, (lo <= i < hi)%nat -> P i s -> P (Datatypes.S i) (body i s)) ->
  P hi (For lo hi body s).
Proof.
  intros Hle H0 Hstep. unfold For.
  replace hi with (lo + (hi - lo))%nat at 1 by lia.
  assert (Hc : (lo + (hi - lo) <= hi)%nat) by lia.
  revert Hc. generalize (hi - lo)%nat as cnt.
  induction cnt as [|cnt IH]; intros Hc.
  - simpl. by rewrite Nat.add_0_r.
  - rewrite for_loop_last.
    replace (lo + Datatypes.S cnt)%nat with (Datatypes.S (lo + cnt)) by lia.
    apply Hstep; [lia|]. apply IH. lia.
Qed.

Lemma For_empty {S : Type} (lo hi : nat) (body : nat -> S -> S) (s : S) :
  (hi <= lo)%nat -> For lo hi body s = s.
Proof. intros H. unfold For. by replace (hi - lo)%nat with O by lia. Qed.

Lemma For_ext {S : Type} (lo hi : nat) (f g : nat -> S -> S) (s : S) :
  (forall i s, (lo <= i < hi)%nat -> f i s = g i s) ->
  For lo hi f s = For lo hi g s.
Proof.
  intros H. destruct (decide (lo <= hi)%nat) as [Hle|Hgt].
  - symmetry. apply (For_ind (fun i s' => For lo i g s = s') lo hi f s Hle).
    + by rewrite For_empty.
    + intros i s' Hi <-. rewrite H by done. unfold For.
      replace (Datatypes.S i - lo)%nat with (Datatypes.S (i - lo)) by lia.
      rewrite for_loop_last. do 2 f_equal. lia.
  - rewrite !For_empty by lia. done.
Qed.

Lemma For_S {S : Type} (lo hi : nat) (body : nat -> S -> S) (s : S) :
  (lo <= hi)%nat ->
  For lo (Datatypes.S hi) body s = body hi (For lo hi body s).
Proof.
  intros H. unfold For.
  replace (Datatypes.S hi - lo)%nat with (Datatypes.S (hi - lo)) by lia.
  rewrite for_loop_last. do 2 f_equal. lia.
Qed.

Lemma For_first {S : Type} (lo hi : nat) (body : nat -> S -> S) (s : S) :
  (lo < hi)%nat ->
  For lo hi body s = For (Datatypes.S lo) hi body (body lo s).
Proof.
  intros H. unfold For.
  replace (hi - lo)%nat with (Datatypes.S (hi - Datatypes.S lo)) by lia.
  done.
Qed.

(** A loop that pushes one value per pass builds the mapped range. *)
Lemma For_push {B : Type} (n : nat) (f : nat -> B) :
  For 0 n (fun i results => results ++ [f i]) [] = map f (seq 0 n).
Proof.
  induction n as [|n IH]; [done|].
  rewrite For_S by lia. rewrite IH, seq_S, map_app. done.
Qed.

(** ** Finite sums *)

Lemma Rsum_ext (n : nat) (f g : nat -> R) :
  (forall i, (i < n)%nat -> f i = g i) -> Rsum n f = Rsum n g.
Proof.
  induction n as [|n IH]; intros H; [done|].
  simpl. rewrite IH, H by (try lia; intros; apply H; lia). done.
Qed.

Lemma Rsum_zero (n : nat) (f : nat -> R) :
  (forall i, (i < n)%nat -> f i = 0) -> Rsum n f = 0.
Proof.
  induction n as [|n IH]; intros H; [done|].
  simpl. rewrite IH, H by (try lia; intros; apply H; lia). lra.
Qed.

Lemma Rsum_plus (n : nat) (f g : nat -> R) :
  Rsum n (fun i => f i + g i) = Rsum n f + Rsum n g.
Proof. induction n as [|n IH]; simpl; [lra|]. rewrite IH. lra. Qed.

Lemma Rsum_minus (n : nat) (f g : nat -> R) :
  Rsum n (fun i => f i - g i) = Rsum n f - Rsum n g.
Proof. induction n as [|n IH]; simpl; [lra|]. rewrite IH. lra. Qed.

Lemma Rsum_scal_l (n : nat) (c : R) (f : nat -> R) :
  Rsum n (fun i => c * f i) = c * Rsum n f.
Proof. induction n as [|n IH]; simpl; [lra|]. rewrite IH. lra. Qed.

Lemma Rsum_scal_r (n : nat) (c : R) (f : nat -> R) :
  Rsum n (fun i => f i * c) = Rsum n f * c.
Proof. induction n as [|n IH]; simpl; [lra|]. rewrite IH. lra. Qed.

Lemma Rsum_swap (n m : nat) (f : nat -> nat -> R) :
  Rsum n (fun i => Rsum m (fun j => f i j))
  = Rsum m (fun j => Rsum n (fun i => f i j)).
Proof.
  induction n as [|n IH]; simpl.
  - symmetry. by apply Rsum_zero.
  - rewrite IH, <- Rsum_plus. done.
Qed.

(** A sum with a single non-zero term. *)
Lemma Rsum_single (n k : nat) (f : nat -> R) :
  (k < n)%nat ->
  (forall i, (i < n)%nat -> i <> k -> f i = 0) ->
  Rsum n f = f k.
Proof.
  induction n as [|n IH]; intros Hk H; [lia|]. simpl.
  destruct (decide (k = n)) as [->|Hne].
  - rewrite Rsum_zero; [lra|]. intros i Hi. apply H; lia.
  - rewrite IH, (H n) by (try lia; intros; apply H; lia). lra.
Qed.

Lemma For_sum (n : nat) (f : nat -> R) :
  For 0 n (fun k sum => sum + f k) 0 = Rsum n f.
Proof.
  induction n as [|n IH]; [done|].
  rewrite For_S by lia. rewrite IH. done.
Qed.

Lemma wf_row m i : wf m -> (i < Matrix.rows m)%nat ->
  exists r, Matrix.data m !! i = Some r /\ length r = Matrix.cols m.
Proof.
  intros [Hl Hr] Hi.
  destruct (lookup_lt_is_Some_2 (Matrix.data m) i) as [r Hr']; [lia|].
  exists r. split; [done|]. by eapply (Forall_lookup_1 _ _ _ _ Hr).
Qed.

Lemma wf_new r c v : wf (Matrix.new r c v).
Proof.
  split; simpl.
  - by rewrite length_replicate.
  - apply Forall_replicate. by rewrite length_replicate.
Qed.

Lemma get_new r c v i j : (i < r)%nat -> (j < c)%nat -> Matrix.get (Matrix.new r c v) i j = v.
Proof.
  intros Hi Hj. unfold Matrix.get, Matrix.new. simpl.
  rewrite !nth_lookup, lookup_replicate_2 by done. simpl.
  by rewrite lookup_replicate_2.
Qed.

Lemma wf_set m i j v : wf m -> wf (Matrix.set m i j v).
Proof.
  intros [Hl Hr]. split; simpl.
  - by rewrite length_alter.
  - apply Forall_alter; [done|]. intros r _ Hc. rewrite length_insert.
    revert Hc. rewrite Forall_lookup in Hr. eauto.
Qed.

Lemma get_set m i j v i' j' :
  wf m -> (i < Matrix.rows m)%nat -> (j < Matrix.cols m)%nat ->
  Matrix.get (Matrix.set m i j v) i' j'
  = if decide (i' = i /\ j' = j) then v else Matrix.get m i' j'.
Proof.
  intros Hwf Hi Hj. destruct (wf_row m i Hwf Hi) as (r & Hr & Hlen).
  unfold Matrix.get, Matrix.set. simpl. rewrite !nth_lookup.
  rewrite list_lookup_alter.
  destruct (decide (i = i')) as [<-|Hne].
  - rewrite Hr. simpl. rewrite list_lookup_insert.
    destruct (decide (j = j')) as [<-|Hnj].
    + rewrite !decide_True by (split; [done|lia]). done.
    + rewrite decide_False by tauto. rewrite (decide_False (P := i = i /\ j' = j)) by (intros [_ ?]; congruence). done.
  - rewrite decide_False by (intros [? _]; congruence). done.
Qed.

Lemma filled_init m0 g : wf m0 -> filled m0 m0 (fun _ _ => False) g.
Proof. intros H. do 3 (split; [done|]). intros i j. split; [done|by intros]. Qed.

Lemma filled_iff m m0 W W' g :
  (forall i j, W i j <-> W' i j) -> filled m m0 W g -> filled m m0 W' g.
Proof.
  intros HW (Hwf & Hr & Hc & Hg). do 3 (split; [done|]). intros i j. split.
  - intros Hw. apply Hg. by apply HW.
  - intros Hw. apply Hg. by rewrite HW.
Qed.

Lemma filled_set m m0 W g i j v :
  filled m m0 W g ->
  (i < Matrix.rows m0)%nat -> (j < Matrix.cols m0)%nat -> v = g i j ->
  filled (Matrix.set m i j v) m0 (fun i' j' => W i' j' \/ (i' = i /\ j' = j)) g.
Proof.
  intros (Hwf & Hr & Hc & Hg) Hi Hj ->.
  split; [by apply wf_set|]. split; [done|]. split; [done|].
  intros i' j'. rewrite get_set by (done || lia).
  destruct (decide (i' = i /\ j' = j)) as [[-> ->]|Hne].
  - split; [done|]. intros []. by right.
  - split.
    + intros [Hw|?]; [|done]. by apply Hg.
    + intros Hn. apply Hg. tauto.
Qed.

Lemma filled_For (lo hi : nat) (r c : nat -> nat) (v : nat -> R) g W m m0 :
  (lo <= hi)%nat ->
  filled m m0 W g ->
  (forall j, (lo <= j < hi)%nat ->
     (r j < Matrix.rows m0)%nat /\ (c j < Matrix.cols m0)%nat /\ v j = g (r j) (c j)) ->
  filled (For lo hi (fun j m => Matrix.set m (r j) (c j) (v j)) m) m0
    (fun i' j' => W i' j' \/ exists j, (lo <= j < hi)%nat /\ r j = i' /\ c j = j') g.
Proof.
  intros Hle H0 Hb.
  apply (For_ind (fun k m' => filled m' m0
     (fun i' j' => W i' j' \/ exists j, (lo <= j < k)%nat /\ r j = i' /\ c j = j') g));
    [done| |].
  - eapply filled_iff; [|exact H0]. intros i j. split; [tauto|].
    intros [?|(k & ? & _)]; [done|lia].
  - intros k m' Hk Hm'. destruct (Hb k Hk) as (Hr & Hc & Hv).
    eapply filled_iff; [|apply (filled_set _ _ _ _ (r k) (c k) (v k) Hm' Hr Hc Hv)].
    intros i j. split.
    + intros [[?|(k' & ? & ? & ?)]|[-> ->]].
      * by left.
      * right. exists k'. split; [lia|done].
      * right. exists k. split; [lia|done].
    + intros [?|(k' & Hk' & <- & <-)]; [by left; left|].
      destruct (decide (k' = k)) as [->|]; [by right|].
      left. right. exists k'. split; [lia|done].
Qed.

Lemma filled_For2 (a b : nat) (ri ci : nat -> nat -> nat) (f : nat -> nat -> R)
    g W m m0 :
  filled m m0 W g ->
  (forall i j, (i < a)%nat -> (j < b)%nat ->
     (ri i j < Matrix.rows m0)%nat /\ (ci i j < Matrix.cols m0)%nat
     /\ f i j = g (ri i j) (ci i j)) ->
  filled (For 0 a (fun i m =>
            For 0 b (fun j m => Matrix.set m (ri i j) (ci i j) (f i j)) m) m) m0
    (fun i' j' => W i' j' \/ exists i j, (i < a)%nat /\ (j < b)%nat
                                         /\ ri i j = i' /\ ci i j = j') g.
Proof.
  intros H0 Hb.
  apply (For_ind (fun k m' => filled m' m0
     (fun i' j' => W i' j' \/ exists i j, (i < k)%nat /\ (j < b)%nat
                                         /\ ri i j = i' /\ ci i j = j') g));
    [lia| |].
  - eapply filled_iff; [|exact H0]. intros i j. split; [tauto|].
    intros [?|(k & ? & ? & _)]; [done|lia].
  - intros k m' Hk Hm'.
    eapply filled_iff;
      [|apply (filled_For 0 b (ri k) (ci k) (f k) g _ m' m0 ltac:(lia) Hm')].
    + intros i j. split.
      * intros [[?|(i' & j' & ? & ? & ? & ?)]|(j' & ? & ? & ?)].
        -- by left.
        -- right. exists i', j'. repeat split; (done || lia).
        -- right. exists k, j'. repeat split; (done || lia).
      * intros [?|(i' & j' & Hi' & Hj' & <- & <-)]; [by left; left|].
        destruct (decide (i' = k)) as [->|].
        -- right. exists j'. repeat split; (done || lia).
        -- left. right. exists i', j'. repeat split; (done || lia).
    + intros j Hj. apply Hb; lia.
Qed.

(** Two well-formed matrices with the same entries are equal. *)
Lemma matrix_ext (m1 m2 : Matrix.t) :
  wf m1 -> wf m2 ->
  Matrix.rows m1 = Matrix.rows m2 -> Matrix.cols m1 = Matrix.cols m2 ->
  (forall i j, (i < Matrix.rows m1)%nat -> (j < Matrix.cols m1)%nat ->
     Matrix.get m1 i j = Matrix.get m2 i j) ->
  m1 = m2.
Proof.
  destruct m1 as [r1 c1 d1], m2 as [r2 c2 d2]. unfold wf. simpl.
  intros [Hl1 Hr1] [Hl2 Hr2] -> -> Hg. f_equal.
  apply list_eq_same_length with r2; [done|done|].
  intros i x y Hi Hx Hy.
  rewrite Forall_lookup in Hr1, Hr2.
  apply list_eq_same_length with c2; [by eapply Hr2|by eapply Hr1|].
  intros j u w Hj Hu Hw. specialize (Hg i j Hi Hj).
  unfold Matrix.get in Hg. simpl in Hg.
  rewrite !nth_lookup, Hx, Hy in Hg. simpl in Hg.
  rewrite Hu, Hw in Hg. done.
Qed.

Lemma transpose_spec (m : Matrix.t) :
  wf m ->
  wf (Matrix.transpose m)
  /\ Matrix.rows (Matrix.transpose m) = Matrix.cols m
  /\ Matrix.cols (Matrix.transpose m) = Matrix.rows m
  /\ forall i j, (i < Matrix.cols m)%nat -> (j < Matrix.rows m)%nat ->
       Matrix.get (Matrix.transpose m) i j = Matrix.get m j i.
Proof.
  intros Hwf. unfold Matrix.transpose.
  destruct (filled_For2 (Matrix.rows m) (Matrix.cols m) (fun i j => j) (fun i j => i)
              (fun i j => Matrix.get m i j) (fun i j => Matrix.get m j i) _ _ _
              (filled_init (Matrix.new (Matrix.cols m) (Matrix.rows m) 0) _ (wf_new _ _ _)))
    as (Hw & Hr & Hc & Hg).
  - intros i j Hi Hj. simpl. done.
  - do 3 (split; [done|]). intros i j Hi Hj. apply Hg. right. by exists j, i.
Qed.

Lemma clone_eq (m : Matrix.t) : wf m -> Matrix.clone m = m.
Proof.
  intros Hwf. unfold Matrix.clone.
  destruct (filled_For2 (Matrix.rows m) (Matrix.cols m) (fun i j => i) (fun i j => j)
              (fun i j => Matrix.get m i j) (fun i j => Matrix.get m i j) _ _ _
              (filled_init (Matrix.new (Matrix.rows m) (Matrix.cols m) 0) _ (wf_new _ _ _)))
    as (Hw & Hr & Hc & Hg).
  - intros i j Hi Hj. simpl. done.
  - apply matrix_ext; try done. intros i j Hi Hj. apply Hg. right. exists i, j.
    simpl in *. repeat split; (done || lia).
Qed.

Lemma multiply_spec (a b : Matrix.t) :
  wf a -> wf b -> Matrix.cols a = Matrix.rows b ->
  exists m, Matrix.multiply a b = Ok m /\ wf m
    /\ Matrix.rows m = Matrix.rows a /\ Matrix.cols m = Matrix.cols b
    /\ forall i j, (i < Matrix.rows a)%nat -> (j < Matrix.cols b)%nat ->
         Matrix.get m i j
         = Rsum (Matrix.cols a) (fun k => Matrix.get a i k * Matrix.get b k j).
Proof.
  intros Ha Hb Hab. unfold Matrix.multiply.
  rewrite Hab, Nat.eqb_refl. simpl. eexists. split; [done|].
  destruct (filled_For2 (Matrix.rows a) (Matrix.cols b) (fun i j => i) (fun i j => j)
              (fun i j => For 0 (Matrix.rows b)
                 (fun k sum => sum + Matrix.get a i k * Matrix.get b k j) 0)
              (fun i j => Rsum (Matrix.rows b)
                 (fun k => Matrix.get a i k * Matrix.get b k j)) _ _ _
              (filled_init (Matrix.new (Matrix.rows a) (Matrix.cols b) 0) _ (wf_new _ _ _)))
    as (Hw & Hr & Hc & Hg).
  - intros i j Hi Hj. simpl. do 2 (split; [done|]). apply For_sum.
  - do 3 (split; [done|]). intros i j Hi Hj. apply Hg. right. by exists i, j.
Qed.

Lemma subMatrix_spec (m : Matrix.t) (ri ci : list nat) :
  let s := Matrix.subMatrix m ri ci in
  wf s /\ Matrix.rows s = length ri /\ Matrix.cols s = length ci
  /\ forall i j, (i < length ri)%nat -> (j < length ci)%nat ->
       Matrix.get s i j = Matrix.get m (nth i ri O) (nth j ci O).
Proof.
  unfold Matrix.subMatrix.
  destruct (filled_For2 (length ri) (length ci) (fun i j => i) (fun i j => j)
              (fun i j => Matrix.get m (nth i ri O) (nth j ci O))
              (fun i j => Matrix.get m (nth i ri O) (nth j ci O)) _ _ _
              (filled_init (Matrix.new (length ri) (length ci) 0) _ (wf_new _ _ _)))
    as (Hw & Hr & Hc & Hg).
  - intros i j Hi Hj. simpl. done.
  - do 3 (split; [done|]). intros i j Hi Hj. apply Hg. right. by exists i, j.
Qed.

Lemma fromArray_spec (arr : list (list R)) :
  let m := Matrix.fromArray arr in
  wf m /\ Matrix.rows m = length arr /\ Matrix.cols m = length (nth 0 arr [])
  /\ forall i j, (i < length arr)%nat -> (j < length (nth 0 arr []))%nat ->
       Matrix.get m i j = nth j (nth i arr []) 0.
Proof.
  unfold Matrix.fromArray.
  destruct (filled_For2 (length arr) (length (nth 0 arr [])) (fun i j => i) (fun i j => j)
              (fun i j => nth j (nth i arr []) 0)
              (fun i j => nth j (nth i arr []) 0) _ _ _
              (filled_init (Matrix.new (length arr) (length (nth 0 arr [])) 0) _ (wf_new _ _ _)))
    as (Hw & Hr & Hc & Hg).
  - intros i j Hi Hj. simpl. done.
  - do 3 (split; [done|]). intros i j Hi Hj. apply Hg. right. by exists i, j.
Qed.

(** vectors *)
Lemma vget_insert (l : list R) (i j : nat) (v : R) :
  (i < length l)%nat ->
  vget (<[i := v]> l) j = if decide (j = i) then v else vget l j.
Proof.
  intros Hi. unfold vget. rewrite !nth_lookup, list_lookup_insert.
  destruct (decide (j = i)) as [->|Hne].
  - by rewrite decide_True.
  - rewrite decide_False; [done|]. intros [? _]. congruence.
Qed.

Lemma vget_insert_ne (l : list R) (i j : nat) (v : R) :
  j <> i -> vget (<[i := v]> l) j = vget l j.
Proof.
  intros Hne. unfold vget. rewrite !nth_lookup, list_lookup_insert_ne; done.
Qed.

Lemma vget_replicate (n i : nat) : vget (replicate n 0) i = 0.
Proof.
  unfold vget. rewrite nth_lookup.
  destruct (decide (i < n)%nat).
  - by rewrite lookup_replicate_2.
  - rewrite (proj1 (lookup_replicate_None n 0 i)); [done|lia].
Qed.

Lemma vget_ge (l : list R) (i : nat) : (length l <= i)%nat -> vget l i = 0.
Proof. intros H. unfold vget. by rewrite nth_overflow. Qed.

Lemma vec_ext (l1 l2 : list R) :
  length l1 = length l2 ->
  (forall i, (i < length l1)%nat -> vget l1 i = vget l2 i) -> l1 = l2.
Proof.
  intros Hl H. apply list_eq_same_length with (length l1); [done|done|].
  intros i x y Hi Hx Hy. specialize (H i Hi). unfold vget in H.
  rewrite !nth_lookup, Hx, Hy in H. done.
Qed.

Lemma length_vadd (v : list R) i d : length (vadd v i d) = length v.
Proof. unfold vadd. by rewrite length_insert. Qed.

Ltac for_ind P :=
  match goal with
  | |- context [For ?lo ?hi ?body ?s] => refine (For_ind P lo hi body s _ _ _)
  end.

Lemma multiplyVector_spec (m : Matrix.t) (vec : list R) :
  Matrix.cols m = length vec ->
  exists r, Matrix.multiplyVector m vec = Ok r /\ length r = Matrix.rows m
    /\ forall i, (i < Matrix.rows m)%nat -> vget r i = matVec (Matrix.cols m) m (vget vec) i.
Proof.
  intros Hc. unfold Matrix.multiplyVector. rewrite Hc, Nat.eqb_refl. simpl.
  eexists. split; [done|]. rewrite <- Hc.
  cut (let r := For 0 (Matrix.rows m) (fun i result =>
                  For 0 (Matrix.cols m) (fun j result =>
                    <[i := vget result i + Matrix.get m i j * vget vec j]> result)
                    result) (replicate (Matrix.rows m) 0) in
       length r = Matrix.rows m
       /\ (forall i, (i < Matrix.rows m)%nat ->
             vget r i = matVec (Matrix.cols m) m (vget vec) i)
       /\ (forall i, (Matrix.rows m <= i)%nat -> vget r i = 0)).
  { simpl. tauto. }
  simpl.
  for_ind (fun k r => length r = Matrix.rows m
     /\ (forall i, (i < k)%nat -> vget r i = matVec (Matrix.cols m) m (vget vec) i)
     /\ (forall i, (k <= i)%nat -> vget r i = 0)).
  - lia.
  - split; [by rewrite length_replicate|]. split; [lia|].
    intros i _. apply vget_replicate.
  - intros k r Hk (Hl & Hr & Hz).
    cut (let r' := For 0 (Matrix.cols m) (fun j result =>
                    <[k := vget result k + Matrix.get m k j * vget vec j]> result) r in
                  length r' = Matrix.rows m /\
                  vget r' k = vget r k + Rsum (Matrix.cols m) (fun j => Matrix.get m k j * vget vec j) /\
                  forall i, i <> k -> vget r' i = vget r i).
    { simpl. intros (Hl' & Hk' & Ho). split; [done|]. split.
      - intros i Hi. destruct (decide (i = k)) as [->|Hne].
        + rewrite Hk', Hz by lia. unfold matVec. lra.
        + rewrite Ho by done. apply Hr. lia.
      - intros i Hi. rewrite Ho by lia. apply Hz. lia. }
    simpl.
    for_ind (fun c r' => length r' = Matrix.rows m /\
                  vget r' k = vget r k + Rsum c (fun j => Matrix.get m k j * vget vec j) /\
                  forall i, i <> k -> vget r' i = vget r i).
    + lia.
    + split; [done|]. split; [simpl; lra|done].
    + intros c r' Hcc (Hl' & Hk' & Ho). split; [by rewrite length_insert|]. split.
      * rewrite vget_insert by lia. rewrite decide_True by done. simpl. rewrite Hk'. lra.
      * intros i Hi. rewrite vget_insert_ne by done. by apply Ho.
Qed.

(** ** The element *)

Lemma new_constructed member iN jN mat sec e :
  Member3DElement.new member iN jN mat sec = Ok e -> constructed e.
Proof.
  unfold Member3DElement.new. destruct (Rlt_dec _ _) as [|Hn]; [done|].
  intros [= <-]. split; simpl; done.
Qed.

Lemma new_fields member iN jN mat sec e :
  Member3DElement.new member iN jN mat sec = Ok e ->
  Member3DElement.id e = Member.id member
  /\ Member3DElement.iNode e = iN /\ Member3DElement.jNode e = jN.
Proof.
  unfold Member3DElement.new. destruct (Rlt_dec _ _) as [|Hn]; [done|].
  by intros [= <-].
Qed.

Lemma constructed_length_pos e : constructed e -> 0 < Member3DElement.length e.
Proof. intros [_ H]. lra. Qed.

Lemma createRotationMatrix_spec (iN jN : Node.t) (rot : R) :
  let dx := Node.x jN - Node.x iN in
  let dy := Node.y jN - Node.y iN in
  let dz := Node.z jN - Node.z iN in
  ~ sqrt (dx * dx + dy * dy + dz * dz) < 1e-10 ->
  exists Rm, createRotationMatrix iN jN rot = Ok Rm /\ wf Rm
    /\ Matrix.rows Rm = 3%nat /\ Matrix.cols Rm = 3%nat.
Proof.
  intros dx dy dz HL. unfold createRotationMatrix.
  fold dx dy dz. destruct (Rlt_dec _ _) as [|_]; [done|].
  match goal with
  | |- exists Rm, (let '(y, z) := ?c in Ok (Matrix.transpose (Matrix.fromArray [?x; y; z]))) = _ /\ _ =>
      assert (Hyz : exists y z, c = (y, z) /\ length y = 3%nat /\ length z = 3%nat)
  end.
  { destruct (Rgt_dec _ _); destruct (Rlt_dec _ _); try destruct (Rgt_dec _ _);
      eexists _, _; (split; [reflexivity|done]). }
  destruct Hyz as (y & z & -> & Hy & Hz).
  eexists. split; [done|].
  match goal with
  | |- wf (Matrix.transpose (Matrix.fromArray ?arr)) /\ _ =>
      destruct (fromArray_spec arr) as (Hw & Hr & Hc & _)
  end.
  destruct (transpose_spec _ Hw) as (Hw' & Hr' & Hc' & _).
  split; [done|]. split; [by rewrite Hr', Hc|by rewrite Hc', Hr].
Qed.

Lemma get_zeros r c i j : Matrix.get (Matrix.zeros r c) i j = 0.
Proof.
  unfold Matrix.get, Matrix.zeros, Matrix.new. simpl.
  rewrite !nth_lookup.
  destruct (replicate r (replicate c 0) !! i) as [row|] eqn:Hrow; simpl; [|done].
  apply lookup_replicate in Hrow as [-> _].
  destruct (replicate c 0 !! j) as [v|] eqn:Hv; simpl; [|done].
  by apply lookup_replicate in Hv as [-> _].
Qed.

Lemma mod3_offset (b i : nat) : (i < 3)%nat -> ((b * 3 + i) mod 3 = i)%nat.
Proof.
  intros H. rewrite Nat.add_comm, Nat.Div0.mod_add. by apply Nat.mod_small.
Qed.

Lemma div3_offset (b i : nat) : (i < 3)%nat -> ((b * 3 + i) / 3 = b)%nat.
Proof.
  intros H. rewrite Nat.add_comm, Nat.div_add by lia.
  rewrite Nat.div_small by lia. done.
Qed.

Lemma createTransformationMatrix_spec (iN jN : Node.t) (rot : R) :
  let dx := Node.x jN - Node.x iN in
  let dy := Node.y jN - Node.y iN in
  let dz := Node.z jN - Node.z iN in
  ~ sqrt (dx * dx + dy * dy + dz * dz) < 1e-10 ->
  exists Rm T, createRotationMatrix iN jN rot = Ok Rm
    /\ createTransformationMatrix iN jN rot = Ok T
    /\ wf T /\ Matrix.rows T = 12%nat /\ Matrix.cols T = 12%nat
    /\ blockDiag T Rm.
Proof.
  intros dx dy dz HL.
  destruct (createRotationMatrix_spec iN jN rot HL) as (Rm & HR & HwR & HrR & HcR).
  exists Rm. unfold createTransformationMatrix. rewrite HR. simpl.
  eexists. split; [done|]. split; [done|].
  set (g := fun i j : nat => Matrix.get Rm (i mod 3) (j mod 3)).
  cut (filled
         (For 0 4 (fun block T =>
            For 0 3 (fun i T =>
              For 0 3 (fun j T =>
                Matrix.set T (block * 3 + i) (block * 3 + j) (Matrix.get Rm i j)) T) T)
            (Matrix.zeros 12 12))
         (Matrix.zeros 12 12)
         (fun i j => exists b i' j', (b < 4)%nat /\ (i' < 3)%nat /\ (j' < 3)%nat
                                   /\ (b * 3 + i')%nat = i /\ (b * 3 + j')%nat = j) g).
  { intros (Hw & Hr & Hc & Hg). do 3 (split; [done|]).
    intros i j Hi Hj. destruct (decide (i / 3 = j / 3)%nat) as [Heq|Hne].
    - apply Hg. exists (i / 3)%nat, (i mod 3)%nat, (j mod 3)%nat.
      pose proof (Nat.mod_upper_bound i 3). pose proof (Nat.mod_upper_bound j 3).
      pose proof (Nat.div_mod_eq i 3). pose proof (Nat.div_mod_eq j 3).
      assert (i / 3 < 4)%nat by (apply Nat.Div0.div_lt_upper_bound; lia).
      repeat split; lia.
    - rewrite (proj2 (Hg i j)); [apply get_zeros|].
      intros (b & i' & j' & Hb & Hi' & Hj' & <- & <-).
      apply Hne. by rewrite !div3_offset. }
  for_ind (fun k T => filled T (Matrix.zeros 12 12)
     (fun i j => exists b i' j', (b < k)%nat /\ (i' < 3)%nat /\ (j' < 3)%nat
                               /\ (b * 3 + i')%nat = i /\ (b * 3 + j')%nat = j) g).
  - lia.
  - eapply filled_iff; [|apply filled_init, wf_new].
    intros i j. split; [done|]. intros (b & _ & _ & ? & _). lia.
  - intros k T Hk HT.
    eapply filled_iff;
      [|apply (filled_For2 3 3 (fun i j => (k * 3 + i)%nat) (fun i j => (k * 3 + j)%nat)
                 (fun i j => Matrix.get Rm i j) g _ T _ HT)].
    + intros i j. split.
      * intros [(b & i' & j' & ? & ? & ? & ? & ?)|(i' & j' & ? & ? & ? & ?)].
        -- exists b, i', j'. repeat split; (done || lia).
        -- exists k, i', j'. repeat split; (done || lia).
      * intros (b & i' & j' & Hb & Hi' & Hj' & <- & <-).
        destruct (decide (b = k)) as [->|].
        -- right. by exists i', j'.
        -- left. exists b, i', j'. repeat split; (done || lia).
    + intros i j Hi Hj. simpl. split; [lia|]. split; [lia|].
      unfold g. by rewrite !mod3_offset.
Qed.

Lemma transformationMatrix_spec (e : Member3DElement.t) :
  constructed e ->
  exists Rm T, Member3DElement.transformationMatrix e = Ok T
    /\ wf T /\ Matrix.rows T = 12%nat /\ Matrix.cols T = 12%nat
    /\ blockDiag T Rm.
Proof.
  intros [HL Hn]. rewrite HL in Hn.
  destruct (createTransformationMatrix_spec _ _ (Member3DElement.rotation e) Hn)
    as (Rm & T & _ & HT & H).
  by exists Rm, T.
Qed.

(** The local stiffness matrix, written out. *)
Lemma localStiffnessMatrix_wf (e : Member3DElement.t) :
  wf (Member3DElement.localStiffnessMatrix e)
  /\ Matrix.rows (Member3DElement.localStiffnessMatrix e) = 12%nat
  /\ Matrix.cols (Member3DElement.localStiffnessMatrix e) = 12%nat.
Proof.
  split; [|done]. split; [done|].
  unfold Member3DElement.localStiffnessMatrix. simpl.
  repeat (apply Forall_cons; split; [done|]). apply Forall_nil_2.
Qed.

Tactic Notation "below" ident(i) :=
  repeat (try (exfalso; lia); destruct i as [|i]).

Lemma localStiffnessMatrix_sym (e : Member3DElement.t) (i j : nat) :
  (i < 12)%nat -> (j < 12)%nat ->
  Matrix.get (Member3DElement.localStiffnessMatrix e) i j
  = Matrix.get (Member3DElement.localStiffnessMatrix e) j i.
Proof.
  intros Hi Hj. below i; below j; reflexivity.
Qed.

(** The translational rows of the two ends cancel. *)
Lemma localStiffnessMatrix_rows (e : Member3DElement.t) (k l : nat) :
  (k < 3)%nat -> (l < 12)%nat ->
  Matrix.get (Member3DElement.localStiffnessMatrix e) k l
  + Matrix.get (Member3DElement.localStiffnessMatrix e) (k + 6) l = 0.
Proof.
  intros Hk Hl.
  below k; below l; unfold Matrix.get; simpl; lra.
Qed.

Lemma globalStiffnessMatrix_spec (e : Member3DElement.t) :
  constructed e ->
  exists Rm T kG, Member3DElement.transformationMatrix e = Ok T
    /\ wf T /\ Matrix.rows T = 12%nat /\ Matrix.cols T = 12%nat
    /\ blockDiag T Rm
    /\ Member3DElement.globalStiffnessMatrix e = Ok kG
    /\ wf kG /\ Matrix.rows kG = 12%nat /\ Matrix.cols kG = 12%nat
    /\ forall i j, (i < 12)%nat -> (j < 12)%nat ->
         Matrix.get kG i j
         = tripleProduct T (Member3DElement.localStiffnessMatrix e) i j.
Proof.
  intros He.
  destruct (transformationMatrix_spec e He) as (Rm & T & HT & HwT & HrT & HcT & Hb).
  destruct (localStiffnessMatrix_wf e) as (HwK & HrK & HcK).
  destruct (transpose_spec T HwT) as (HwTt & HrTt & HcTt & HgTt).
  destruct (multiply_spec (Matrix.transpose T) (Member3DElement.localStiffnessMatrix e)
              HwTt HwK) as (TtK & HTtK & HwTtK & HrTtK & HcTtK & HgTtK); [congruence|].
  destruct (multiply_spec TtK T HwTtK HwT) as (kG & HkG & HwkG & HrkG & HckG & HgkG);
    [congruence|].
  exists Rm, T, kG. do 5 (split; [done|]).
  split. { unfold Member3DElement.globalStiffnessMatrix. rewrite HT. simpl.
           rewrite HTtK. simpl. done. }
  split; [done|]. split; [congruence|]. split; [congruence|].
  intros i j Hi Hj. rewrite HgkG by lia. unfold tripleProduct.
  rewrite HcTtK, HcK. apply Rsum_ext. intros l Hl. f_equal.
  rewrite HgTtK by lia. rewrite HcTt, HrT. apply Rsum_ext. intros k Hk.
  rewrite HgTt by lia. done.
Qed.

Lemma length_addUniformLoadFER fer dir w x1 x2 L :
  length (Member3DElement.addUniformLoadFER fer dir w x1 x2 L) = length fer.
Proof.
  unfold Member3DElement.addUniformLoadFER.
  destruct (_ && _); destruct dir; rewrite ?length_vadd; done.
Qed.

Lemma length_addPointLoadFER fer dir P a L :
  length (Member3DElement.addPointLoadFER fer dir P a L) = length fer.
Proof.
  unfold Member3DElement.addPointLoadFER.
  destruct dir; rewrite ?length_vadd; done.
Qed.

Lemma length_accumulateLoad e load fer :
  length (Member3DElement.accumulateLoad e load fer) = length fer.
Proof.
  unfold Member3DElement.accumulateLoad.
  destruct (negb _); [done|]. destruct (MemberLoad.type load); [| |done].
  - destruct (Rlt_dec _ _); unfold Member3DElement.addLinearLoadFER;
      rewrite ?length_addUniformLoadFER; done.
  - apply length_addPointLoadFER.
Qed.

Lemma length_localFER e loads : length (Member3DElement.localFER e loads) = 12%nat.
Proof.
  unfold Member3DElement.localFER, ForOf.
  assert (H : forall fer, length fer = 12%nat ->
    length (foldl (fun s v => Member3DElement.accumulateLoad e v s) fer loads) = 12%nat).
  { induction loads as [|l loads IH]; intros fer Hf; [done|].
    simpl. apply IH. by rewrite length_accumulateLoad. }
  by apply H.
Qed.

(** A list of numbers as a column: [Matrix.fromArray([v]).transpose()]. *)
Lemma column_spec (v : list R) :
  let c := Matrix.transpose (Matrix.fromArray [v]) in
  wf c /\ Matrix.rows c = length v /\ Matrix.cols c = 1%nat
  /\ forall i, (i < length v)%nat -> Matrix.get c i 0 = vget v i.
Proof.
  destruct (fromArray_spec [v]) as (Hw & Hr & Hc & Hg). simpl in Hr, Hc, Hg.
  destruct (transpose_spec _ Hw) as (Hw' & Hr' & Hc' & Hg').
  simpl. split; [done|]. split; [congruence|]. split; [congruence|].
  intros i Hi. rewrite Hg' by lia. rewrite Hg by lia. done.
Qed.

Lemma multiply_column (M : Matrix.t) (v : list R) :
  wf M -> Matrix.cols M = length v ->
  exists c, Matrix.multiply M (Matrix.transpose (Matrix.fromArray [v])) = Ok c
    /\ wf c /\ Matrix.rows c = Matrix.rows M /\ Matrix.cols c = 1%nat
    /\ forall i, (i < Matrix.rows M)%nat ->
         Matrix.get c i 0 = matVec (Matrix.cols M) M (vget v) i.
Proof.
  intros HwM Hc. destruct (column_spec v) as (Hw & Hr & Hc1 & Hg). simpl in *.
  destruct (multiply_spec M _ HwM Hw) as (c & Hm & Hwc & Hrc & Hcc & Hgc); [congruence|].
  exists c. split; [done|]. split; [done|]. split; [done|]. split; [congruence|].
  intros i Hi. rewrite Hgc by lia. unfold matVec. apply Rsum_ext.
  intros k Hk. rewrite Hg by lia. done.
Qed.

(** [fixedEndReactions] does not throw: it is [T^t] applied to the local
    vector. *)
Lemma fixedEndReactions_spec (e : Member3DElement.t) (loads : list MemberLoad.t) :
  constructed e ->
  exists Rm T, Member3DElement.transformationMatrix e = Ok T
    /\ wf T /\ Matrix.rows T = 12%nat /\ Matrix.cols T = 12%nat
    /\ blockDiag T Rm
    /\ Member3DElement.fixedEndReactions e loads
       = Ok (map (matVec 12 (Matrix.transpose T)
                    (vget (Member3DElement.localFER e loads))) (seq 0 12)).
Proof.
  intros He.
  destruct (transformationMatrix_spec e He) as (Rm & T & HT & HwT & HrT & HcT & Hb).
  exists Rm, T. do 5 (split; [done|]).
  unfold Member3DElement.fixedEndReactions. rewrite HT. cbn [bind].
  destruct (transpose_spec T HwT) as (HwTt & HrTt & HcTt & HgTt).
  destruct (multiply_column (Matrix.transpose T) (Member3DElement.localFER e loads) HwTt)
    as (c & Hm & Hwc & Hrc & Hcc & Hgc).
  { rewrite HcTt, HrT. by rewrite length_localFER. }
  rewrite Hm. cbn [bind]. f_equal. apply map_ext_in. intros i Hi.
  apply in_seq in Hi. rewrite Hgc by lia. by rewrite HcTt, HrT.
Qed.

Lemma computeMemberForces_eq (e : Member3DElement.t) (d : list R) :
  constructed e -> length d = 12%nat ->
  exists T, Member3DElement.transformationMatrix e = Ok T
    /\ wf T /\ Matrix.rows T = 12%nat /\ Matrix.cols T = 12%nat
    /\ forall loads numPoints,
         Member3DElement.computeMemberForces e d loads numPoints
         = Ok (map (interpolatedSample (Member3DElement.length e)
                      (localEndForces (Member3DElement.localStiffnessMatrix e) T d)
                      numPoints)
                 (seq 0 (numPoints + 1))).
Proof.
  intros He Hd.
  destruct (transformationMatrix_spec e He) as (Rm & T & HT & HwT & HrT & HcT & Hb).
  exists T. do 4 (split; [done|]). intros loads numPoints.
  unfold Member3DElement.computeMemberForces. rewrite HT. cbn [bind].
  destruct (multiply_column T d HwT) as (dL & HdL & HwdL & HrdL & HcdL & HgdL);
    [congruence|].
  rewrite HdL. cbn [bind].
  destruct (localStiffnessMatrix_wf e) as (HwK & HrK & HcK).
  destruct (multiply_spec (Member3DElement.localStiffnessMatrix e) dL HwK HwdL)
    as (fL & HfL & HwfL & HrfL & HcfL & HgfL); [congruence|].
  rewrite HfL. cbn [bind].
  destruct (fixedEndReactions_spec e loads He) as (Rm' & T' & HT' & _ & _ & _ & _ & Hfer).
  rewrite HT in HT'. injection HT' as <-. rewrite Hfer. cbn [bind].
  match goal with
  | |- context [Matrix.multiply T (Matrix.transpose (Matrix.fromArray [?v]))] =>
      destruct (multiply_column T v HwT) as (fT & HfT & _)
  end.
  { rewrite HcT. by rewrite length_map, length_seq. }
  rewrite HfT. cbn [bind]. f_equal.
  rewrite (For_push (numPoints + 1)). apply map_ext. intros i.
  unfold interpolatedSample. cbn [map seq].
  assert (Hf : forall k, (k < 12)%nat ->
            Matrix.get fL k 0
            = localEndForces (Member3DElement.localStiffnessMatrix e) T d k).
  { intros k Hk. rewrite HgfL by lia. unfold localEndForces, matVec.
    rewrite HcK. apply Rsum_ext. intros l Hl. f_equal.
    rewrite HgdL by lia. by rewrite HcT. }
  rewrite !Hf by lia. f_equal.
  repeat (apply (f_equal2 cons); [simpl; ring|]). done.
Qed.

(** ** Sampled member forces *)

(** C1: for an element built by the constructor, twelve nodal displacements
    [d] and [numPoints >= 1], [computeMemberForces] returns [numPoints + 1]
    samples; sample [i] is at [x_i = (i / numPoints) * L] and each of its six
    components is [(1 - x_i / L) * f k + (x_i / L) * f (k + 6)] for the local
    end forces [f = K_local * (T * d)]; the samples are the same for any two
    lists of member loads. *)
Theorem computeMemberForces_interpolates
    (member : Member.t) (iNode jNode : Node.t) (material : Material.t)
    (section : Section_.t) (e : Member3DElement.t) (d : list R)
    (loads loads' : list MemberLoad.t) (numPoints : nat) :
  Member3DElement.new member iNode jNode material section = Ok e ->
  length d = 12%nat ->
  (1 <= numPoints)%nat ->
  exists T samples,
    Member3DElement.transformationMatrix e = Ok T
    /\ Member3DElement.computeMemberForces e d loads numPoints = Ok samples
    /\ length samples = (numPoints + 1)%nat
    /\ (forall i, (i <= numPoints)%nat ->
          samples !! i
          = Some (interpolatedSample (Member3DElement.length e)
                    (localEndForces (Member3DElement.localStiffnessMatrix e) T d)
                    numPoints i))
    /\ Member3DElement.computeMemberForces e d loads' numPoints = Ok samples.
Proof.
  intros Hnew Hd Hn. apply new_constructed in Hnew.
  destruct (computeMemberForces_eq e d Hnew Hd) as (T & HT & _ & _ & _ & Hc).
  exists T. eexists. split; [done|]. split; [apply Hc|].
  split; [by rewrite length_map, length_seq|]. split; [|apply Hc].
  intros i Hi. rewrite list_lookup_fmap, lookup_seq_lt by lia. done.
Qed.

(** A unit member along the global X axis. *)
Lemma sqrt_unit_x : sqrt ((1 - 0) * (1 - 0) + (0 - 0) * (0 - 0) + (0 - 0) * (0 - 0)) = 1.
Proof.
  replace ((1 - 0) * (1 - 0) + (0 - 0) * (0 - 0) + (0 - 0) * (0 - 0)) with 1 by ring.
  apply sqrt_1.
Qed.

Lemma new_unit_x (member : Member.t) (material : Material.t) (section : Section_.t)
    (a b : string) :
  Member3DElement.new member (Node.mk a 0 0 0) (Node.mk b 1 0 0) material section
  = Ok (Member3DElement.mk (Member.id member) (Node.mk a 0 0 0) (Node.mk b 1 0 0)
          material section (orElse (Member.rotation member) 0)
          (sqrt ((1 - 0) * (1 - 0) + (0 - 0) * (0 - 0) + (0 - 0) * (0 - 0)))).
Proof.
  unfold Member3DElement.new. simpl.
  destruct (Rlt_dec _ _) as [Hlt|_]; [|done].
  rewrite sqrt_unit_x in Hlt. lra.
Qed.

(** The interpolation on a unit member along X, for two samples, zero
    displacements and the member-load lists with no load and with one point
    load. *)
Lemma computeMemberForces_interpolates_witness :
  let member := Member.mk "M1" "N1" "N2" "Steel" "Default" None in
  let material := Material.mk "Steel" 1 1 0 0 in
  let section := Section_.mk "Default" 1 1 1 1 in
  let e := Member3DElement.mk "M1" (Node.mk "N1" 0 0 0) (Node.mk "N2" 1 0 0)
             material section (orElse None 0)
             (sqrt ((1 - 0) * (1 - 0) + (0 - 0) * (0 - 0) + (0 - 0) * (0 - 0))) in
  let d := replicate 12 0 in
  let load := MemberLoad.mk "M1" point FY (Some 1) None None None None None in
  exists T samples,
    Member3DElement.transformationMatrix e = Ok T
    /\ Member3DElement.computeMemberForces e d [] 1 = Ok samples
    /\ length samples = (1 + 1)%nat
    /\ (forall i, (i <= 1)%nat ->
          samples !! i
          = Some (interpolatedSample (Member3DElement.length e)
                    (localEndForces (Member3DElement.localStiffnessMatrix e) T d)
                    1 i))
    /\ Member3DElement.computeMemberForces e d [load] 1 = Ok samples.
Proof.
  intros member material section e d load.
  apply (computeMemberForces_interpolates member (Node.mk "N1" 0 0 0)
           (Node.mk "N2" 1 0 0) material section e d [] [load] 1).
  - apply (new_unit_x member material section).
  - reflexivity.
  - lia.
Defined.

(** ** Fixed-end reactions *)

Lemma orElse_zero (d : R) : orElse (Some 0) d = d.
Proof. unfold orElse. by destruct (Req_dec_T 0 0). Qed.

Lemma orElse_nonzero (v d : R) : v <> 0 -> orElse (Some v) d = v.
Proof. intros H. unfold orElse. by destruct (Req_dec_T v 0). Qed.

Lemma localFER_app e before after :
  Member3DElement.localFER e (before ++ after)
  = ForOf after (Member3DElement.accumulateLoad e) (Member3DElement.localFER e before).
Proof. unfold Member3DElement.localFER, ForOf. by rewrite foldl_app. Qed.

(** [fixedEndReactions] reads the loads through the local vector only. *)
Lemma fixedEndReactions_localFER e loads loads' :
  Member3DElement.localFER e loads = Member3DElement.localFER e loads' ->
  Member3DElement.fixedEndReactions e loads = Member3DElement.fixedEndReactions e loads'.
Proof. intros H. unfold Member3DElement.fixedEndReactions. by rewrite H. Qed.

Lemma localFER_congr e before load load' after :
  (forall fer, Member3DElement.accumulateLoad e load fer
               = Member3DElement.accumulateLoad e load' fer) ->
  Member3DElement.localFER e (before ++ load :: after)
  = Member3DElement.localFER e (before ++ load' :: after).
Proof.
  intros H. rewrite !localFER_app. unfold ForOf. simpl. by rewrite H.
Qed.

(** C10: a point load whose position [x] is [0] or missing is placed at
    mid-span: the local position handed to [addPointLoadFER] is [0.5 * L], and
    the fixed-end reactions are those of the same load at [x = 0.5]. *)
Theorem point_load_at_zero_is_midspan
    (e : Member3DElement.t) (load : MemberLoad.t)
    (before after : list MemberLoad.t) :
  MemberLoad.type load = point ->
  MemberLoad.x load = Some 0 \/ MemberLoad.x load = None ->
  (forall fer,
     Member3DElement.accumulateLoad e load fer
     = if negb (String.eqb (MemberLoad.member load) (Member3DElement.id e))
       then fer
       else Member3DElement.addPointLoadFER fer
              (toUpperCase (MemberLoad.direction load))
              (orElse (MemberLoad.magnitude load) 0)
              (0.5 * Member3DElement.length e) (Member3DElement.length e))
  /\ Member3DElement.fixedEndReactions e (before ++ load :: after)
     = Member3DElement.fixedEndReactions e (before ++ withX load (Some 0.5) :: after).
Proof.
  intros Hty Hx.
  assert (Hor : orElse (MemberLoad.x load) 0.5 = 0.5).
  { destruct Hx as [-> | ->]; [apply orElse_zero|done]. }
  assert (Hacc : forall fer,
     Member3DElement.accumulateLoad e load fer
     = if negb (String.eqb (MemberLoad.member load) (Member3DElement.id e))
       then fer
       else Member3DElement.addPointLoadFER fer
              (toUpperCase (MemberLoad.direction load))
              (orElse (MemberLoad.magnitude load) 0)
              (0.5 * Member3DElement.length e) (Member3DElement.length e)).
  { intros fer. unfold Member3DElement.accumulateLoad. by rewrite Hty, Hor. }
  split; [exact Hacc|].
  apply fixedEndReactions_localFER, localFER_congr. intros fer.
  rewrite Hacc. unfold Member3DElement.accumulateLoad, withX.
  cbn [MemberLoad.member MemberLoad.type MemberLoad.direction
       MemberLoad.magnitude MemberLoad.x].
  rewrite Hty, orElse_nonzero by lra. done.
Qed.

(** A point load [FY = 1] at [x = 0] on a unit member is placed at
    mid-span. *)
Lemma point_load_at_zero_is_midspan_witness :
  let e := Member3DElement.mk "M1" (Node.mk "N1" 0 0 0) (Node.mk "N2" 1 0 0)
             (Material.mk "Steel" 1 1 0 0) (Section_.mk "Default" 1 1 1 1) 0 1 in
  let load := MemberLoad.mk "M1" point FY (Some 1) None None None None (Some 0) in
  (forall fer,
     Member3DElement.accumulateLoad e load fer
     = if negb (String.eqb (MemberLoad.member load) (Member3DElement.id e))
       then fer
       else Member3DElement.addPointLoadFER fer
              (toUpperCase (MemberLoad.direction load))
              (orElse (MemberLoad.magnitude load) 0)
              (0.5 * Member3DElement.length e) (Member3DElement.length e))
  /\ Member3DElement.fixedEndReactions e ([] ++ load :: [])
     = Member3DElement.fixedEndReactions e ([] ++ withX load (Some 0.5) :: []).
Proof.
  intros e load.
  apply (point_load_at_zero_is_midspan e load [] []).
  - reflexivity.
  - left. reflexivity.
Defined.

(** A load of type [moment] leaves the local vector as it is. *)
Lemma accumulateLoad_moment e load fer :
  MemberLoad.type load = moment ->
  Member3DElement.accumulateLoad e load fer = fer.
Proof.
  intros H. unfold Member3DElement.accumulateLoad. rewrite H. by destruct (negb _).
Qed.

Lemma fixedEndReactions_moment_ignored e load before after :
  MemberLoad.type load = moment ->
  Member3DElement.fixedEndReactions e (before ++ load :: after)
  = Member3DElement.fixedEndReactions e (before ++ after).
Proof.
  intros H. apply fixedEndReactions_localFER. rewrite !localFER_app.
  unfold ForOf. simpl. by rewrite accumulateLoad_moment.
Qed.

Lemma fixedEndReactions_no_load e :
  constructed e ->
  Member3DElement.fixedEndReactions e [] = Ok (replicate 12 0).
Proof.
  intros He.
  destruct (fixedEndReactions_spec e [] He) as (Rm & T & _ & _ & _ & _ & _ & ->).
  f_equal. change (replicate 12 0) with (map (fun _ : nat => 0) (seq 0 12)).
  apply map_ext. intros i. unfold matVec. apply Rsum_zero. intros k Hk.
  unfold Member3DElement.localFER, ForOf. cbn [foldl]. rewrite vget_replicate. lra.
Qed.

(** C3, at a moment [MZ = 1] applied at mid-span of a unit member: the
    fixed-end reactions are all zero, as if the member carried no load, while
    the moment formulas of [addPointLoadFER] give the local shear entry
    [6 * P * a * b / L^3 = 1.5]. *)
Theorem fixedEndReactions_moment_load_dropped :
  let e := Member3DElement.mk "M1" (Node.mk "N1" 0 0 0) (Node.mk "N2" 1 0 0)
             (Material.mk "Steel" 1 1 0 0) (Section_.mk "Default" 1 1 1 1) 0
             (sqrt ((1 - 0) * (1 - 0) + (0 - 0) * (0 - 0) + (0 - 0) * (0 - 0))) in
  let load := MemberLoad.mk "M1" moment MZ (Some 1) None None None None (Some 0.5) in
  Member3DElement.new (Member.mk "M1" "N1" "N2" "Steel" "Default" None)
    (Node.mk "N1" 0 0 0) (Node.mk "N2" 1 0 0)
    (Material.mk "Steel" 1 1 0 0) (Section_.mk "Default" 1 1 1 1) = Ok e
  /\ Member3DElement.fixedEndReactions e [load] = Ok (replicate 12 0)
  /\ Member3DElement.fixedEndReactions e [load] = Member3DElement.fixedEndReactions e []
  /\ vget (Member3DElement.addPointLoadFER (replicate 12 0) MZ 1
             (0.5 * Member3DElement.length e) (Member3DElement.length e)) 1 = 1.5.
Proof.
  intros e load.
  assert (Hnew : Member3DElement.new (Member.mk "M1" "N1" "N2" "Steel" "Default" None)
            (Node.mk "N1" 0 0 0) (Node.mk "N2" 1 0 0)
            (Material.mk "Steel" 1 1 0 0) (Section_.mk "Default" 1 1 1 1) = Ok e).
  { rewrite new_unit_x. unfold e. simpl. by rewrite orElse_zero || done. }
  assert (Hdrop : Member3DElement.fixedEndReactions e [load]
                  = Member3DElement.fixedEndReactions e []).
  { apply (fixedEndReactions_moment_ignored e load [] []). reflexivity. }
  split; [exact Hnew|]. split; [|split; [exact Hdrop|]].
  - rewrite Hdrop. apply fixedEndReactions_no_load.
    by apply new_constructed in Hnew.
  - unfold e. cbn [Member3DElement.length]. rewrite sqrt_unit_x.
    unfold Member3DElement.addPointLoadFER, vadd, vget. simpl. lra.
Qed.

(** ** Loops over arrays *)

Lemma ForOfE_ok {S B : Type} (P : S -> Prop) (l : list B)
    (body : B -> S -> Result S) (s : S) :
  P s ->
  (forall v s, v ∈ l -> P s -> exists s', body v s = Ok s' /\ P s') ->
  exists r, ForOfE l body s = Ok r /\ P r.
Proof.
  revert s. induction l as [|v l IH]; intros s Hs Hstep.
  - by exists s.
  - destruct (Hstep v s) as (s' & Hb & Hs'); [left|done|].
    simpl. rewrite Hb. cbn [bind]. apply IH; [done|].
    intros w t Hw Ht. apply Hstep; [by right|done].
Qed.

Lemma ForOfE_inv {S B : Type} (P : S -> Prop) (l : list B)
    (body : B -> S -> Result S) (s r : S) :
  P s ->
  (forall v s s', v ∈ l -> P s -> body v s = Ok s' -> P s') ->
  ForOfE l body s = Ok r -> P r.
Proof.
  revert s. induction l as [|v l IH]; intros s Hs Hstep.
  - by intros [= <-].
  - simpl. destruct (body v s) as [s'|msg] eqn:Hb; [|done]. cbn [bind].
    apply IH.
    + eapply Hstep; [left|done..].
    + intros w t t' Hw Ht. apply Hstep; [by right|done].
Qed.

Lemma ForOf_inv {S B : Type} (P : S -> Prop) (l : list B)
    (body : B -> S -> S) (s : S) :
  P s -> (forall v s, v ∈ l -> P s -> P (body v s)) -> P (ForOf l body s).
Proof.
  unfold ForOf. revert s. induction l as [|v l IH]; intros s Hs Hstep; [done|].
  simpl. apply IH.
  - apply Hstep; [left|done].
  - intros w t Hw Ht. apply Hstep; [by right|done].
Qed.

Lemma forEach_from_inv {S B : Type} (P : nat -> S -> Prop) (l : list B)
    (start : nat) (body : B -> nat -> S -> S) (s : S) :
  P start s ->
  (forall k v s, l !! k = Some v -> P (start + k)%nat s ->
     P (Datatypes.S (start + k)) (body v (start + k)%nat s)) ->
  P (start + length l)%nat (forEach_from l start body s).
Proof.
  revert start s. induction l as [|v l IH]; intros start s Hs Hstep.
  - simpl. by rewrite Nat.add_0_r.
  - simpl. replace (start + Datatypes.S (length l))%nat
      with (Datatypes.S start + length l)%nat by lia.
    apply IH.
    + specialize (Hstep O v s). rewrite Nat.add_0_r in Hstep. by apply Hstep.
    + intros k w t Hk Ht.
      replace (Datatypes.S start + k)%nat with (start + Datatypes.S k)%nat in * by lia.
      by apply Hstep.
Qed.

Lemma ForEach_inv {S B : Type} (P : nat -> S -> Prop) (l : list B)
    (body : B -> nat -> S -> S) (s : S) :
  P O s ->
  (forall k v s, l !! k = Some v -> P k s -> P (Datatypes.S k) (body v k s)) ->
  P (length l) (ForEach l body s).
Proof.
  intros H0 Hstep. apply (forEach_from_inv P l 0 body s H0). done.
Qed.

(** ** The analyzer after construction *)

(** The two maps built from the nodes: every node found by its id has that
    id and an index below the number of nodes. *)
Lemma node_maps_ok (nodes : list Node.t) :
  let '(nodeMap, nodeIndexMap) :=
    ForEach nodes (fun node index '(nodeMap, nodeIndexMap) =>
      (<[Node.id node := node]> nodeMap, <[Node.id node := index]> nodeIndexMap))
      ((∅ : gmap string Node.t), (∅ : gmap string nat)) in
  forall k n, nodeMap !! k = Some n ->
    Node.id n = k /\ exists i, nodeIndexMap !! k = Some i /\ (i < length nodes)%nat.
Proof.
  pose proof (ForEach_inv
    (fun idx (s : gmap string Node.t * gmap string nat) =>
       forall k n, s.1 !! k = Some n ->
         Node.id n = k /\ exists i, s.2 !! k = Some i /\ (i < idx)%nat)
    nodes
    (fun node index '(nodeMap, nodeIndexMap) =>
      (<[Node.id node := node]> nodeMap, <[Node.id node := index]> nodeIndexMap))
    (∅, ∅)) as H.
  destruct (ForEach nodes _ _) as [nm nim]. apply H.
  - intros k n. simpl. by rewrite lookup_empty.
  - intros idx v [nm' nim'] Hv IH k n. simpl in *.
    destruct (decide (Node.id v = k)) as [<-|Hne].
    + rewrite !lookup_insert_eq. intros [= <-]. split; [done|].
      exists idx. split; [done|lia].
    + rewrite !lookup_insert_ne by done. intros Hk.
      destruct (IH k n Hk) as (? & i & ? & ?). split; [done|].
      exists i. split; [done|lia].
Qed.

Lemma classifyDOF_fields (a : Analyzer.t) :
  let a' := Analyzer.classifyDOF a in
  Analyzer.model a' = Analyzer.model a
  /\ Analyzer.nodeIndexMap a' = Analyzer.nodeIndexMap a
  /\ Analyzer.supportMap a' = Analyzer.supportMap a
  /\ Analyzer.elements a' = Analyzer.elements a
  /\ Analyzer.numDOF a' = Analyzer.numDOF a
  /\ (Analyzer.freeDOF a', Analyzer.fixedDOF a')
     = Analyzer.classify (StanalModel.nodes (Analyzer.model a)) (Analyzer.supportMap a).
Proof.
  unfold Analyzer.classifyDOF.
  destruct (Analyzer.classify _ _) as [free fixed]. simpl. done.
Qed.

Lemma new_ok (model : StanalModel.t) (a : Analyzer.t) :
  Analyzer.new model = Ok a -> Analyzer.model a = model /\ analyzer_ok a.
Proof.
  unfold Analyzer.new, Analyzer.initialize.
  cbn [Analyzer.model Analyzer.nodeMap Analyzer.nodeIndexMap Analyzer.materialMap
       Analyzer.sectionMap Analyzer.supportMap Analyzer.elements Analyzer.freeDOF
       Analyzer.fixedDOF].
  pose proof (node_maps_ok (StanalModel.nodes model)) as Hmaps.
  destruct (ForEach (StanalModel.nodes model) _ _) as [nm nim].
  match goal with
  | |- bind (ForOfE ?l ?body ?s) _ = _ -> _ =>
      destruct (ForOfE l body s) as [els|msg] eqn:Hels; [|done]
  end.
  cbn [bind]. intros [= <-].
  match goal with
  | |- context [Analyzer.classifyDOF ?a0] =>
      destruct (classifyDOF_fields a0) as (Hm & Hi & Hs & He & Hn & Hc)
  end.
  cbn [Analyzer.model Analyzer.nodeIndexMap Analyzer.supportMap Analyzer.elements
       Analyzer.numDOF] in *.
  split; [done|]. unfold analyzer_ok. rewrite Hm, Hi, Hs, He, Hn.
  split; [done|]. split; [|done].
  pattern els. eapply ForOfE_inv; [| |exact Hels]; cbv beta.
  - intros e He'. by apply elem_of_nil in He'.
  - intros member els0 els1 _ IH.
    destruct (nm !! Member.iNode member) as [iN|] eqn:HiN; [|by intros [= <-]].
    destruct (nm !! Member.jNode member) as [jN|] eqn:HjN; [|by intros [= <-]].
    destruct (_ !! Member.material member) as [mat|]; [|by intros [= <-]].
    destruct (_ !! Member.section member) as [sec|]; [|by intros [= <-]].
    destruct (Member3DElement.new member iN jN mat sec) as [e|msg] eqn:Hnew; [|done].
    cbn [bind]. intros [= <-] e' [He'|He']%elem_of_app; [by apply IH|].
    apply list_elem_of_singleton in He' as ->. split; [by eapply new_constructed|].
    destruct (new_fields _ _ _ _ _ _ Hnew) as (_ & -> & ->).
    destruct (Hmaps _ _ HiN) as (-> & i & Hi' & Hlt).
    destruct (Hmaps _ _ HjN) as (-> & j & Hj' & Hlt').
    by exists i, j.
Qed.

(** ** Assembly of the global stiffness matrix *)

Lemma add_spec (K : Matrix.t) (p q : nat) (v : R) :
  wf K -> (p < Matrix.rows K)%nat -> (q < Matrix.cols K)%nat ->
  wf (Matrix.add K p q v)
  /\ Matrix.rows (Matrix.add K p q v) = Matrix.rows K
  /\ Matrix.cols (Matrix.add K p q v) = Matrix.cols K
  /\ forall r s, Matrix.get (Matrix.add K p q v) r s
                 = Matrix.get K r s + (if decide (r = p /\ s = q) then v else 0).
Proof.
  intros Hw Hp Hq. unfold Matrix.add. split; [by apply wf_set|].
  split; [done|]. split; [done|]. intros r s. rewrite get_set by done.
  destruct (decide (r = p /\ s = q)) as [[-> ->]|]; lra.
Qed.

Lemma scatter_loop (K : Matrix.t) (dm : nat -> nat) (kG : Matrix.t) :
  wf K ->
  (forall i, (i < 12)%nat -> (dm i < Matrix.rows K)%nat /\ (dm i < Matrix.cols K)%nat) ->
  let K' := For 0 12 (fun i K =>
              For 0 12 (fun j K =>
                Matrix.add K (dm i) (dm j) (Matrix.get kG i j)) K) K in
  wf K' /\ Matrix.rows K' = Matrix.rows K /\ Matrix.cols K' = Matrix.cols K
  /\ forall r s, Matrix.get K' r s = Matrix.get K r s + scatter dm kG r s.
Proof.
  intros Hw Hdm. cbv zeta. unfold scatter.
  for_ind (fun a K' =>
    wf K' /\ Matrix.rows K' = Matrix.rows K /\ Matrix.cols K' = Matrix.cols K
    /\ forall r s, Matrix.get K' r s
         = Matrix.get K r s
           + Rsum a (fun i => Rsum 12 (fun j =>
               if decide (dm i = r /\ dm j = s) then Matrix.get kG i j else 0))).
  - lia.
  - do 3 (split; [done|]). intros r s. simpl. lra.
  - intros a K1 Ha (Hw1 & Hr1 & Hc1 & Hg1).
    assert (Hin :
      let K2 := For 0 12 (fun j K =>
                  Matrix.add K (dm a) (dm j) (Matrix.get kG a j)) K1 in
      wf K2 /\ Matrix.rows K2 = Matrix.rows K /\ Matrix.cols K2 = Matrix.cols K
      /\ forall r s, Matrix.get K2 r s
           = Matrix.get K1 r s
             + Rsum 12 (fun j =>
                 if decide (dm a = r /\ dm j = s) then Matrix.get kG a j else 0)).
    { cbv zeta.
      for_ind (fun b K' =>
        wf K' /\ Matrix.rows K' = Matrix.rows K /\ Matrix.cols K' = Matrix.cols K
        /\ forall r s, Matrix.get K' r s
             = Matrix.get K1 r s
               + Rsum b (fun j =>
                   if decide (dm a = r /\ dm j = s) then Matrix.get kG a j else 0)).
      - lia.
      - do 3 (split; [done|]). intros r s. simpl. lra.
      - intros b K2 Hb (Hw2 & Hr2 & Hc2 & Hg2).
        destruct (add_spec K2 (dm a) (dm b) (Matrix.get kG a b) Hw2)
          as (Hw3 & Hr3 & Hc3 & Hg3).
        { rewrite Hr2. apply Hdm. lia. }
        { rewrite Hc2. apply Hdm. lia. }
        split; [done|]. split; [congruence|]. split; [congruence|].
        intros r s. rewrite Hg3, Hg2. simpl.
        destruct (decide (r = dm a /\ s = dm b)) as [[-> ->]|Hne].
        + rewrite (decide_True (P := dm a = dm a /\ dm b = dm b)) by done. lra.
        + rewrite (decide_False (P := dm a = r /\ dm b = s)) by (intros [? ?]; auto).
          lra. }
    cbv zeta in Hin. destruct Hin as (Hw2 & Hr2 & Hc2 & Hg2).
    do 3 (split; [done|]).
    intros r s. rewrite Hg2, Hg1. simpl. lra.
Qed.

Lemma dofIndex_spec (iIndex jIndex i : nat) :
  (i < 12)%nat ->
  dofIndex iIndex jIndex i
  = if decide (i < 6)%nat then (iIndex * 6 + i)%nat else (jIndex * 6 + (i - 6))%nat.
Proof.
  intros Hi. unfold dofIndex, Analyzer.dofMap. below i; simpl; lia.
Qed.

Lemma dofIndex_lt (iIndex jIndex i n : nat) :
  (i < 12)%nat -> (iIndex < n)%nat -> (jIndex < n)%nat ->
  (dofIndex iIndex jIndex i < n * 6)%nat.
Proof.
  intros Hi Ha Hb. rewrite dofIndex_spec by done. destruct (decide _); lia.
Qed.

(** A property of matrices that holds of the zero matrix and is kept when
    the contribution of an element is added holds of the assembled matrix;
    the assembly does not throw. *)
Lemma assemble_inv (a : Analyzer.t) (Q : Matrix.t -> Prop) :
  analyzer_ok a ->
  Q (Matrix.zeros (Analyzer.numDOF a) (Analyzer.numDOF a)) ->
  (forall K K' e kG i j,
     Q K -> wf K ->
     Matrix.rows K = Analyzer.numDOF a -> Matrix.cols K = Analyzer.numDOF a ->
     e ∈ Analyzer.elements a -> constructed e ->
     Member3DElement.globalStiffnessMatrix e = Ok kG ->
     (i < length (StanalModel.nodes (Analyzer.model a)))%nat ->
     (j < length (StanalModel.nodes (Analyzer.model a)))%nat ->
     wf K' ->
     Matrix.rows K' = Analyzer.numDOF a -> Matrix.cols K' = Analyzer.numDOF a ->
     (forall r s, Matrix.get K' r s = Matrix.get K r s + scatter (dofIndex i j) kG r s) ->
     Q K') ->
  exists K, Analyzer.assembleGlobalStiffnessMatrix a = Ok K
    /\ wf K /\ Matrix.rows K = Analyzer.numDOF a /\ Matrix.cols K = Analyzer.numDOF a
    /\ Q K.
Proof.
  intros (Hn & Hel & _) H0 Hstep. unfold Analyzer.assembleGlobalStiffnessMatrix.
  apply (ForOfE_ok (fun K => wf K /\ Matrix.rows K = Analyzer.numDOF a
                             /\ Matrix.cols K = Analyzer.numDOF a /\ Q K)).
  - split; [apply wf_new|]. done.
  - intros e K He (Hw & Hr & Hc & HQ).
    destruct (Hel e He) as (Hce & i & j & Hi & Hj & Hlti & Hltj).
    destruct (globalStiffnessMatrix_spec e Hce)
      as (Rm & T & kG & _ & _ & _ & _ & _ & HkG & _).
    rewrite HkG, Hi, Hj. cbn [bind]. eexists. split; [done|].
    destruct (scatter_loop K (dofIndex i j) kG Hw) as (Hw' & Hr' & Hc' & Hg').
    { intros k Hk. rewrite Hr, Hc, Hn. split; by apply dofIndex_lt. }
    split; [exact Hw'|]. split; [exact (eq_trans Hr' Hr)|].
    split; [exact (eq_trans Hc' Hc)|].
    exact (Hstep K _ e kG i j HQ Hw Hr Hc He Hce HkG Hlti Hltj Hw'
             (eq_trans Hr' Hr) (eq_trans Hc' Hc) Hg').
Qed.

(** [T^t K T] is symmetric when [K] is. *)
Lemma tripleProduct_sym (T K : Matrix.t) (i j : nat) :
  (forall k l, (k < 12)%nat -> (l < 12)%nat -> Matrix.get K k l = Matrix.get K l k) ->
  tripleProduct T K i j = tripleProduct T K j i.
Proof.
  intros Hsym. unfold tripleProduct.
  transitivity (Rsum 12 (fun l => Rsum 12 (fun k =>
    Matrix.get T k i * Matrix.get K k l * Matrix.get T l j))).
  { apply Rsum_ext. intros l Hl. by rewrite Rsum_scal_r. }
  rewrite Rsum_swap. apply Rsum_ext. intros k Hk.
  rewrite <- Rsum_scal_r. apply Rsum_ext. intros l Hl.
  rewrite (Hsym k l) by done. ring.
Qed.

Lemma scatter_sym (dm : nat -> nat) (kG : Matrix.t) (r s : nat) :
  (forall i j, (i < 12)%nat -> (j < 12)%nat -> Matrix.get kG i j = Matrix.get kG j i) ->
  scatter dm kG r s = scatter dm kG s r.
Proof.
  intros Hsym. unfold scatter. rewrite Rsum_swap.
  apply Rsum_ext. intros i Hi. apply Rsum_ext. intros j Hj.
  rewrite (Hsym j i) by done.
  destruct (decide (dm j = r /\ dm i = s)) as [[? ?]|Hne].
  - by rewrite decide_True.
  - rewrite decide_False; [done|]. intros [? ?]. by apply Hne.
Qed.

Lemma globalStiffnessMatrix_sym (e : Member3DElement.t) (kG : Matrix.t) (i j : nat) :
  constructed e -> Member3DElement.globalStiffnessMatrix e = Ok kG ->
  (i < 12)%nat -> (j < 12)%nat -> Matrix.get kG i j = Matrix.get kG j i.
Proof.
  intros He HkG Hi Hj.
  destruct (globalStiffnessMatrix_spec e He)
    as (Rm & T & kG' & _ & _ & _ & _ & _ & HkG' & _ & _ & _ & Hg).
  rewrite HkG in HkG'. injection HkG' as <-.
  rewrite !Hg by done. apply tripleProduct_sym.
  intros k l Hk Hl. by apply localStiffnessMatrix_sym.
Qed.

(** C8: for an analyzer built from a model the assembled global stiffness
    matrix is the [numDOF] x [numDOF] matrix [K] with [K[i][j] = K[j][i]] for
    all index pairs. *)
Theorem assembleGlobalStiffnessMatrix_symmetric
    (model : StanalModel.t) (a : Analyzer.t) :
  Analyzer.new model = Ok a ->
  exists K, Analyzer.assembleGlobalStiffnessMatrix a = Ok K
    /\ Matrix.rows K = Analyzer.numDOF a /\ Matrix.cols K = Analyzer.numDOF a
    /\ forall i j, (i < Analyzer.numDOF a)%nat -> (j < Analyzer.numDOF a)%nat ->
         Matrix.get K i j = Matrix.get K j i.
Proof.
  intros Hnew. destruct (new_ok model a Hnew) as [_ Hok].
  destruct (assemble_inv a
              (fun K => forall i j, Matrix.get K i j = Matrix.get K j i) Hok)
    as (K & HK & _ & Hr & Hc & Hsym).
  - intros i j. by rewrite !get_zeros.
  - intros K K' e kG i j HQ _ _ _ _ He HkG _ _ _ _ _ Hg r s.
    rewrite !Hg, (HQ r s). f_equal. apply scatter_sym.
    intros p q Hp Hq. by apply (globalStiffnessMatrix_sym e).
  - exists K. do 3 (split; [done|]). intros i j _ _. apply Hsym.
Qed.

(** ** solve: what each loop does *)

(** Case analysis on every [decide] of the goal, closed by arithmetic. *)
Ltac decide_cases :=
  repeat case_decide; destruct_and?; simplify_eq;
  first [done | exfalso; lia | idtac].

Lemma for_down_ind {S : Type} (P : nat -> S -> Prop) (hi : nat)
    (body : nat -> S -> S) (s : S) :
  P hi s ->
  (forall i s, (i < hi)%nat -> P (Datatypes.S i) s -> P i (body i s)) ->
  P O (for_down hi body s).
Proof.
  revert s. induction hi as [|hi IH]; intros s Hs Hstep; [done|].
  simpl. apply IH.
  - apply Hstep; [lia|done].
  - intros i t Hi Ht. apply Hstep; [lia|done].
Qed.

Lemma findPivot_range (A : Matrix.t) (n k : nat) :
  (k < n)%nat ->
  (k <= (Matrix.findPivot A n k).2 < n)%nat.
Proof.
  intros Hk. unfold Matrix.findPivot.
  for_ind (fun (i : nat) (s : R * nat) => (k <= s.2 < n)%nat).
  - lia.
  - simpl. lia.
  - intros i [v r] Hi Hr. simpl in *. destruct (Rgt_dec _ _); simpl; lia.
Qed.

Lemma swapRows_spec (A : Matrix.t) (n k p : nat) :
  wf A -> Matrix.rows A = n -> Matrix.cols A = n ->
  (k < n)%nat -> (p < n)%nat ->
  let A' := Matrix.swapRows A n k p in
  wf A' /\ Matrix.rows A' = n /\ Matrix.cols A' = n
  /\ forall i j, (j < n)%nat ->
       Matrix.get A' i j = Matrix.get A (swapIndex k p i) j.
Proof.
  intros Hw Hr Hc Hk Hp. cbv zeta. unfold Matrix.swapRows.
  cut (let A' := For 0 n (fun j A =>
                   Matrix.set (Matrix.set A k j (Matrix.get A p j)) p j
                     (Matrix.get A k j)) A in
       wf A' /\ Matrix.rows A' = n /\ Matrix.cols A' = n
       /\ forall i j, Matrix.get A' i j
            = if decide (j < n)%nat then Matrix.get A (swapIndex k p i) j
              else Matrix.get A i j).
  { cbv zeta. intros (Hw' & Hr' & Hc' & Hg). do 3 (split; [done|]).
    intros i j Hj. rewrite Hg. by rewrite decide_True. }
  cbv zeta.
  for_ind (fun c A' =>
    wf A' /\ Matrix.rows A' = n /\ Matrix.cols A' = n
    /\ forall i j, Matrix.get A' i j
         = if decide (j < c)%nat then Matrix.get A (swapIndex k p i) j
           else Matrix.get A i j).
  - lia.
  - do 3 (split; [done|]). intros i j. destruct (decide _); [lia|done].
  - intros c A1 Hcn (Hw1 & Hr1 & Hc1 & Hg1).
    split; [by do 2 apply wf_set|]. split; [done|]. split; [done|].
    intros i j.
    rewrite get_set by (try apply wf_set; simpl; (done || lia)).
    rewrite get_set by (simpl; (done || lia)).
    rewrite !Hg1. unfold swapIndex.
    decide_cases.
Qed.

Lemma swapEntries_spec (x : list R) (k p : nat) :
  (k < length x)%nat -> (p < length x)%nat ->
  length (Matrix.swapEntries x k p) = length x
  /\ forall i, vget (Matrix.swapEntries x k p) i = vget x (swapIndex k p i).
Proof.
  intros Hk Hp. unfold Matrix.swapEntries. split; [by rewrite !length_insert|].
  intros i. rewrite vget_insert by (by rewrite length_insert).
  rewrite vget_insert by done. unfold swapIndex.
  destruct (decide (i = p)) as [->|Hip].
  - destruct (decide (p = k)) as [->|]; done.
  - destruct (decide (i = k)); done.
Qed.

Lemma eliminate_row_spec (A : Matrix.t) (A0 : Matrix.t) (n k i : nat) (akk : R) :
  wf A -> Matrix.rows A = n -> Matrix.cols A = n ->
  (k < i < n)%nat ->
  (forall j, Matrix.get A i j = Matrix.get A0 i j) ->
  (forall j, Matrix.get A k j = Matrix.get A0 k j) ->
  let factor := Matrix.get A i k / akk in
  let A' := For (k + 1) n (fun j A =>
              Matrix.set A i j (Matrix.get A i j - factor * Matrix.get A k j))
              (Matrix.set A i k factor) in
  wf A' /\ Matrix.rows A' = n /\ Matrix.cols A' = n
  /\ forall i' j, (j < n)%nat ->
       Matrix.get A' i' j
       = if decide (i' = i) then eliminated A0 k akk i j else Matrix.get A i' j.
Proof.
  intros Hw Hr Hc Hki Hrow Hpiv. cbv zeta.
  cut (let A' := For (k + 1) n (fun j A1 =>
                   Matrix.set A1 i j
                     (Matrix.get A1 i j - Matrix.get A i k / akk * Matrix.get A1 k j))
                   (Matrix.set A i k (Matrix.get A i k / akk)) in
       wf A' /\ Matrix.rows A' = n /\ Matrix.cols A' = n
       /\ forall i' j,
            Matrix.get A' i' j
            = if decide (i' = i /\ (j < n)%nat /\ (k <= j)%nat)
              then eliminated A0 k akk i j else Matrix.get A i' j).
  { cbv zeta. intros (Hw' & Hr' & Hc' & Hg). do 3 (split; [done|]).
    intros i' j Hj. rewrite Hg. unfold eliminated.
    decide_cases; rewrite ?Hrow, ?Hpiv; done. }
  cbv zeta.
  for_ind (fun c A' =>
    wf A' /\ Matrix.rows A' = n /\ Matrix.cols A' = n
    /\ forall i' j,
         Matrix.get A' i' j
         = if decide (i' = i /\ (j < c)%nat /\ (k <= j)%nat)
           then eliminated A0 k akk i j else Matrix.get A i' j).
  - lia.
  - split; [by apply wf_set|]. split; [done|]. split; [done|].
    intros i' j. rewrite get_set by (done || lia). unfold eliminated.
    decide_cases; rewrite ?Hrow, ?Hpiv; done.
  - intros c A1 Hcn (Hw1 & Hr1 & Hc1 & Hg1).
    split; [by apply wf_set|]. split; [done|]. split; [done|].
    intros i' j. rewrite get_set by (done || lia). rewrite !Hg1.
    unfold eliminated. decide_cases; rewrite ?Hrow, ?Hpiv; done.
Qed.

Lemma eliminate_spec (A : Matrix.t) (x : list R) (n k : nat) (akk : R) :
  system n A x -> (k < n)%nat ->
  let '(A', x') := Matrix.eliminate n k akk (A, x) in
  system n A' x'
  /\ (forall i j, (j < n)%nat ->
        Matrix.get A' i j
        = if decide (k < i < n)%nat then eliminated A k akk i j else Matrix.get A i j)
  /\ (forall i,
        vget x' i
        = if decide (k < i < n)%nat
          then vget x i - Matrix.get A i k / akk * vget x k else vget x i).
Proof.
  intros (Hw & Hr & Hc & Hl) Hk. unfold Matrix.eliminate.
  cut (let s := For (k + 1) n (fun i '(A1, x1) =>
          (For (k + 1) n (fun j A2 =>
             Matrix.set A2 i j
               (Matrix.get A2 i j - Matrix.get A1 i k / akk * Matrix.get A2 k j))
             (Matrix.set A1 i k (Matrix.get A1 i k / akk)),
           <[i := vget x1 i - Matrix.get A1 i k / akk * vget x1 k]> x1)) (A, x) in
       system n s.1 s.2
       /\ (forall i j, (j < n)%nat ->
             Matrix.get s.1 i j
             = if decide (k < i < n)%nat then eliminated A k akk i j
               else Matrix.get A i j)
       /\ (forall i,
             vget s.2 i
             = if decide (k < i < n)%nat
               then vget x i - Matrix.get A i k / akk * vget x k else vget x i)).
  { cbv zeta. by destruct (For _ _ _ _) as [A' x']. }
  cbv zeta.
  for_ind (fun c (s : Matrix.t * list R) =>
    system n s.1 s.2
    /\ (forall i j, (j < n)%nat ->
          Matrix.get s.1 i j
          = if decide (k < i < c)%nat then eliminated A k akk i j
            else Matrix.get A i j)
    /\ (forall i,
          vget s.2 i
          = if decide (k < i < c)%nat
            then vget x i - Matrix.get A i k / akk * vget x k else vget x i)).
  - lia.
  - simpl. split; [done|]. split.
    + intros i j Hj. decide_cases.
    + intros i. decide_cases.
  - intros c [A1 x1] Hcn ((Hw1 & Hr1 & Hc1 & Hl1) & Hg1 & Hx1). simpl in *.
    assert (Hrowc : forall j, Matrix.get A1 c j = Matrix.get A c j).
    { intros j. destruct (decide (j < n)%nat) as [Hj|Hj].
      - rewrite Hg1 by done. by rewrite decide_False by lia.
      - unfold Matrix.get. rewrite !nth_lookup.
        destruct (wf_row A1 c Hw1) as (r1 & -> & Hlen1); [lia|].
        destruct (wf_row A c Hw) as (r0 & -> & Hlen0); [lia|]. simpl.
        rewrite !(proj2 (lookup_ge_None _ _)) by lia. done. }
    assert (Hrowk : forall j, Matrix.get A1 k j = Matrix.get A k j).
    { intros j. destruct (decide (j < n)%nat) as [Hj|Hj].
      - rewrite Hg1 by done. by rewrite decide_False by lia.
      - unfold Matrix.get. rewrite !nth_lookup.
        destruct (wf_row A1 k Hw1) as (r1 & -> & Hlen1); [lia|].
        destruct (wf_row A k Hw) as (r0 & -> & Hlen0); [lia|]. simpl.
        rewrite !(proj2 (lookup_ge_None _ _)) by lia. done. }
    destruct (eliminate_row_spec A1 A n k c akk Hw1 Hr1 Hc1 ltac:(lia) Hrowc Hrowk)
      as (Hw2 & Hr2 & Hc2 & Hg2).
    split; [|split].
    + split; [done|]. split; [done|]. split; [done|]. by rewrite length_insert.
    + intros i j Hj. rewrite Hg2 by done. rewrite Hg1 by done. decide_cases.
    + intros i. rewrite vget_insert by lia. rewrite !Hx1.
      decide_cases; rewrite ?Hrowc; done.
Qed.

(** ** solve: the systems along the elimination have the same solutions *)

Lemma swapIndex_involutive (k p i : nat) : swapIndex k p (swapIndex k p i) = i.
Proof. unfold swapIndex. decide_cases. Qed.

Lemma swapIndex_lt (k p i n : nat) :
  (k < n)%nat -> (p < n)%nat -> (i < n)%nat -> (swapIndex k p i < n)%nat.
Proof. intros. unfold swapIndex. decide_cases; lia. Qed.

Lemma solves_ext (n : nat) (M M' : nat -> nat -> R) (v v' y : nat -> R) :
  (forall i j, (i < n)%nat -> (j < n)%nat -> M i j = M' i j) ->
  (forall i, (i < n)%nat -> v i = v' i) ->
  solves n M v y -> solves n M' v' y.
Proof.
  intros HM Hv Hs i Hi. rewrite <- Hv by done. rewrite <- (Hs i Hi).
  apply Rsum_ext. intros j Hj. by rewrite HM.
Qed.

Lemma solves_swap (n k p : nat) (M : nat -> nat -> R) (v y : nat -> R) :
  (k < n)%nat -> (p < n)%nat ->
  solves n (fun i j => M (swapIndex k p i) j) (fun i => v (swapIndex k p i)) y
  <-> solves n M v y.
Proof.
  intros Hk Hp. split; intros Hs i Hi.
  - specialize (Hs (swapIndex k p i) (swapIndex_lt k p i n Hk Hp Hi)).
    cbv beta in Hs. by rewrite swapIndex_involutive in Hs.
  - apply Hs. by apply swapIndex_lt.
Qed.

(** Subtracting multiples of row [k] from the rows below it. *)
Lemma solves_eliminate (n k : nat) (f : nat -> R)
    (M M' : nat -> nat -> R) (v v' y : nat -> R) :
  (k < n)%nat ->
  (forall i j, (i < n)%nat -> (j < n)%nat ->
     M' i j = if decide (k < i)%nat then M i j - f i * M k j else M i j) ->
  (forall i, (i < n)%nat ->
     v' i = if decide (k < i)%nat then v i - f i * v k else v i) ->
  solves n M' v' y <-> solves n M v y.
Proof.
  intros Hk HM Hv.
  assert (Hrow : forall i, (i < n)%nat ->
            Rsum n (fun j => M' i j * y j)
            = if decide (k < i)%nat
              then Rsum n (fun j => M i j * y j) - f i * Rsum n (fun j => M k j * y j)
              else Rsum n (fun j => M i j * y j)).
  { intros i Hi. destruct (decide (k < i)%nat) as [Hki|Hki].
    - rewrite <- Rsum_scal_l, <- Rsum_minus. apply Rsum_ext. intros j Hj.
      rewrite HM by done. rewrite decide_True by done. ring.
    - apply Rsum_ext. intros j Hj. rewrite HM by done. by rewrite decide_False. }
  split; intros Hs.
  - assert (Hkrow : Rsum n (fun j => M k j * y j) = v k).
    { specialize (Hs k Hk). rewrite Hrow, Hv in Hs by done.
      by rewrite !decide_False in Hs by lia. }
    intros i Hi. specialize (Hs i Hi). rewrite Hrow, Hv in Hs by done.
    destruct (decide (k < i)%nat); [|done]. rewrite Hkrow in Hs. lra.
  - intros i Hi. rewrite Hrow, Hv by done.
    destruct (decide (k < i)%nat); [|by apply Hs].
    rewrite (Hs i Hi), (Hs k Hk). done.
Qed.

Lemma eps_pivot (akk : R) : ~ Rabs akk < 1e-12 -> akk <> 0.
Proof. intros H ->. apply H. rewrite Rabs_R0. lra. Qed.

(** One pass of the outer loop: it throws the singular-matrix error or
    returns a system with the same solutions, a non-zero pivot at [(k, k)]
    and the rows above [k] as they were. *)
Lemma solveStep_spec (n k : nat) (A : Matrix.t) (x : list R) :
  system n A x -> (k < n)%nat ->
  match Matrix.solveStep n k (A, x) with
  | Throw msg => msg = Matrix.singular
  | Ok (A', x') =>
      system n A' x'
      /\ Matrix.get A' k k <> 0
      /\ (forall i j, (i < k)%nat -> (j < n)%nat -> Matrix.get A' i j = Matrix.get A i j)
      /\ forall y, solves n (effective (Datatypes.S k) A') (vget x') y
                   <-> solves n (effective k A) (vget x) y
  end.
Proof.
  intros Hsys Hk. pose proof Hsys as (Hw & Hr & Hc & Hl).
  unfold Matrix.solveStep.
  pose proof (findPivot_range A n k Hk) as Hp.
  destruct (Matrix.findPivot A n k) as [maxVal p]. simpl in Hp.
  set (Asxs := if negb (p =? k)%nat
               then (Matrix.swapRows A n k p, Matrix.swapEntries x k p)
               else (A, x)).
  assert (Hswap : system n Asxs.1 Asxs.2
                  /\ (forall i j, (j < n)%nat ->
                        Matrix.get Asxs.1 i j = Matrix.get A (swapIndex k p i) j)
                  /\ (forall i, vget Asxs.2 i = vget x (swapIndex k p i))).
  { unfold Asxs. destruct (Nat.eqb_spec p k) as [->|Hne]; simpl.
    - split; [done|]. split.
      + intros i j _. f_equal. unfold swapIndex. decide_cases.
      + intros i. f_equal. unfold swapIndex. decide_cases.
    - destruct (swapRows_spec A n k p Hw Hr Hc Hk ltac:(lia)) as (Hw' & Hr' & Hc' & Hg').
      destruct (swapEntries_spec x k p) as (Hl' & Hx'); [lia..|].
      split; [|done]. split; [done|]. split; [done|]. split; [done|]. congruence. }
  destruct Asxs as [As xs]. simpl in Hswap.
  destruct Hswap as (Hsys' & HgA & Hgx).
  destruct (Rlt_dec (Rabs (Matrix.get As k k)) 1e-12) as [|Hpiv]; [done|].
  apply eps_pivot in Hpiv.
  pose proof (eliminate_spec As xs n k (Matrix.get As k k) Hsys' Hk) as Hel.
  destruct (Matrix.eliminate n k (Matrix.get As k k) (As, xs)) as [A' x'].
  destruct Hel as (Hsys'' & HgA' & Hgx').
  split; [done|]. split; [|split].
  - rewrite HgA' by done. by rewrite decide_False by lia.
  - intros i j Hi Hj. rewrite HgA' by done. rewrite decide_False by lia.
    rewrite HgA by done. f_equal. unfold swapIndex. decide_cases.
  - intros y.
    transitivity (solves n (effective k As) (vget xs) y).
    + apply (solves_eliminate n k (fun i => Matrix.get As i k / Matrix.get As k k));
        [done| |].
      * intros i j Hi Hj. unfold effective.
        rewrite HgA' by done. unfold eliminated.
        destruct (lt_eq_lt_dec j k) as [[Hlt| ->]|Hgt];
          decide_cases; try (field; done); ring.
      * intros i Hi. rewrite Hgx'. decide_cases.
    + rewrite <- (solves_swap n k p (effective k A) (vget x) y) by lia.
      split; apply solves_ext; intros; rewrite ?Hgx; try done;
        unfold effective; rewrite HgA by done;
        unfold swapIndex; decide_cases.
Qed.

(** ** solve: back substitution and the result *)

Lemma ForE_inv {S : Type} (P : nat -> S -> Prop) (Q : string -> Prop)
    (lo hi : nat) (body : nat -> S -> Result S) (s : S) :
  (lo <= hi)%nat ->
  P lo s ->
  (forall i s, (lo <= i < hi)%nat -> P i s ->
     match body i s with
     | Ok s' => P (Datatypes.S i) s'
     | Throw msg => Q msg
     end) ->
  match ForE lo hi body s with
  | Ok s' => P hi s'
  | Throw msg => Q msg
  end.
Proof.
  intros Hle H0 Hstep. unfold ForE.
  assert (Hgen : forall cnt lo' s', (lo <= lo')%nat -> (lo' + cnt = hi)%nat ->
            P lo' s' ->
            match for_loopE cnt lo' body s' with
            | Ok s'' => P hi s''
            | Throw msg => Q msg
            end).
  { induction cnt as [|cnt IH]; intros lo' s' Hlo Hhi Hs'.
    - simpl. by replace hi with lo' by lia.
    - simpl. specialize (Hstep lo' s' ltac:(lia) Hs').
      destruct (body lo' s') as [s''|msg]; [|done]. cbn [bind].
      apply IH; [lia|lia|done]. }
  apply Hgen; [lia|lia|done].
Qed.

(** Two solutions of an upper triangular system with a non-zero diagonal
    agree. *)
Lemma upper_unique (n : nat) (A : Matrix.t) (v y1 y2 : nat -> R) :
  (forall i, (i < n)%nat -> Matrix.get A i i <> 0) ->
  solves n (upper A) v y1 -> solves n (upper A) v y2 ->
  forall i, (i < n)%nat -> y1 i = y2 i.
Proof.
  intros Hd H1 H2.
  assert (Hgen : forall m i, (n - m <= i < n)%nat -> y1 i = y2 i).
  { induction m as [|m IH]; intros i Hi; [lia|].
    destruct (decide (n - m <= i)%nat) as [|Hlow]; [apply IH; lia|].
    assert (Hz : Rsum n (fun j => upper A i j * y1 j - upper A i j * y2 j) = 0).
    { rewrite Rsum_minus, (H1 i), (H2 i) by lia. lra. }
    rewrite (Rsum_single n i) in Hz; [|lia|].
    - unfold upper in Hz. rewrite decide_False in Hz by lia.
      specialize (Hd i ltac:(lia)). nra.
    - intros j Hj Hne. unfold upper. destruct (decide (j < i)%nat); [lra|].
      rewrite (IH j) by lia. lra. }
  intros i Hi. apply (Hgen n). lia.
Qed.

Lemma backSubstitute_spec (n : nat) (A : Matrix.t) (x : list R) :
  length x = n ->
  (forall i, (i < n)%nat -> Matrix.get A i i <> 0) ->
  length (Matrix.backSubstitute A n x) = n
  /\ solves n (upper A) (vget x) (vget (Matrix.backSubstitute A n x)).
Proof.
  intros Hl Hd. unfold Matrix.backSubstitute.
  cut (let y := for_down n (fun i x =>
                  <[i := vget (For (i + 1) n (fun j x =>
                           <[i := vget x i - Matrix.get A i j * vget x j]> x) x) i
                         / Matrix.get A i i]>
                    (For (i + 1) n (fun j x =>
                       <[i := vget x i - Matrix.get A i j * vget x j]> x) x)) x in
       length y = n
       /\ (forall r, (0 <= r < n)%nat ->
             Rsum n (fun j => upper A r j * vget y j) = vget x r)
       /\ (forall r, (r < 0)%nat -> vget y r = vget x r)).
  { cbv zeta. intros (Hl' & Hs & _). split; [done|]. intros i Hi. apply Hs. lia. }
  cbv zeta.
  apply (for_down_ind (fun i y =>
    length y = n
    /\ (forall r, (i <= r < n)%nat ->
          Rsum n (fun j => upper A r j * vget y j) = vget x r)
    /\ (forall r, (r < i)%nat -> vget y r = vget x r))).
  - split; [done|]. split; [lia|done].
  - intros i s Hi (Hls & Hrows & Hlow).
    assert (Hin :
      let s1 := For (i + 1) n (fun j x =>
                  <[i := vget x i - Matrix.get A i j * vget x j]> x) s in
      length s1 = n
      /\ vget s1 i
         = vget s i - Rsum n (fun j =>
             if decide (i < j)%nat then Matrix.get A i j * vget s j else 0)
      /\ forall r, r <> i -> vget s1 r = vget s r).
    { cbv zeta.
      for_ind (fun c s1 =>
        length s1 = n
        /\ vget s1 i
           = vget s i - Rsum c (fun j =>
               if decide (i < j)%nat then Matrix.get A i j * vget s j else 0)
        /\ forall r, r <> i -> vget s1 r = vget s r).
      - lia.
      - split; [done|]. split; [|done].
        rewrite Rsum_zero; [lra|]. intros j Hj. rewrite decide_False by lia. done.
      - intros c s1 Hc (Hl1 & Hv1 & Ho1). split; [by rewrite length_insert|]. split.
        + rewrite vget_insert by lia. rewrite decide_True by done.
          rewrite Hv1. simpl. rewrite decide_True by lia.
          rewrite (Ho1 c) by lia. lra.
        + intros r Hr. rewrite vget_insert_ne by done. by apply Ho1. }
    cbv zeta in Hin. destruct Hin as (Hl1 & Hv1 & Ho1).
    set (s1 := For (i + 1) n _ s) in *.
    split; [by rewrite length_insert|]. split.
    + intros r Hr. destruct (decide (r = i)) as [->|Hri].
      * transitivity (Rsum n (fun j =>
            (if decide (j = i) then Matrix.get A i i * (vget s1 i / Matrix.get A i i)
             else 0)
            + (if decide (i < j)%nat then Matrix.get A i j * vget s j else 0))).
        { apply Rsum_ext. intros j Hj. unfold upper.
          rewrite vget_insert by lia.
          decide_cases; rewrite ?Ho1 by lia; lra. }
        rewrite Rsum_plus. rewrite (Rsum_single n i); [|lia|].
        -- rewrite decide_True by done. rewrite Hv1.
           rewrite (Hlow i) by lia. specialize (Hd i Hi). field. done.
        -- intros j Hj Hne. by rewrite decide_False.
      * rewrite <- (Hrows r) by lia. apply Rsum_ext. intros j Hj.
        unfold upper. rewrite vget_insert by lia.
        decide_cases; rewrite ?Ho1 by lia; lra.
    + intros r Hr. rewrite vget_insert_ne by lia. rewrite Ho1 by lia.
      apply Hlow. lia.
Qed.

(** [solve] on a well-formed square system with [n >= 1] unknowns: it throws
    the singular-matrix error, or returns [y] of length [n] with
    [A * y = b]; in that case only the zero vector is mapped to zero by
    [A]. *)
Lemma solve_spec (n : nat) (A : Matrix.t) (b : list R) :
  wf A -> Matrix.rows A = n -> Matrix.cols A = n -> length b = n ->
  (1 <= n)%nat ->
  match Matrix.solve A b with
  | Throw msg => msg = Matrix.singular
  | Ok y =>
      length y = n
      /\ solves n (Matrix.get A) (vget b) (vget y)
      /\ forall u, solves n (Matrix.get A) (fun _ => 0) u ->
           forall j, (j < n)%nat -> u j = 0
  end.
Proof.
  intros Hw Hr Hc Hl Hn. unfold Matrix.solve.
  rewrite Hr, Hc, Hl, Nat.eqb_refl. cbn [negb]. rewrite clone_eq by done.
  pose proof (ForE_inv
    (fun k (s : Matrix.t * list R) =>
       system n s.1 s.2
       /\ (forall i, (i < k)%nat -> Matrix.get s.1 i i <> 0)
       /\ forall y, solves n (effective k s.1) (vget s.2) y
                    <-> solves n (Matrix.get A) (vget b) y)
    (fun msg => msg = Matrix.singular)
    0 (n - 1) (Matrix.solveStep n) (A, b) ltac:(lia)) as Hloop.
  assert (Hsys0 : system n A b) by (unfold system; auto).
  assert (Hloop' := Hloop
    ltac:(simpl; split; [exact Hsys0|]; split; [lia|]; intros y;
          split; apply solves_ext; intros; unfold effective; decide_cases)).
  clear Hloop.
  assert (Hloop : match ForE 0 (n - 1) (Matrix.solveStep n) (A, b) with
                  | Ok s' =>
                      system n s'.1 s'.2
                      /\ (forall i, (i < n - 1)%nat -> Matrix.get s'.1 i i <> 0)
                      /\ forall y, solves n (effective (n - 1) s'.1) (vget s'.2) y
                                   <-> solves n (Matrix.get A) (vget b) y
                  | Throw msg => msg = Matrix.singular
                  end).
  { apply Hloop'. intros k [A1 x1] Hk (Hsys & Hd & Heq). cbn [fst snd] in *.
    pose proof (solveStep_spec n k A1 x1 Hsys ltac:(lia)) as Hst.
    destruct (Matrix.solveStep n k (A1, x1)) as [[A2 x2]|]; [|done].
    destruct Hst as (Hsys2 & Hpiv & Hrows & Heq2). cbn [fst snd].
    split; [done|]. split.
    - intros i Hi. destruct (decide (i = k)) as [->|]; [done|].
      rewrite Hrows by lia. apply Hd. lia.
    - intros y. rewrite Heq2. apply Heq. }
  clear Hloop'.
  destruct (ForE 0 (n - 1) (Matrix.solveStep n) (A, b)) as [[A' x']|msg];
    [|done].
  cbn [bind].
  destruct Hloop as ((Hw' & Hr' & Hc' & Hl') & Hd & Heq).
  cbn [fst snd] in *.
  destruct (Nat.eqb_spec n 0) as [|_]; [lia|].
  destruct (Rlt_dec _ _) as [|Hlast]; [done|]. apply eps_pivot in Hlast.
  assert (Hdiag : forall i, (i < n)%nat -> Matrix.get A' i i <> 0).
  { intros i Hi. destruct (decide (i = n - 1)%nat) as [->|]; [done|].
    apply Hd. lia. }
  assert (Hup : forall v y, solves n (effective (n - 1) A') v y
                            <-> solves n (upper A') v y).
  { intros v y. split; apply solves_ext; intros; unfold effective, upper;
      decide_cases. }
  destruct (backSubstitute_spec n A' x' Hl' Hdiag) as (Hly & Hsol).
  split; [done|]. split.
  - apply Heq, Hup, Hsol.
  - intros u Hu j Hj.
    set (y := vget (Matrix.backSubstitute A' n x')) in *.
    assert (Hy : solves n (Matrix.get A) (vget b) y) by apply Heq, Hup, Hsol.
    assert (Hyu : solves n (Matrix.get A) (vget b) (fun j => y j + u j)).
    { intros i Hi.
      transitivity (Rsum n (fun j => Matrix.get A i j * y j)
                    + Rsum n (fun j => Matrix.get A i j * u j)).
      - rewrite <- Rsum_plus. apply Rsum_ext. intros k Hk. ring.
      - rewrite (Hy i Hi), (Hu i Hi). lra. }
    apply Heq, Hup in Hyu.
    pose proof (upper_unique n A' (vget x') _ _ Hdiag Hyu Hsol j Hj) as Huniq.
    simpl in Huniq. lra.
Qed.

(** With no unknown the check of the last diagonal entry is a [TypeError]. *)
Lemma solve_empty :
  Matrix.solve (Matrix.new 0 0 0) []
  = Throw "Cannot read properties of undefined (reading '-1')".
Proof. reflexivity. Qed.

(** ** The steps of analyze *)

(** A loop that rewrites entry [i] in pass [i]. *)
Lemma For_update (n : nat) (f : nat -> R -> R) (v0 : list R) :
  (n <= length v0)%nat ->
  let v := For 0 n (fun i v => <[i := f i (vget v i)]> v) v0 in
  length v = length v0
  /\ forall i, vget v i = if decide (i < n)%nat then f i (vget v0 i) else vget v0 i.
Proof.
  intros Hn. cbv zeta.
  for_ind (fun c v =>
    length v = length v0
    /\ forall i, vget v i = if decide (i < c)%nat then f i (vget v0 i) else vget v0 i).
  - lia.
  - split; [done|]. intros i. decide_cases.
  - intros c v Hc (Hl & Hv). split; [by rewrite length_insert|].
    intros i. rewrite vget_insert by lia. rewrite !Hv. decide_cases.
Qed.

Lemma mapE_ok {B C : Type} (f : B -> Result C) (g : B -> C) (l : list B) :
  (forall v, v ∈ l -> f v = Ok (g v)) -> mapE f l = Ok (map g l).
Proof.
  induction l as [|v l IH]; intros H; [done|].
  simpl. rewrite H by left. cbn [bind]. rewrite IH; [done|].
  intros w Hw. apply H. by right.
Qed.

Lemma length_subAt P index i v : length (Analyzer.subAt P index i v) = length P.
Proof. unfold Analyzer.subAt. destruct index; [by rewrite length_insert|done]. Qed.

Lemma assembleLoadVector_ok (a : Analyzer.t) (loadCase : LoadCase.t) :
  analyzer_ok a ->
  exists P, Analyzer.assembleLoadVector a loadCase = Ok P
    /\ length P = Analyzer.numDOF a.
Proof.
  intros (Hn & Hel & _). unfold Analyzer.assembleLoadVector.
  apply (ForOfE_ok (fun P => length P = Analyzer.numDOF a)).
  - apply (ForOf_inv (fun P => length P = Analyzer.numDOF a)).
    + by rewrite length_replicate.
    + intros load P _ HP. destruct (_ !! _); [|done].
      destruct (_ <=? _)%Z; [|done]. by rewrite length_vadd.
  - intros e P He HP. destruct (Hel e He) as (Hce & _).
    destruct (fixedEndReactions_spec e (LoadCase.memberLoads loadCase) Hce)
      as (Rm & T & _ & _ & _ & _ & _ & ->).
    cbn [bind]. eexists. split; [done|].
    for_ind (fun (c : nat) (P' : list R) => length P' = Analyzer.numDOF a).
    + lia.
    + done.
    + intros c P' _ HP'. by rewrite !length_subAt.
Qed.

Lemma combinedLoadVector_ok (a : Analyzer.t) (combo : LoadCombination.t) :
  analyzer_ok a ->
  exists P, Analyzer.combinedLoadVector a combo = Ok P
    /\ length P = Analyzer.numDOF a.
Proof.
  intros Hok. unfold Analyzer.combinedLoadVector.
  apply (ForOfE_ok (fun P => length P = Analyzer.numDOF a)).
  - by rewrite length_replicate.
  - intros [caseName factor] P _ HP.
    destruct (Analyzer.findLoadCase a caseName) as [lc|]; [|by exists P].
    destruct (assembleLoadVector_ok a lc Hok) as (caseP & -> & HcP).
    cbn [bind]. eexists. split; [done|].
    destruct (For_update (Analyzer.numDOF a)
                (fun i r => r + factor * vget caseP i) P) as [Hl _]; [lia|].
    cbv zeta in Hl. by rewrite Hl.
Qed.

Lemma transformationOf_spec (e : Member3DElement.t) :
  constructed e ->
  Member3DElement.transformationMatrix e = Ok (transformationOf e)
  /\ wf (transformationOf e)
  /\ Matrix.rows (transformationOf e) = 12%nat
  /\ Matrix.cols (transformationOf e) = 12%nat.
Proof.
  intros He. destruct (transformationMatrix_spec e He) as (Rm & T & HT & Hw & Hr & Hc & _).
  unfold transformationOf. by rewrite HT.
Qed.

Lemma computeMemberForces_samplesOf (e : Member3DElement.t) (d : list R)
    (loads : list MemberLoad.t) :
  constructed e -> length d = 12%nat ->
  Member3DElement.computeMemberForces e d loads 11 = Ok (samplesOf e d).
Proof.
  intros He Hd. destruct (computeMemberForces_eq e d He Hd) as (T & HT & _ & _ & _ & Hc).
  rewrite Hc. unfold samplesOf, transformationOf. by rewrite HT.
Qed.

Lemma extractMemberResults_ok (a : Analyzer.t) (D : list R)
    (combo : LoadCombination.t) :
  analyzer_ok a ->
  Analyzer.extractMemberResults a D combo
  = Ok (map (fun e => memberResultOf e (elementDisplacements a D e))
          (Analyzer.elements a)).
Proof.
  intros (_ & Hel & _). unfold Analyzer.extractMemberResults.
  apply mapE_ok. intros e He. destruct (Hel e He) as (Hce & _).
  fold (elementDisplacements a D e).
  rewrite computeMemberForces_samplesOf by done. done.
Qed.

Lemma length_setVector (vec : list R) (indices : list nat) (values : list R) :
  length (Matrix.setVector vec indices values) = length vec.
Proof.
  unfold Matrix.setVector.
  for_ind (fun (c : nat) (v : list R) => length v = length vec).
  - lia.
  - done.
  - intros c v _ Hv. by rewrite length_insert.
Qed.

Lemma computeReactions_spec (a : Analyzer.t) (K : Matrix.t) (D P : list R) :
  Matrix.rows K = Analyzer.numDOF a -> Matrix.cols K = Analyzer.numDOF a ->
  length D = Analyzer.numDOF a ->
  exists reactions, Analyzer.computeReactions a K D P = Ok reactions
    /\ length reactions = Analyzer.numDOF a
    /\ forall i, (i < Analyzer.numDOF a)%nat ->
         vget reactions i = matVec (Analyzer.numDOF a) K (vget D) i - vget P i.
Proof.
  intros Hr Hc Hl. unfold Analyzer.computeReactions.
  destruct (multiplyVector_spec K D) as (r & -> & Hlr & Hgr); [congruence|].
  cbn [bind]. eexists. split; [done|].
  destruct (For_update (Analyzer.numDOF a) (fun i r => r - vget P i) r)
    as [Hl' Hg']; [lia|].
  cbv zeta in Hl', Hg'. split; [congruence|].
  intros i Hi. rewrite Hg'. rewrite decide_True by done.
  rewrite Hgr by lia. by rewrite Hc.
Qed.

(** The cases of [analyze] for an analyzer built by the constructor. *)
Lemma analyzeResult_cases (a : Analyzer.t) (name : string) :
  analyzer_ok a ->
  (Analyzer.findCombination a name = None
   /\ Analyzer.analyzeResult a name
      = failedResult ("Load combination '" ++ name ++ "' not found") name)
  \/ exists combo K P,
       Analyzer.findCombination a name = Some combo
       /\ Analyzer.assembleGlobalStiffnessMatrix a = Ok K
       /\ Analyzer.combinedLoadVector a combo = Ok P
       /\ length P = Analyzer.numDOF a
       /\ ((exists msg,
              Matrix.solve
                (Matrix.subMatrix K (Analyzer.freeDOF a) (Analyzer.freeDOF a))
                (Matrix.extractVector P (Analyzer.freeDOF a)) = Throw msg
              /\ Analyzer.analyzeResult a name = failedResult msg name)
           \/ exists D1 reactions,
                Matrix.solve
                  (Matrix.subMatrix K (Analyzer.freeDOF a) (Analyzer.freeDOF a))
                  (Matrix.extractVector P (Analyzer.freeDOF a)) = Ok D1
                /\ let D := Matrix.setVector (replicate (Analyzer.numDOF a) 0)
                              (Analyzer.freeDOF a) D1 in
                   let members :=
                     map (fun e => memberResultOf e (elementDisplacements a D e))
                       (Analyzer.elements a) in
                   Analyzer.computeReactions a K D P = Ok reactions
                   /\ length reactions = Analyzer.numDOF a
                   /\ (forall i, (i < Analyzer.numDOF a)%nat ->
                         vget reactions i
                         = matVec (Analyzer.numDOF a) K (vget D) i - vget P i)
                   /\ Analyzer.analyzeResult a name
                      = AnalysisResult.mk true None name
                          (Analyzer.extractNodeResults a D reactions) members
                          (Analyzer.computeSummary
                             (Analyzer.extractNodeResults a D reactions) members)).
Proof.
  intros Hok. unfold Analyzer.analyzeResult, Analyzer.analyzeTry.
  destruct (Analyzer.findCombination a name) as [combo|]; [|by left].
  right.
  destruct (assemble_inv a (fun _ => True) Hok I) as (K & HK & Hw & Hr & Hc & _);
    [done|].
  destruct (combinedLoadVector_ok a combo Hok) as (P & HP & HlP).
  exists combo, K, P. rewrite HK, HP. cbn [bind].
  do 4 (split; [done|]).
  unfold Analyzer.solveDisplacements.
  destruct (Matrix.solve _ _) as [D1|msg]; cbn [bind].
  - right. exists D1.
    destruct (computeReactions_spec a K
                (Matrix.setVector (replicate (Analyzer.numDOF a) 0)
                   (Analyzer.freeDOF a) D1) P Hr Hc) as (reactions & HR & HlR & HgR).
    { by rewrite length_setVector, length_replicate. }
    exists reactions. split; [done|]. cbv zeta.
    rewrite HR, extractMemberResults_ok by done. cbn [bind]. done.
  - left. by exists msg.
Qed.

(** ** Rigid translations *)

Lemma blockDiag_entry (T Rm : Matrix.t) (i j : nat) :
  blockDiag T Rm -> (i < 12)%nat -> (j < 12)%nat ->
  Matrix.get T i j
  = if (i / 3 =? j / 3)%nat then Matrix.get Rm (i mod 3) (j mod 3) else 0.
Proof.
  intros Hb Hi Hj. rewrite Hb by done.
  destruct (Nat.eqb_spec (i / 3) (j / 3)); decide_cases.
Qed.

(** The rows [c] and [c + 6] of [T^t K T] cancel when the rows [k] and
    [k + 6] of [K] do, for the three translations. *)
Lemma tripleProduct_translation (T Rm K : Matrix.t) (c j : nat) :
  blockDiag T Rm ->
  (forall k l, (k < 3)%nat -> (l < 12)%nat ->
     Matrix.get K k l + Matrix.get K (k + 6) l = 0) ->
  (c < 3)%nat ->
  tripleProduct T K c j + tripleProduct T K (c + 6) j = 0.
Proof.
  intros Hb HK Hc. unfold tripleProduct. rewrite <- Rsum_plus.
  apply Rsum_zero. intros l Hl.
  assert (Hin : Rsum 12 (fun k => Matrix.get T k c * Matrix.get K k l)
                + Rsum 12 (fun k => Matrix.get T k (c + 6) * Matrix.get K k l) = 0).
  { pose proof (HK 0%nat l ltac:(lia) Hl) as H0.
    pose proof (HK 1%nat l ltac:(lia) Hl) as H1.
    pose proof (HK 2%nat l ltac:(lia) Hl) as H2.
    cbn [Nat.add] in H0, H1, H2.
    assert (E0 : Matrix.get K 6 l = - Matrix.get K 0 l) by lra.
    assert (E1 : Matrix.get K 7 l = - Matrix.get K 1 l) by lra.
    assert (E2 : Matrix.get K 8 l = - Matrix.get K 2 l) by lra.
    cbn [Rsum]. rewrite E0, E1, E2.
    below c; rewrite !(blockDiag_entry T Rm) by (done || lia);
      cbn [Nat.add Nat.div Nat.modulo Nat.divmod Nat.eqb fst snd Nat.sub];
      ring. }
  nra.
Qed.

Lemma globalStiffnessMatrix_rows (e : Member3DElement.t) (kG : Matrix.t) (c j : nat) :
  constructed e -> Member3DElement.globalStiffnessMatrix e = Ok kG ->
  (c < 3)%nat -> (j < 12)%nat ->
  Matrix.get kG c j + Matrix.get kG (c + 6) j = 0.
Proof.
  intros He HkG Hc Hj.
  destruct (globalStiffnessMatrix_spec e He)
    as (Rm & T & kG' & _ & _ & _ & _ & Hb & HkG' & _ & _ & _ & Hg).
  rewrite HkG in HkG'. injection HkG' as <-.
  rewrite !Hg by lia. apply (tripleProduct_translation T Rm); [done| |done].
  intros k l Hk Hl. by apply localStiffnessMatrix_rows.
Qed.

Lemma globalStiffnessMatrix_cols (e : Member3DElement.t) (kG : Matrix.t) (c i : nat) :
  constructed e -> Member3DElement.globalStiffnessMatrix e = Ok kG ->
  (c < 3)%nat -> (i < 12)%nat ->
  Matrix.get kG i c + Matrix.get kG i (c + 6) = 0.
Proof.
  intros He HkG Hc Hi.
  rewrite (globalStiffnessMatrix_sym e kG i c), (globalStiffnessMatrix_sym e kG i (c + 6))
    by (done || lia).
  by apply (globalStiffnessMatrix_rows e).
Qed.

Lemma dofIndex_mod (iIndex jIndex q : nat) :
  (q < 12)%nat -> (dofIndex iIndex jIndex q mod 6 = q mod 6)%nat.
Proof.
  intros Hq. rewrite dofIndex_spec by done. destruct (decide (q < 6)%nat).
  - rewrite Nat.add_comm. apply Nat.Div0.mod_add.
  - rewrite Nat.add_comm, Nat.Div0.mod_add.
    replace q with (q - 6 + 1 * 6)%nat at 2 by lia.
    by rewrite Nat.Div0.mod_add.
Qed.

(** The contribution of an element maps a rigid translation to zero. *)
Lemma scatter_translation (n iIndex jIndex : nat) (kG : Matrix.t) (c r : nat) :
  (iIndex < n)%nat -> (jIndex < n)%nat -> (c < 3)%nat ->
  (forall i, (i < 12)%nat -> Matrix.get kG i c + Matrix.get kG i (c + 6) = 0) ->
  Rsum (n * 6) (fun s => scatter (dofIndex iIndex jIndex) kG r s * translation c s) = 0.
Proof.
  intros Hi Hj Hc HkG. unfold scatter.
  set (dm := dofIndex iIndex jIndex).
  transitivity (Rsum 12 (fun p => Rsum 12 (fun q =>
    if decide (dm p = r) then Matrix.get kG p q * translation c (dm q) else 0))).
  { transitivity (Rsum (n * 6) (fun s => Rsum 12 (fun p => Rsum 12 (fun q =>
      (if decide (dm p = r /\ dm q = s) then Matrix.get kG p q else 0)
      * translation c s)))).
    { apply Rsum_ext. intros s Hs. rewrite <- Rsum_scal_r.
      apply Rsum_ext. intros p Hp. by rewrite <- Rsum_scal_r. }
    rewrite Rsum_swap. apply Rsum_ext. intros p Hp.
    rewrite Rsum_swap. apply Rsum_ext. intros q Hq.
    rewrite (Rsum_single (n * 6) (dm q)).
    - decide_cases; lra.
    - unfold dm. by apply dofIndex_lt.
    - intros s Hs Hne. decide_cases; lra. }
  apply Rsum_zero. intros p Hp. destruct (decide (dm p = r)); [|by apply Rsum_zero].
  transitivity (Rsum 12 (fun q =>
    Matrix.get kG p q * (if (q mod 6 =? c)%nat then 1 else 0))).
  { apply Rsum_ext. intros q Hq. unfold translation, dm.
    by rewrite dofIndex_mod. }
  pose proof (HkG p Hp) as Hpc.
  below c;
    cbn [Rsum Nat.add Nat.modulo Nat.divmod Nat.eqb fst snd Nat.sub] in *;
    lra.
Qed.

(** The assembled matrix is symmetric and maps the three rigid translations
    to zero. *)
Lemma assemble_translation (a : Analyzer.t) :
  analyzer_ok a ->
  exists K, Analyzer.assembleGlobalStiffnessMatrix a = Ok K
    /\ wf K /\ Matrix.rows K = Analyzer.numDOF a /\ Matrix.cols K = Analyzer.numDOF a
    /\ (forall i j, Matrix.get K i j = Matrix.get K j i)
    /\ forall c r, (c < 3)%nat ->
         Rsum (Analyzer.numDOF a) (fun s => Matrix.get K r s * translation c s) = 0.
Proof.
  intros Hok.
  destruct (assemble_inv a
    (fun K => (forall i j, Matrix.get K i j = Matrix.get K j i)
              /\ forall c r, (c < 3)%nat ->
                   Rsum (Analyzer.numDOF a)
                     (fun s => Matrix.get K r s * translation c s) = 0) Hok)
    as (K & HK & Hw & Hr & Hc & Hsym & Htr).
  - split.
    + intros i j. by rewrite !get_zeros.
    + intros c r Hc. apply Rsum_zero. intros s Hs. rewrite get_zeros. lra.
  - intros K K' e kG i j [Hsym Htr] _ _ _ _ He HkG Hi Hj _ _ _ Hg. split.
    + intros r s. rewrite !Hg, (Hsym r s). f_equal. apply scatter_sym.
      intros p q Hp Hq. by apply (globalStiffnessMatrix_sym e).
    + intros c r Hc'.
      transitivity (Rsum (Analyzer.numDOF a) (fun s => Matrix.get K r s * translation c s)
                    + Rsum (Analyzer.numDOF a)
                        (fun s => scatter (dofIndex i j) kG r s * translation c s)).
      { rewrite <- Rsum_plus. apply Rsum_ext. intros s Hs. rewrite Hg. ring. }
      rewrite Htr by done. destruct Hok as (Hn & _). rewrite Hn.
      rewrite scatter_translation; [lra|done..|].
      intros p Hp. by apply (globalStiffnessMatrix_cols e).
  - by exists K.
Qed.

Lemma mod6_offset (n r : nat) : (r < 6)%nat -> ((n * 6 + r) mod 6 = r)%nat.
Proof.
  intros H. rewrite Nat.add_comm, Nat.Div0.mod_add. by apply Nat.mod_small.
Qed.

(** A sum over all degrees of freedom weighted by a translation is the sum
    over the nodes of the component [c]. *)
Lemma Rsum_translation (n c : nat) (g : nat -> R) :
  (c < 6)%nat ->
  Rsum (n * 6) (fun s => g s * translation c s) = Rsum n (fun i => g (i * 6 + c)%nat).
Proof.
  intros Hc. induction n as [|n IH]; [done|].
  replace (Datatypes.S n * 6)%nat
    with (Datatypes.S (Datatypes.S (Datatypes.S (Datatypes.S (Datatypes.S
            (Datatypes.S (n * 6))))))) by lia.
  cbn [Rsum]. rewrite IH. unfold translation.
  replace (Datatypes.S (n * 6)) with (n * 6 + 1)%nat by lia.
  replace (Datatypes.S (n * 6 + 1)) with (n * 6 + 2)%nat by lia.
  replace (Datatypes.S (n * 6 + 2)) with (n * 6 + 3)%nat by lia.
  replace (Datatypes.S (n * 6 + 3)) with (n * 6 + 4)%nat by lia.
  replace (Datatypes.S (n * 6 + 4)) with (n * 6 + 5)%nat by lia.
  replace (n * 6)%nat with (n * 6 + 0)%nat at 2 3 by lia.
  rewrite !mod6_offset by lia.
  below c; cbn [Nat.eqb]; rewrite ?Nat.add_0_r; lra.
Qed.

(** ** Equilibrium of the translations *)

Lemma Rsum_list_app (l1 l2 : list R) :
  Rsum_list (l1 ++ l2) = Rsum_list l1 + Rsum_list l2.
Proof.
  induction l1 as [|x l1 IH]; simpl; [lra|]. unfold Rsum_list in *. simpl.
  rewrite IH. lra.
Qed.

Lemma Rsum_list_imap {A B : Type} (f : B -> R) (g : nat -> A -> B) (h : nat -> R)
    (l : list A) :
  (forall i x, l !! i = Some x -> f (g i x) = h i) ->
  Rsum_list (map f (imap g l)) = Rsum (length l) h.
Proof.
  induction l as [|x l IH] using rev_ind; intros H; [done|].
  rewrite imap_app, map_app, Rsum_list_app, length_app, Nat.add_comm. simpl.
  rewrite IH.
  - rewrite Nat.add_0_r. rewrite (H (length l) x); [unfold Rsum_list; simpl; lra|].
    by rewrite lookup_app_r, Nat.sub_diag by lia.
  - intros i y Hi. apply H. by rewrite lookup_app_l by (by eapply lookup_lt_Some).
Qed.

Lemma component_reaction (a : Analyzer.t) (D reactions : list R) (c : nat) :
  (c < 6)%nat ->
  Rsum_list (map (fun nr => component (NodeResult.reaction nr) c)
               (Analyzer.extractNodeResults a D reactions))
  = Rsum (length (StanalModel.nodes (Analyzer.model a)))
      (fun i => vget reactions (i * 6 + c)).
Proof.
  intros Hc. unfold Analyzer.extractNodeResults. apply Rsum_list_imap.
  intros i node _. below c; simpl; rewrite ?Nat.add_0_r; done.
Qed.

Lemma component_displacement (a : Analyzer.t) (D reactions : list R) (c : nat) :
  (c < 6)%nat ->
  Rsum_list (map (fun nr => component (NodeResult.displacement nr) c)
               (Analyzer.extractNodeResults a D reactions))
  = Rsum (length (StanalModel.nodes (Analyzer.model a)))
      (fun i => vget D (i * 6 + c)).
Proof.
  intros Hc. unfold Analyzer.extractNodeResults. apply Rsum_list_imap.
  intros i node _. below c; simpl; rewrite ?Nat.add_0_r; done.
Qed.

(** [K * D] has no resultant in the three global translations. *)
Lemma stiffness_resultant (a : Analyzer.t) (K : Matrix.t) (D : nat -> R) (c : nat) :
  analyzer_ok a ->
  Analyzer.assembleGlobalStiffnessMatrix a = Ok K ->
  (c < 3)%nat ->
  Rsum (length (StanalModel.nodes (Analyzer.model a)))
    (fun i => matVec (Analyzer.numDOF a) K D (i * 6 + c)) = 0.
Proof.
  intros Hok HK Hc.
  destruct (assemble_translation a Hok) as (K' & HK' & _ & _ & _ & Hsym & Htr).
  rewrite HK in HK'. injection HK' as <-.
  destruct Hok as (Hn & _). unfold matVec.
  rewrite Rsum_swap. apply Rsum_zero. intros s Hs. rewrite Rsum_scal_r.
  rewrite <- (Rsum_translation _ c (fun r => Matrix.get K r s)) by lia.
  rewrite <- Hn.
  rewrite (Rsum_ext _ _ (fun r => Matrix.get K s r * translation c r))
    by (intros; by rewrite (Hsym s)).
  rewrite Htr by done. lra.
Qed.

(** C2, as far as it holds: when [analyze] succeeds, in each of the three
    global translation directions the entries of the combined load vector [P]
    (the factor-weighted applied nodal loads minus the fixed-end reactions)
    and the reactions [K * D - P] of the result add up to zero over the
    nodes. *)
Theorem translational_equilibrium
    (model : StanalModel.t) (a : Analyzer.t) (name : string) :
  Analyzer.new model = Ok a ->
  AnalysisResult.success (Analyzer.analyzeResult a name) = true ->
  exists combo P,
    Analyzer.findCombination a name = Some combo
    /\ Analyzer.combinedLoadVector a combo = Ok P
    /\ forall c, (c < 3)%nat ->
         Rsum (length (StanalModel.nodes (Analyzer.model a)))
           (fun i => vget P (i * 6 + c))
         + Rsum_list
             (map (fun nr => component (NodeResult.reaction nr) c)
                (AnalysisResult.nodes (Analyzer.analyzeResult a name)))
         = 0.
Proof.
  intros Hnew Hsucc. destruct (new_ok model a Hnew) as [_ Hok].
  destruct (analyzeResult_cases a name Hok)
    as [[_ Hr]|(combo & K & P & Hcombo & HK & HP & HlP & Hcase)].
  { rewrite Hr in Hsucc. done. }
  exists combo, P. do 2 (split; [done|]).
  destruct Hcase as [(msg & _ & Hr)|(D1 & reactions & _ & Hrest)].
  { rewrite Hr in Hsucc. done. }
  cbv zeta in Hrest. destruct Hrest as (_ & HlR & HgR & ->).
  intros c Hc. cbn [AnalysisResult.nodes].
  rewrite component_reaction by lia. rewrite <- Rsum_plus.
  rewrite <- (stiffness_resultant a K
                (vget (Matrix.setVector (replicate (Analyzer.numDOF a) 0)
                         (Analyzer.freeDOF a) D1)) c Hok HK Hc).
  apply Rsum_ext. intros i Hi. rewrite HgR; [lra|].
  destruct Hok as (Hn & _). rewrite Hn. lia.
Qed.

(** ** Unsupported structures *)

Lemma solve_no_unknown (A : Matrix.t) (b : list R) :
  Matrix.rows A = 0%nat -> Matrix.cols A = 0%nat -> length b = 0%nat ->
  Matrix.solve A b = Throw "Cannot read properties of undefined (reading '-1')".
Proof.
  intros Hr Hc Hl. unfold Matrix.solve. rewrite Hr, Hc, Hl. reflexivity.
Qed.

Lemma Rsum_list_nth (h : nat -> R) (l : list nat) :
  Rsum (length l) (fun f => h (nth f l O)) = Rsum_list (map h l).
Proof.
  induction l as [|x l IH] using rev_ind; [done|].
  rewrite length_app, Nat.add_comm, map_app, Rsum_list_app. simpl.
  rewrite <- IH, app_nth2, Nat.sub_diag by lia. simpl.
  unfold Rsum_list. simpl. rewrite Rplus_0_r. f_equal.
  apply Rsum_ext. intros f Hf. by rewrite app_nth1.
Qed.

Lemma Rsum_S (n : nat) (f : nat -> R) : Rsum (Datatypes.S n) f = Rsum n f + f n.
Proof. reflexivity. Qed.

(** A sum over the free degrees of freedom, node by node. *)
Lemma classify_sum (nodes : list Node.t) (supportMap : gmap string Support.t)
    (h : nat -> R) :
  Rsum_list (map h (Analyzer.classify nodes supportMap).1)
  = Rsum (length nodes) (fun i => Rsum 6 (fun j =>
      if constraintAt nodes supportMap i j then 0 else h (i * 6 + j)%nat)).
Proof.
  unfold Analyzer.classify.
  apply (ForEach_inv (fun idx (s : list nat * list nat) =>
    Rsum_list (map h s.1)
    = Rsum idx (fun i => Rsum 6 (fun j =>
        if constraintAt nodes supportMap i j then 0 else h (i * 6 + j)%nat)))).
  - done.
  - intros k node [free fixed] Hk IH. cbn [fst] in IH.
    rewrite (Rsum_S k), <- IH.
    assert (Hc : forall j, constraintAt nodes supportMap k j
                 = nth j (Analyzer.constraintsOf (supportMap !! Node.id node)) false).
    { intros j. unfold constraintAt. by rewrite Hk. }
    set (cs := Analyzer.constraintsOf (supportMap !! Node.id node)) in *.
    for_ind (fun c (s : list nat * list nat) =>
      Rsum_list (map h s.1)
      = Rsum_list (map h free)
        + Rsum c (fun j =>
            if constraintAt nodes supportMap k j then 0 else h (k * 6 + j)%nat)).
    + lia.
    + simpl. lra.
    + intros c [free' fixed'] Hc6 IH'. cbn [fst] in *. rewrite (Rsum_S c).
      rewrite Hc. destruct (nth c cs false); cbn [fst].
      * rewrite IH'. lra.
      * rewrite map_app, Rsum_list_app, IH'. unfold Rsum_list. simpl. lra.
Qed.

Lemma classify_nil (supportMap : gmap string Support.t) :
  Analyzer.classify [] supportMap = ([], []).
Proof. reflexivity. Qed.




(** ** Scaling the right-hand side of solve *)

Lemma vget_scaleVec (s : R) (v : list R) (i : nat) :
  vget (scaleVec s v) i = s * vget v i.
Proof.
  unfold vget, scaleVec. rewrite <- (Rmult_0_r s) at 1. apply map_nth.
Qed.

Lemma length_scaleVec (s : R) (v : list R) : length (scaleVec s v) = length v.
Proof. apply length_map. Qed.

Lemma insert_scaleVec (s : R) (v : list R) (i : nat) (x y : R) :
  y = s * x -> <[i := y]> (scaleVec s v) = scaleVec s (<[i := x]> v).
Proof. intros ->. unfold scaleVec. symmetry. apply (list_fmap_insert (Rmult s)). Qed.

Lemma scaleVec_replicate (s : R) (n : nat) :
  scaleVec s (replicate n 0) = replicate n 0.
Proof.
  unfold scaleVec. change (map (Rmult s)) with (fmap (M := list) (Rmult s)).
  rewrite fmap_replicate. by rewrite Rmult_0_r.
Qed.

(** Two runs of a loop whose states are related before every pass are
    related at the end. *)
Lemma For_rel {S S' : Type} (Rel : S -> S' -> Prop) (lo hi : nat)
    (body : nat -> S -> S) (body' : nat -> S' -> S') (s : S) (s' : S') :
  Rel s s' ->
  (forall i t t', (lo <= i < hi)%nat -> Rel t t' -> Rel (body i t) (body' i t')) ->
  Rel (For lo hi body s) (For lo hi body' s').
Proof.
  intros H0 Hstep. destruct (decide (lo <= hi)%nat) as [Hle|Hgt].
  - apply (For_ind (fun i t => Rel t (For lo i body' s')) lo hi body s Hle).
    + by rewrite For_empty.
    + intros i t Hi Ht. rewrite For_S by lia. by apply Hstep.
  - by rewrite !For_empty by lia.
Qed.

Lemma for_down_rel {S S' : Type} (Rel : S -> S' -> Prop) (hi : nat)
    (body : nat -> S -> S) (body' : nat -> S' -> S') (s : S) (s' : S') :
  Rel s s' ->
  (forall i t t', (i < hi)%nat -> Rel t t' -> Rel (body i t) (body' i t')) ->
  Rel (for_down hi body s) (for_down hi body' s').
Proof.
  revert s s'. induction hi as [|hi IH]; intros s s' H0 Hstep; [done|].
  simpl. apply IH.
  - apply Hstep; [lia|done].
  - intros i t t' Hi. apply Hstep. lia.
Qed.


Lemma swapEntries_scale (s : R) (x : list R) (k p : nat) :
  Matrix.swapEntries (scaleVec s x) k p = scaleVec s (Matrix.swapEntries x k p).
Proof.
  unfold Matrix.swapEntries.
  rewrite (insert_scaleVec s x k (vget x p)) by apply vget_scaleVec.
  apply insert_scaleVec, vget_scaleVec.
Qed.

Lemma eliminate_scale (s : R) (n k : nat) (akk : R) (A : Matrix.t) (x : list R) :
  Matrix.eliminate n k akk (A, scaleVec s x)
  = ((Matrix.eliminate n k akk (A, x)).1,
     scaleVec s (Matrix.eliminate n k akk (A, x)).2).
Proof.
  unfold Matrix.eliminate.
  apply (For_rel (fun (t t' : Matrix.t * list R) =>
                    t = (t'.1, scaleVec s t'.2))); [done|].
  intros i [A1 x1] [A2 x2] _ [= -> ->]. cbn [fst snd]. f_equal.
  apply insert_scaleVec. rewrite !vget_scaleVec. ring.
Qed.

Lemma solveStep_scale (s : R) (n k : nat) (A : Matrix.t) (x : list R) :
  Matrix.solveStep n k (A, scaleVec s x)
  = mapResult (fun Ax => (Ax.1, scaleVec s Ax.2)) (Matrix.solveStep n k (A, x)).
Proof.
  unfold Matrix.solveStep. destruct (Matrix.findPivot A n k) as [maxVal p].
  destruct (negb (p =? k)%nat).
  - rewrite swapEntries_scale. destruct (Rlt_dec _ _); [done|].
    cbn [mapResult]. by rewrite eliminate_scale.
  - destruct (Rlt_dec _ _); [done|]. cbn [mapResult]. by rewrite eliminate_scale.
Qed.

Lemma solveLoop_scale (s : R) (n cnt lo : nat) (A : Matrix.t) (x : list R) :
  for_loopE cnt lo (Matrix.solveStep n) (A, scaleVec s x)
  = mapResult (fun Ax => (Ax.1, scaleVec s Ax.2))
      (for_loopE cnt lo (Matrix.solveStep n) (A, x)).
Proof.
  revert lo A x. induction cnt as [|cnt IH]; intros lo A x; [done|].
  cbn [for_loopE]. rewrite solveStep_scale.
  destruct (Matrix.solveStep n lo (A, x)) as [[A1 x1]|msg]; [|done].
  cbn [mapResult bind fst snd]. apply IH.
Qed.

Lemma backSubstitute_scale (s : R) (A : Matrix.t) (n : nat) (x : list R) :
  Matrix.backSubstitute A n (scaleVec s x) = scaleVec s (Matrix.backSubstitute A n x).
Proof.
  unfold Matrix.backSubstitute.
  apply (for_down_rel (fun t t' : list R => t = scaleVec s t')); [done|].
  intros i t t' _ ->.
  assert (Hin : For (i + 1) n (fun j x0 =>
                  <[i := vget x0 i - Matrix.get A i j * vget x0 j]> x0) (scaleVec s t')
                = scaleVec s (For (i + 1) n (fun j x0 =>
                    <[i := vget x0 i - Matrix.get A i j * vget x0 j]> x0) t')).
  { apply (For_rel (fun u u' : list R => u = scaleVec s u')); [done|].
    intros j u u' _ ->. apply insert_scaleVec. rewrite !vget_scaleVec. ring. }
  cbv zeta. rewrite Hin. apply insert_scaleVec. rewrite vget_scaleVec.
  unfold Rdiv. ring.
Qed.

(** [solve] is linear in the right-hand side: the pivots do not depend on
    it. *)
Lemma solve_scale (s : R) (A : Matrix.t) (b : list R) :
  Matrix.solve A (scaleVec s b) = mapResult (scaleVec s) (Matrix.solve A b).
Proof.
  unfold Matrix.solve. rewrite length_scaleVec.
  destruct (negb (Matrix.rows A =? Matrix.cols A)%nat); [done|].
  destruct (negb (Matrix.rows A =? length b)%nat); [done|].
  unfold ForE. rewrite solveLoop_scale.
  destruct (for_loopE _ _ _ _) as [[A1 x1]|msg]; [|done].
  cbn [mapResult bind fst snd].
  destruct (Matrix.rows A =? 0)%nat; [done|].
  destruct (Rlt_dec _ _); [done|]. cbn [mapResult].
  by rewrite backSubstitute_scale.
Qed.



(** ** Scaling the results *)


Lemma length_caseVector (a : Analyzer.t) (caseName : string) :
  analyzer_ok a -> length (caseVector a caseName) = Analyzer.numDOF a.
Proof.
  intros Hok. unfold caseVector.
  destruct (Analyzer.findLoadCase a caseName) as [lc|];
    [|by rewrite length_replicate].
  by destruct (assembleLoadVector_ok a lc Hok) as (P & -> & HP).
Qed.

(** The load vector of a combination of one case is the vector of the case
    times the factor. *)
Lemma combinedLoadVector_single (a : Analyzer.t) (combo : LoadCombination.t)
    (caseName : string) (factor : R) :
  analyzer_ok a ->
  LoadCombination.factors combo = [(caseName, factor)] ->
  Analyzer.combinedLoadVector a combo = Ok (scaleVec factor (caseVector a caseName)).
Proof.
  intros Hok Hf. pose proof (length_caseVector a caseName Hok) as Hlen.
  unfold Analyzer.combinedLoadVector. rewrite Hf. cbn [ForOfE].
  unfold caseVector in *.
  destruct (Analyzer.findLoadCase a caseName) as [lc|].
  - destruct (assembleLoadVector_ok a lc Hok) as (caseP & HcP & HlP).
    rewrite HcP in *. cbn [bind]. f_equal.
    destruct (For_update (Analyzer.numDOF a)
                (fun i r => r + factor * vget caseP i)
                (replicate (Analyzer.numDOF a) 0)) as [Hl Hg].
    { by rewrite length_replicate. }
    cbv zeta in Hl, Hg. apply vec_ext.
    + rewrite Hl, length_replicate, length_scaleVec. congruence.
    + intros i Hi. rewrite Hl, length_replicate in Hi.
      rewrite Hg, decide_True, vget_replicate, vget_scaleVec by done. ring.
  - cbn [bind]. by rewrite scaleVec_replicate.
Qed.















(** ** Linearity of analyze in the load vector *)




(** ** A member along the global X axis *)

(** Rewrites the lookups in a map given by its insertions. *)
Ltac map_lookup :=
  repeat first [rewrite lookup_insert_eq
               | rewrite lookup_insert_ne by done
               | rewrite lookup_empty].

Lemma sqrt_unit_h : sqrt ((1 - 0) / 1 * ((1 - 0) / 1) + (0 - 0) / 1 * ((0 - 0) / 1)) = 1.
Proof.
  replace ((1 - 0) / 1 * ((1 - 0) / 1) + (0 - 0) / 1 * ((0 - 0) / 1)) with 1 by field.
  apply sqrt_1.
Qed.

(** Without rotation the local axes of a unit member along X are the global
    axes. *)
Lemma createRotationMatrix_unit_x (a b : string) :
  exists Rm, createRotationMatrix (Node.mk a 0 0 0) (Node.mk b 1 0 0) 0 = Ok Rm
    /\ forall i j, (i < 3)%nat -> (j < 3)%nat ->
         Matrix.get Rm i j = if (i =? j)%nat then 1 else 0.
Proof.
  unfold createRotationMatrix. cbn [Node.x Node.y Node.z].
  rewrite sqrt_unit_x.
  destruct (Rlt_dec 1 1e-10) as [Hlt|_]; [lra|].
  rewrite sqrt_unit_h.
  destruct (Rlt_dec 1 1e-10) as [Hlt|_]; [lra|].
  destruct (Rgt_dec (Rabs 0) 1e-10) as [Hgt|_]; [rewrite Rabs_R0 in Hgt; lra|].
  eexists. split; [reflexivity|].
  intros i j Hi Hj.
  match goal with
  | |- Matrix.get (Matrix.transpose (Matrix.fromArray ?arr)) _ _ = _ =>
      destruct (fromArray_spec arr) as (Hw & Hr & Hc & Hg);
      destruct (transpose_spec (Matrix.fromArray arr) Hw) as (_ & _ & _ & Hg')
  end.
  cbv zeta in Hr, Hc, Hg. cbn [length nth] in Hr, Hc, Hg.
  rewrite Hg' by (rewrite ?Hr, ?Hc; done). rewrite Hg by done.
  below i; below j; unfold vget; cbn [nth Nat.eqb]; lra.
Qed.

Lemma transformationMatrix_unit_x (e : Member3DElement.t) (a b : string) :
  constructed e ->
  Member3DElement.iNode e = Node.mk a 0 0 0 ->
  Member3DElement.jNode e = Node.mk b 1 0 0 ->
  Member3DElement.rotation e = 0 ->
  exists T, Member3DElement.transformationMatrix e = Ok T
    /\ forall i j, (i < 12)%nat -> (j < 12)%nat ->
         Matrix.get T i j = if (i =? j)%nat then 1 else 0.
Proof.
  intros [HL Hpos] Hi Hj Hrot. unfold Member3DElement.transformationMatrix.
  rewrite Hi, Hj, Hrot in *. cbn [Node.x Node.y Node.z] in *.
  destruct (createTransformationMatrix_spec (Node.mk a 0 0 0) (Node.mk b 1 0 0) 0)
    as (Rm & T & HRm & HT & _ & _ & _ & Hb).
  { cbn [Node.x Node.y Node.z]. by rewrite <- HL. }
  destruct (createRotationMatrix_unit_x a b) as (Rm' & HRm' & Hid).
  rewrite HRm in HRm'. injection HRm' as <-.
  exists T. split; [done|]. intros i j Hi' Hj'.
  rewrite (blockDiag_entry T Rm) by done.
  below i; below j;
    cbn [Nat.div Nat.modulo Nat.divmod Nat.eqb fst snd Nat.sub];
    try reflexivity; by rewrite Hid by lia.
Qed.

(** With the identity for [T], [T^t K T] is [K]. *)
Lemma tripleProduct_identity (T K : Matrix.t) (i j : nat) :
  (forall i j, (i < 12)%nat -> (j < 12)%nat ->
     Matrix.get T i j = if (i =? j)%nat then 1 else 0) ->
  (i < 12)%nat -> (j < 12)%nat ->
  tripleProduct T K i j = Matrix.get K i j.
Proof.
  intros HT Hi Hj. unfold tripleProduct.
  rewrite (Rsum_single 12 j); [|done|].
  - rewrite (Rsum_single 12 i); [|done|].
    + rewrite !HT, !Nat.eqb_refl by done. ring.
    + intros k Hk Hne. rewrite (HT k i) by done.
      destruct (Nat.eqb_spec k i); [done|ring].
  - intros l Hl Hne. rewrite (HT l j) by done.
    destruct (Nat.eqb_spec l j); [done|ring].
Qed.

(** The contribution of an element whose nodes have the indices 0 and 1. *)
Lemma scatter_first (kG : Matrix.t) (r s : nat) :
  (r < 12)%nat -> (s < 12)%nat ->
  scatter (dofIndex 0 1) kG r s = Matrix.get kG r s.
Proof.
  intros Hr Hs. unfold scatter.
  assert (Hdm : forall i, (i < 12)%nat -> dofIndex 0 1 i = i).
  { intros i Hi. below i; reflexivity. }
  rewrite (Rsum_single 12 r).
  - rewrite (Rsum_single 12 s).
    + rewrite !Hdm by done. by rewrite decide_True.
    + done.
    + intros j Hj Hne. rewrite !Hdm by done. rewrite decide_False; [done|].
      intros [_ ?]. done.
  - done.
  - intros i Hi Hne. apply Rsum_zero. intros j Hj. rewrite !Hdm by done.
    rewrite decide_False; [done|]. intros [? _]. done.
Qed.

(** A system of one equation. *)
Lemma solve_one (A : Matrix.t) (b : list R) :
  wf A -> Matrix.rows A = 1%nat -> Matrix.cols A = 1%nat -> length b = 1%nat ->
  ~ Rabs (Matrix.get A 0 0) < 1e-12 ->
  exists y, Matrix.solve A b = Ok y /\ length y = 1%nat
    /\ Matrix.get A 0 0 * vget y 0 = vget b 0.
Proof.
  intros Hw Hr Hc Hl Hpiv.
  pose proof (solve_spec 1 A b Hw Hr Hc Hl ltac:(lia)) as Hspec.
  assert (Hok : exists y, Matrix.solve A b = Ok y).
  { unfold Matrix.solve. rewrite Hr, Hc, Hl. rewrite clone_eq by done.
    cbn [Nat.eqb negb Nat.sub ForE for_loopE bind].
    destruct (Rlt_dec _ _); [done|]. by eexists. }
  destruct Hok as (y & Hy). rewrite Hy in Hspec.
  destruct Hspec as (Hly & Hsol & _). exists y. do 2 (split; [done|]).
  specialize (Hsol 0%nat ltac:(lia)). cbn [Rsum] in Hsol. lra.
Qed.

(** ** The guided beam *)

Lemma new_beam : Analyzer.new beam = Ok beamAnalyzer.
Proof.
  unfold Analyzer.new, Analyzer.initialize.
  cbn [Analyzer.model Analyzer.nodeMap Analyzer.nodeIndexMap Analyzer.materialMap
       Analyzer.sectionMap Analyzer.supportMap Analyzer.elements Analyzer.freeDOF
       Analyzer.fixedDOF].
  unfold beam.
  cbn [StanalModel.members StanalModel.nodes StanalModel.materials StanalModel.sections
       StanalModel.supports beamNodes beamSupports ForEach forEach_from ForOf foldl ForOfE
       Node.id Material.id Section_.id Support.node beamMaterial beamSection
       beamMember Member.iNode Member.jNode Member.material Member.section].
  map_lookup.
  rewrite (new_unit_x _ _ _ "N1" "N2"). cbn [bind app].
  reflexivity.
Qed.

Lemma beam_ok : analyzer_ok beamAnalyzer.
Proof. exact (proj2 (new_ok beam beamAnalyzer new_beam)). Qed.

Lemma beamElement_constructed : constructed beamElement.
Proof.
  destruct beam_ok as (_ & Hel & _). apply (Hel beamElement). by left.
Qed.

(** The stiffness matrix of the beam is the local stiffness matrix of its
    member. *)
Lemma beam_stiffness :
  exists K, Analyzer.assembleGlobalStiffnessMatrix beamAnalyzer = Ok K
    /\ wf K /\ Matrix.rows K = 12%nat /\ Matrix.cols K = 12%nat
    /\ forall r s, (r < 12)%nat -> (s < 12)%nat ->
         Matrix.get K r s
         = Matrix.get (Member3DElement.localStiffnessMatrix beamElement) r s.
Proof.
  pose proof beamElement_constructed as He.
  destruct (globalStiffnessMatrix_spec beamElement He)
    as (Rm & T & kG & HT & _ & _ & _ & _ & HkG & _ & _ & _ & Hg).
  destruct (transformationMatrix_unit_x beamElement "N1" "N2" He)
    as (T' & HT' & Hid); [done..|].
  rewrite HT in HT'. injection HT' as <-.
  unfold Analyzer.assembleGlobalStiffnessMatrix.
  cbn [Analyzer.elements beamAnalyzer ForOfE]. rewrite HkG. cbn [bind].
  cbn [Analyzer.nodeIndexMap beamElement Member3DElement.iNode
       Member3DElement.jNode Node.id].
  map_lookup. cbn [bind Analyzer.numDOF].
  destruct (scatter_loop (Matrix.zeros 12 12) (dofIndex 0 1) kG)
    as (Hw & Hr & Hc & Hget).
  { apply wf_new. }
  { intros i Hi. cbn [Matrix.rows Matrix.cols Matrix.zeros Matrix.new].
    below i; cbn; lia. }
  cbv zeta in Hw, Hr, Hc, Hget. eexists. split; [reflexivity|].
  split; [exact Hw|]. split; [exact Hr|]. split; [exact Hc|].
  intros r s Hr' Hs'. unfold dofIndex in Hget. rewrite Hget.
  rewrite get_zeros. fold (dofIndex 0 1).
  rewrite scatter_first, Hg, tripleProduct_identity by done. lra.
Qed.

(** ** The analysis of the guided beam *)

Lemma beam_length : Member3DElement.length beamElement = 1.
Proof. apply sqrt_unit_x. Qed.

(** Column 7 of the local stiffness matrix of the member. *)
Lemma beam_column (i : nat) :
  (i < 12)%nat ->
  Matrix.get (Member3DElement.localStiffnessMatrix beamElement) i 7
  = match i with
    | 1%nat => -12
    | 5%nat => -6
    | 7%nat => 12
    | 11%nat => -6
    | _ => 0
    end.
Proof.
  intros Hi.
  below i; unfold Matrix.get; simpl; rewrite ?sqrt_unit_x; lra.
Qed.

Lemma beam_case_loads :
  exists P, Analyzer.assembleLoadVector beamAnalyzer beamCase = Ok P
    /\ length P = 12%nat
    /\ forall i, vget P i = if (i =? 7)%nat then 12 else 0.
Proof.
  unfold Analyzer.assembleLoadVector.
  cbn [Analyzer.elements beamAnalyzer ForOfE beamCase LoadCase.nodeLoads
       LoadCase.memberLoads ForOf foldl NodeLoad.node NodeLoad.direction
       NodeLoad.magnitude Analyzer.nodeIndexMap Analyzer.numDOF].
  rewrite (fixedEndReactions_no_load _ beamElement_constructed).
  cbn [bind beamElement Member3DElement.iNode Member3DElement.jNode Node.id].
  map_lookup.
  eexists. split; [reflexivity|]. split; [reflexivity|].
  intros i.
  do 12 (destruct i as [|i];
         [cbv - [Rplus Rminus Rmult Rdiv Ropp Rinv IZR]; lra|]).
  cbv - [Rplus Rminus Rmult Rdiv Ropp Rinv IZR]. by destruct i.
Qed.

Lemma beam_combination_once :
  Analyzer.findCombination beamAnalyzer "C1" = Some beamOnce.
Proof. reflexivity. Qed.

Lemma beam_combination_twice :
  Analyzer.findCombination beamAnalyzer "C2" = Some beamTwice.
Proof. reflexivity. Qed.

Lemma beam_loads :
  exists P, Analyzer.combinedLoadVector beamAnalyzer beamOnce = Ok P
    /\ forall i, vget P i = if (i =? 7)%nat then 12 else 0.
Proof.
  eexists. split.
  - by apply (combinedLoadVector_single beamAnalyzer beamOnce "A" 1 beam_ok).
  - intros i. rewrite vget_scaleVec. unfold caseVector.
    change (Analyzer.findLoadCase beamAnalyzer "A") with (Some beamCase).
    destruct beam_case_loads as (P & -> & _ & HP). rewrite HP.
    destruct (i =? 7)%nat; lra.
Qed.

(** The analysis of the beam for the combination [C1] succeeds; the
    displacement of [N2] in Y is 1 and the reactions are column 7 of the
    stiffness matrix minus the loads. *)
Lemma beam_result :
  exists P D reactions members,
    Analyzer.combinedLoadVector beamAnalyzer beamOnce = Ok P
    /\ (forall i, vget P i = if (i =? 7)%nat then 12 else 0)
    /\ (forall i, (i < 12)%nat ->
          vget reactions i
          = Matrix.get (Member3DElement.localStiffnessMatrix beamElement) i 7
            - vget P i)
    /\ Analyzer.analyzeResult beamAnalyzer "C1"
       = AnalysisResult.mk true None "C1"
           (Analyzer.extractNodeResults beamAnalyzer D reactions) members
           (Analyzer.computeSummary
              (Analyzer.extractNodeResults beamAnalyzer D reactions) members).
Proof.
  destruct beam_loads as (P & HP & HgP).
  destruct beam_stiffness as (K & HK & HwK & HrK & HcK & HgK).
  destruct (analyzeResult_cases beamAnalyzer "C1" beam_ok)
    as [[Hnone _]|(combo & K' & P' & Hcombo & HK' & HP' & HlP & Hcase)].
  { by rewrite beam_combination_once in Hnone. }
  rewrite beam_combination_once in Hcombo. injection Hcombo as <-.
  rewrite HK in HK'. injection HK' as <-.
  rewrite HP in HP'. injection HP' as <-.
  change (Analyzer.freeDOF beamAnalyzer) with [7%nat] in Hcase.
  change (Analyzer.numDOF beamAnalyzer) with 12%nat in Hcase.
  destruct (subMatrix_spec K [7%nat] [7%nat]) as (Hw11 & Hr11 & Hc11 & Hg11).
  cbv zeta in Hw11, Hr11, Hc11, Hg11. cbn [length] in Hr11, Hc11, Hg11.
  assert (H77 : Matrix.get (Matrix.subMatrix K [7%nat] [7%nat]) 0 0 = 12).
  { rewrite Hg11 by lia. cbn [nth]. rewrite HgK by lia. by rewrite beam_column by lia. }
  destruct (solve_one (Matrix.subMatrix K [7%nat] [7%nat])
              (Matrix.extractVector P [7%nat]) Hw11 Hr11 Hc11)
    as (y & Hy & Hly & Hsol).
  { reflexivity. }
  { rewrite H77, Rabs_pos_eq by lra. lra. }
  rewrite Hy in Hcase.
  destruct Hcase as [(msg & Hthrow & _)|(D1 & reactions & [= <-] & Hrest)]; [done|].
  cbv zeta in Hrest. destruct Hrest as (_ & _ & HgR & Hres).
  rewrite H77 in Hsol. unfold Matrix.extractVector in Hsol. cbn [map] in Hsol.
  change (vget [vget P 7] 0) with (vget P 7) in Hsol. rewrite HgP in Hsol.
  cbn [Nat.eqb] in Hsol.
  assert (Hy0 : vget y 0 = 1) by lra.
  exists P. eexists. exists reactions. eexists.
  split; [done|]. split; [done|]. split; [|exact Hres].
  intros i Hi. rewrite HgR by done. f_equal. unfold matVec.
  rewrite (Rsum_single 12 7); [|lia|].
  - rewrite HgK by lia.
    unfold Matrix.setVector. cbn [length For for_loop Nat.sub nth].
    rewrite vget_insert by (rewrite length_replicate; lia).
    rewrite decide_True by done. rewrite Hy0. ring.
  - intros j Hj Hne. unfold Matrix.setVector. cbn [length For for_loop Nat.sub nth].
    rewrite vget_insert_ne by done. rewrite vget_replicate. ring.
Qed.

(** ** The guided beam: symmetry, equilibrium and linearity *)

Lemma beam_success :
  AnalysisResult.success (Analyzer.analyzeResult beamAnalyzer "C1") = true.
Proof.
  destruct beam_result as (P & D & reactions & members & _ & _ & _ & ->). done.
Qed.

(** The stiffness matrix of the guided beam is symmetric. *)
Lemma assembleGlobalStiffnessMatrix_symmetric_witness :
  exists K, Analyzer.assembleGlobalStiffnessMatrix beamAnalyzer = Ok K
    /\ Matrix.rows K = Analyzer.numDOF beamAnalyzer
    /\ Matrix.cols K = Analyzer.numDOF beamAnalyzer
    /\ forall i j, (i < Analyzer.numDOF beamAnalyzer)%nat ->
         (j < Analyzer.numDOF beamAnalyzer)%nat ->
         Matrix.get K i j = Matrix.get K j i.
Proof.
  apply (assembleGlobalStiffnessMatrix_symmetric beam beamAnalyzer).
  exact new_beam.
Defined.

(** The forces on the guided beam balance in X, Y and Z. *)
Lemma translational_equilibrium_witness :
  exists combo P,
    Analyzer.findCombination beamAnalyzer "C1" = Some combo
    /\ Analyzer.combinedLoadVector beamAnalyzer combo = Ok P
    /\ forall c, (c < 3)%nat ->
         Rsum (length (StanalModel.nodes (Analyzer.model beamAnalyzer)))
           (fun i => vget P (i * 6 + c))
         + Rsum_list
             (map (fun nr => component (NodeResult.reaction nr) c)
                (AnalysisResult.nodes (Analyzer.analyzeResult beamAnalyzer "C1")))
         = 0.
Proof.
  apply (translational_equilibrium beam beamAnalyzer "C1").
  - exact new_beam.
  - exact beam_success.
Defined.

(** On the guided beam no moment is applied and the reaction moments about Z
    at the two nodes are [-6] and [-6]: the Z moment components of the loads
    and of the reactions add up to [-12]. *)
Lemma beam_moment_sum :
  exists P,
    Analyzer.combinedLoadVector beamAnalyzer beamOnce = Ok P
    /\ Rsum (length (StanalModel.nodes (Analyzer.model beamAnalyzer)))
         (fun i => vget P (i * 6 + 5))
       + Rsum_list
           (map (fun nr => component (NodeResult.reaction nr) 5)
              (AnalysisResult.nodes (Analyzer.analyzeResult beamAnalyzer "C1")))
       = -12.
Proof.
  destruct beam_result as (P & D & reactions & members & HP & HgP & HgR & ->).
  exists P. split; [done|].
  cbn [AnalysisResult.nodes]. rewrite component_reaction by lia.
  cbn [Analyzer.model beamAnalyzer beam StanalModel.nodes beamNodes length
       Rsum Nat.mul Nat.add].
  rewrite !HgR, !HgP, !beam_column by lia. cbn [Nat.eqb]. lra.
Qed.

(** C2 fails for the moments: the analysis of the guided beam for the
    combination [C1] succeeds, and the Z moment components (component 5) of
    the combined load vector and of the reactions, summed over the nodes, do
    not add up to zero. *)
Lemma moment_components_do_not_balance :
  Analyzer.new beam = Ok beamAnalyzer
  /\ AnalysisResult.success (Analyzer.analyzeResult beamAnalyzer "C1") = true
  /\ Analyzer.findCombination beamAnalyzer "C1" = Some beamOnce
  /\ exists P,
       Analyzer.combinedLoadVector beamAnalyzer beamOnce = Ok P
       /\ Rsum (length (StanalModel.nodes (Analyzer.model beamAnalyzer)))
            (fun i => vget P (i * 6 + 5))
          + Rsum_list
              (map (fun nr => component (NodeResult.reaction nr) 5)
                 (AnalysisResult.nodes (Analyzer.analyzeResult beamAnalyzer "C1")))
          <> 0.
Proof.
  split; [exact new_beam|]. split; [exact beam_success|]. split; [reflexivity|].
  destruct beam_moment_sum as (P & HP & Hsum).
  exists P. split; [done|]. rewrite Hsum. lra.
Qed.


(** ** The beam without supports, and with every degree of freedom fixed *)

(** Runs the constructor on a model with the nodes and the member of the
    beam. *)
Ltac run_constructor model :=
  unfold Analyzer.new, Analyzer.initialize;
  cbn [Analyzer.model Analyzer.nodeMap Analyzer.nodeIndexMap Analyzer.materialMap
       Analyzer.sectionMap Analyzer.supportMap Analyzer.elements Analyzer.freeDOF
       Analyzer.fixedDOF];
  unfold model;
  cbn [StanalModel.members StanalModel.nodes StanalModel.materials StanalModel.sections
       StanalModel.supports beamNodes ForEach forEach_from ForOf foldl ForOfE
       Node.id Material.id Section_.id Support.node beamMaterial beamSection
       beamMember Member.iNode Member.jNode Member.material Member.section];
  map_lookup.


Lemma new_clamped : Analyzer.new clamped = Ok clampedAnalyzer.
Proof.
  run_constructor clamped.
  rewrite (new_unit_x _ _ _ "N1" "N2"). cbn [bind app].
  reflexivity.
Qed.


(** C5, at the system without unknowns: for the 0 x 0 matrix and the empty
    right-hand side no pivot is below [1e-12], and [solve] does not return
    the empty solution: the check of the last diagonal entry reads
    [A.get(-1, -1)] and throws a [TypeError].  The system arises in [analyze]
    for a model with every degree of freedom fixed, whose analysis fails with
    that message. *)
Theorem solve_without_unknowns_throws :
  Matrix.solve (Matrix.new 0 0 0) []
  = Throw "Cannot read properties of undefined (reading '-1')"
  /\ Analyzer.new clamped = Ok clampedAnalyzer
  /\ Analyzer.freeDOF clampedAnalyzer = []
  /\ Analyzer.analyzeResult clampedAnalyzer "C1"
     = failedResult "Cannot read properties of undefined (reading '-1')" "C1".
Proof.
  split; [reflexivity|]. split; [exact new_clamped|]. split; [reflexivity|].
  destruct (new_ok clamped clampedAnalyzer new_clamped) as [_ Hok].
  destruct (analyzeResult_cases clampedAnalyzer "C1" Hok)
    as [[Hnone _]|(combo & K & P & _ & _ & _ & _ & Hcase)]; [done|].
  change (Analyzer.freeDOF clampedAnalyzer) with (@nil nat) in Hcase.
  rewrite (solve_no_unknown (Matrix.subMatrix K [] []) (Matrix.extractVector P []))
    in Hcase by reflexivity.
  destruct Hcase as [(msg & [= <-] & ->)|(D1 & reactions & Hsolve & _)]; done.
Qed.

(** ** Repeated calls of analyze *)


(** ** Members of zero length *)






(** ** Matrix.ts: the algebra of the operations *)

(** The matrix that two nested loops fill entry by entry. *)
Lemma tabulate_spec (r c : nat) (f : nat -> nat -> R) :
  let m := For 0 r (fun i result =>
             For 0 c (fun j result => Matrix.set result i j (f i j)) result)
             (Matrix.new r c 0) in
  wf m /\ Matrix.rows m = r /\ Matrix.cols m = c
  /\ forall i j, (i < r)%nat -> (j < c)%nat -> Matrix.get m i j = f i j.
Proof.
  destruct (filled_For2 r c (fun i j => i) (fun i j => j) f f _ _ _
              (filled_init (Matrix.new r c 0) _ (wf_new _ _ _)))
    as (Hw & Hr & Hc & Hg).
  - intros i j Hi Hj. simpl. done.
  - cbv zeta. do 3 (split; [done|]). intros i j Hi Hj. apply Hg. right. by exists i, j.
Qed.

Lemma identity_spec (n : nat) :
  wf (Matrix.identity n) /\ Matrix.rows (Matrix.identity n) = n
  /\ Matrix.cols (Matrix.identity n) = n
  /\ forall i j, (i < n)%nat -> (j < n)%nat ->
       Matrix.get (Matrix.identity n) i j = if (i =? j)%nat then 1 else 0.
Proof.
  unfold Matrix.identity.
  destruct (filled_For 0 n (fun i => i) (fun i => i) (fun _ => 1)
              (fun i j => if (i =? j)%nat then 1 else 0) _ _ _ ltac:(lia)
              (filled_init (Matrix.new n n 0) _ (wf_new _ _ _)))
    as (Hw & Hr & Hc & Hg).
  - intros j Hj. simpl. rewrite Nat.eqb_refl. repeat split; lia.
  - do 3 (split; [done|]). intros i j Hi Hj.
    destruct (Nat.eqb_spec i j) as [->|Hne].
    + rewrite (proj1 (Hg j j)); [by rewrite Nat.eqb_refl|]. right. exists j. lia.
    + rewrite (proj2 (Hg i j)); [by rewrite get_new|].
      intros [[]|(k & _ & -> & ->)]. done.
Qed.

Lemma plus_spec (a b : Matrix.t) :
  Matrix.rows a = Matrix.rows b -> Matrix.cols a = Matrix.cols b ->
  exists m, Matrix.plus a b = Ok m /\ wf m
    /\ Matrix.rows m = Matrix.rows a /\ Matrix.cols m = Matrix.cols a
    /\ forall i j, (i < Matrix.rows a)%nat -> (j < Matrix.cols a)%nat ->
         Matrix.get m i j = Matrix.get a i j + Matrix.get b i j.
Proof.
  intros Hr Hc. unfold Matrix.plus. rewrite Hr, Hc, !Nat.eqb_refl. cbn [negb orb].
  eexists. split; [done|]. rewrite <- Hr, <- Hc.
  apply (tabulate_spec _ _ (fun i j => Matrix.get a i j + Matrix.get b i j)).
Qed.

Lemma minus_spec (a b : Matrix.t) :
  Matrix.rows a = Matrix.rows b -> Matrix.cols a = Matrix.cols b ->
  exists m, Matrix.minus a b = Ok m /\ wf m
    /\ Matrix.rows m = Matrix.rows a /\ Matrix.cols m = Matrix.cols a
    /\ forall i j, (i < Matrix.rows a)%nat -> (j < Matrix.cols a)%nat ->
         Matrix.get m i j = Matrix.get a i j - Matrix.get b i j.
Proof.
  intros Hr Hc. unfold Matrix.minus. rewrite Hr, Hc, !Nat.eqb_refl. cbn [negb orb].
  eexists. split; [done|]. rewrite <- Hr, <- Hc.
  apply (tabulate_spec _ _ (fun i j => Matrix.get a i j - Matrix.get b i j)).
Qed.


(** X1: [multiply] throws exactly when the number of columns of the left
    matrix differs from the number of rows of the right one, with the message
    that gives the four dimensions; otherwise it returns the matrix product:
    [rows a] x [cols b], entry [(i, j)] the sum over [k] of
    [a[i][k] * b[k][j]]. *)
Theorem multiply_is_the_matrix_product (a b : Matrix.t) :
  wf a -> wf b ->
  match Matrix.multiply a b with
  | Ok m =>
      Matrix.cols a = Matrix.rows b /\ wf m
      /\ Matrix.rows m = Matrix.rows a /\ Matrix.cols m = Matrix.cols b
      /\ forall i j, (i < Matrix.rows a)%nat -> (j < Matrix.cols b)%nat ->
           Matrix.get m i j
           = Rsum (Matrix.cols a) (fun k => Matrix.get a i k * Matrix.get b k j)
  | Throw msg =>
      Matrix.cols a <> Matrix.rows b
      /\ msg = ("Cannot multiply " ++ string_of_nat (Matrix.rows a) ++ "x"
                ++ string_of_nat (Matrix.cols a) ++ " with "
                ++ string_of_nat (Matrix.rows b) ++ "x"
                ++ string_of_nat (Matrix.cols b))%string
  end.
Proof.
  intros Ha Hb. destruct (decide (Matrix.cols a = Matrix.rows b)) as [Hab|Hab].
  - destruct (multiply_spec a b Ha Hb Hab) as (m & -> & Hm). by split.
  - unfold Matrix.multiply. apply Nat.eqb_neq in Hab as Hab'. rewrite Hab'.
    cbn [negb]. done.
Qed.

(** A 2 x 2 matrix times a 2 x 1 matrix. *)
Lemma multiply_is_the_matrix_product_witness :
  let a := Matrix.mk 2 2 [[1; 2]; [3; 4]] in
  let b := Matrix.mk 2 1 [[5]; [6]] in
  match Matrix.multiply a b with
  | Ok m =>
      Matrix.cols a = Matrix.rows b /\ wf m
      /\ Matrix.rows m = Matrix.rows a /\ Matrix.cols m = Matrix.cols b
      /\ forall i j, (i < Matrix.rows a)%nat -> (j < Matrix.cols b)%nat ->
           Matrix.get m i j
           = Rsum (Matrix.cols a) (fun k => Matrix.get a i k * Matrix.get b k j)
  | Throw msg =>
      Matrix.cols a <> Matrix.rows b
      /\ msg = ("Cannot multiply " ++ string_of_nat (Matrix.rows a) ++ "x"
                ++ string_of_nat (Matrix.cols a) ++ " with "
                ++ string_of_nat (Matrix.rows b) ++ "x"
                ++ string_of_nat (Matrix.cols b))%string
  end.
Proof.
  intros a b. apply (multiply_is_the_matrix_product a b).
  - split; [reflexivity|]. repeat constructor.
  - split; [reflexivity|]. repeat constructor.
Defined.

(** ** Matrix.ts: products, the identity and the transpose *)

(** A 2 x 2 matrix given by its rows is well formed. *)
Lemma wf_2x2 (a b c d : R) : wf (Matrix.mk 2 2 [[a; b]; [c; d]]).
Proof. split; [reflexivity|]. repeat constructor. Qed.

(** X2: the product is associative: when the dimensions fit, [(a b) c] and
    [a (b c)] are both computed and are the same matrix. *)
Theorem multiply_associative (a b c : Matrix.t) :
  wf a -> wf b -> wf c ->
  Matrix.cols a = Matrix.rows b -> Matrix.cols b = Matrix.rows c ->
  exists ab bc m,
    Matrix.multiply a b = Ok ab /\ Matrix.multiply b c = Ok bc
    /\ Matrix.multiply ab c = Ok m /\ Matrix.multiply a bc = Ok m.
Proof.
  intros Ha Hb Hc Hab Hbc.
  destruct (multiply_spec a b Ha Hb Hab) as (ab & Hmab & Hwab & Hrab & Hcab & Hgab).
  destruct (multiply_spec b c Hb Hc Hbc) as (bc & Hmbc & Hwbc & Hrbc & Hcbc & Hgbc).
  destruct (multiply_spec ab c Hwab Hc) as (m & Hm & Hwm & Hrm & Hcm & Hgm);
    [congruence|].
  destruct (multiply_spec a bc Ha Hwbc) as (m' & Hm' & Hwm' & Hrm' & Hcm' & Hgm');
    [congruence|].
  exists ab, bc, m. do 3 (split; [done|]). rewrite Hm'. f_equal.
  apply matrix_ext; [done|done|congruence|congruence|].
  intros i j Hi Hj. rewrite Hrm' in Hi. rewrite Hcm', Hcbc in Hj.
  rewrite Hgm', Hgm by congruence. rewrite Hcab.
  transitivity (Rsum (Matrix.cols b) (fun k =>
    Rsum (Matrix.cols a) (fun l =>
      Matrix.get a i l * Matrix.get b l k * Matrix.get c k j))).
  - rewrite Rsum_swap. apply Rsum_ext. intros l Hl.
    rewrite Hgbc by (done || congruence). rewrite <- Rsum_scal_l.
    apply Rsum_ext. intros k Hk. ring.
  - apply Rsum_ext. intros k Hk. rewrite Hgab by done.
    rewrite <- Rsum_scal_r. done.
Qed.

(** Three 2 x 2 matrices. *)
Lemma multiply_associative_witness :
  let a := Matrix.mk 2 2 [[1; 2]; [3; 4]] in
  let b := Matrix.mk 2 2 [[0; 1]; [1; 0]] in
  let c := Matrix.mk 2 2 [[2; 0]; [0; 2]] in
  exists ab bc m,
    Matrix.multiply a b = Ok ab /\ Matrix.multiply b c = Ok bc
    /\ Matrix.multiply ab c = Ok m /\ Matrix.multiply a bc = Ok m.
Proof.
  intros a b c. apply (multiply_associative a b c).
  - apply wf_2x2.
  - apply wf_2x2.
  - apply wf_2x2.
  - reflexivity.
  - reflexivity.
Defined.

(** X3: [identity] is neutral for the product on both sides. *)
Theorem multiply_identity (a : Matrix.t) :
  wf a ->
  Matrix.multiply (Matrix.identity (Matrix.rows a)) a = Ok a
  /\ Matrix.multiply a (Matrix.identity (Matrix.cols a)) = Ok a.
Proof.
  intros Ha.
  destruct (identity_spec (Matrix.rows a)) as (Hwl & Hrl & Hcl & Hgl).
  destruct (identity_spec (Matrix.cols a)) as (Hwr & Hrr & Hcr & Hgr).
  split.
  - destruct (multiply_spec _ a Hwl Ha Hcl) as (m & -> & Hw & Hr & Hc & Hg).
    f_equal. apply matrix_ext; [done|done|congruence|done|].
    intros i j Hi Hj. rewrite Hr, Hrl in Hi. rewrite Hc in Hj.
    rewrite Hg by (rewrite ?Hrl; done). rewrite Hcl.
    rewrite (Rsum_single _ i); [|done|].
    + by rewrite Hgl, Nat.eqb_refl, Rmult_1_l.
    + intros k Hk Hne. rewrite Hgl by done.
      destruct (Nat.eqb_spec i k); [done|ring].
  - destruct (multiply_spec a _ Ha Hwr (eq_sym Hrr)) as (m & -> & Hw & Hr & Hc & Hg).
    f_equal. apply matrix_ext; [done|done|done|congruence|].
    intros i j Hi Hj. rewrite Hr in Hi. rewrite Hc, Hcr in Hj.
    rewrite Hg by (rewrite ?Hcr; done).
    rewrite (Rsum_single _ j); [|done|].
    + by rewrite Hgr, Nat.eqb_refl, Rmult_1_r.
    + intros k Hk Hne. rewrite Hgr by done.
      destruct (Nat.eqb_spec k j); [done|ring].
Qed.

(** The identity times a 2 x 2 matrix. *)
Lemma multiply_identity_witness :
  let a := Matrix.mk 2 2 [[1; 2]; [3; 4]] in
  Matrix.multiply (Matrix.identity (Matrix.rows a)) a = Ok a
  /\ Matrix.multiply a (Matrix.identity (Matrix.cols a)) = Ok a.
Proof.
  intros a. apply (multiply_identity a). apply wf_2x2.
Defined.

(** X4: transposing twice gives the matrix back, and the transpose of a
    product is the product of the transposes in reverse order. *)
Theorem transpose_laws (a b : Matrix.t) :
  wf a -> wf b -> Matrix.cols a = Matrix.rows b ->
  Matrix.transpose (Matrix.transpose a) = a
  /\ exists ab,
       Matrix.multiply a b = Ok ab
       /\ Matrix.multiply (Matrix.transpose b) (Matrix.transpose a)
          = Ok (Matrix.transpose ab).
Proof.
  intros Ha Hb Hab.
  destruct (transpose_spec a Ha) as (Hwa & Hra & Hca & Hga).
  destruct (transpose_spec b Hb) as (Hwb & Hrb & Hcb & Hgb).
  split.
  - destruct (transpose_spec _ Hwa) as (Hw2 & Hr2 & Hc2 & Hg2).
    apply matrix_ext; [done|done|congruence|congruence|].
    intros i j Hi Hj. rewrite Hr2, Hca in Hi. rewrite Hc2, Hra in Hj.
    rewrite Hg2, Hga by congruence. done.
  - destruct (multiply_spec a b Ha Hb Hab) as (ab & Hm & Hw & Hr & Hc & Hg).
    exists ab. split; [done|].
    destruct (transpose_spec ab Hw) as (Hwt & Hrt & Hct & Hgt).
    destruct (multiply_spec _ _ Hwb Hwa) as (m & -> & Hwm & Hrm & Hcm & Hgm);
      [congruence|].
    f_equal. apply matrix_ext; [done|done|congruence|congruence|].
    intros i j Hi Hj. rewrite Hrm, Hrb in Hi. rewrite Hcm, Hca in Hj.
    rewrite Hgm by congruence. rewrite Hgt, Hg by congruence.
    rewrite Hcb, Hab. apply Rsum_ext. intros k Hk.
    rewrite Hgb, Hga by congruence. ring.
Qed.

(** Two 2 x 2 matrices. *)
Lemma transpose_laws_witness :
  let a := Matrix.mk 2 2 [[1; 2]; [3; 4]] in
  let b := Matrix.mk 2 2 [[0; 1]; [1; 0]] in
  Matrix.transpose (Matrix.transpose a) = a
  /\ exists ab,
       Matrix.multiply a b = Ok ab
       /\ Matrix.multiply (Matrix.transpose b) (Matrix.transpose a)
          = Ok (Matrix.transpose ab).
Proof.
  intros a b. apply (transpose_laws a b).
  - apply wf_2x2.
  - apply wf_2x2.
  - reflexivity.
Defined.

(** ** Matrix.ts: sums, scalar multiples, arrays and index vectors *)

(** X5: for two matrices of the same dimensions, [plus] is computed and
    commutes, and [minus] undoes it: [(a + b) - b = a]. *)
Theorem plus_then_minus (a b : Matrix.t) :
  wf a ->
  Matrix.rows a = Matrix.rows b -> Matrix.cols a = Matrix.cols b ->
  exists s, Matrix.plus a b = Ok s /\ Matrix.plus b a = Ok s
    /\ Matrix.minus s b = Ok a.
Proof.
  intros Ha Hr Hc.
  destruct (plus_spec a b Hr Hc) as (s & Hs & Hws & Hrs & Hcs & Hgs).
  destruct (plus_spec b a (eq_sym Hr) (eq_sym Hc)) as (s' & Hs' & Hws' & Hrs' & Hcs' & Hgs').
  destruct (minus_spec s b) as (d & Hd & Hwd & Hrd & Hcd & Hgd); [congruence..|].
  exists s. split; [done|]. split.
  - rewrite Hs'. f_equal. apply matrix_ext; [done|done|congruence|congruence|].
    intros i j Hi Hj. rewrite Hrs' in Hi. rewrite Hcs' in Hj.
    rewrite Hgs', Hgs by congruence. ring.
  - rewrite Hd. f_equal. apply matrix_ext; [done|done|congruence|congruence|].
    intros i j Hi Hj. rewrite Hrd in Hi. rewrite Hcd in Hj.
    rewrite Hgd, Hgs by congruence. ring.
Qed.

(** Two 2 x 2 matrices. *)
Lemma plus_then_minus_witness :
  let a := Matrix.mk 2 2 [[1; 2]; [3; 4]] in
  let b := Matrix.mk 2 2 [[0; 1]; [1; 0]] in
  exists s, Matrix.plus a b = Ok s /\ Matrix.plus b a = Ok s
    /\ Matrix.minus s b = Ok a.
Proof.
  intros a b. apply (plus_then_minus a b).
  - apply wf_2x2.
  - reflexivity.
  - reflexivity.
Defined.



Lemma nth_resize (c j : nat) (row : list R) :
  (j < c)%nat -> nth j (resize c 0 row) 0 = nth j row 0.
Proof.
  intros Hj. rewrite !nth_lookup. destruct (decide (j < length row)%nat).
  - by rewrite lookup_resize by done.
  - rewrite lookup_resize_new by lia. by rewrite lookup_ge_None_2 by lia.
Qed.

(** X7: [fromArray] takes the number of columns from the first row of the
    array: [toArray] of the matrix gives every row cut or padded with zeros to
    that length; in particular an array whose rows all have the length of the
    first comes back unchanged. *)
Theorem toArray_fromArray (arr : list (list R)) :
  Matrix.toArray (Matrix.fromArray arr)
  = map (resize (length (nth 0 arr [])) 0) arr
  /\ (Forall (fun row => length row = length (nth 0 arr [])) arr ->
      Matrix.toArray (Matrix.fromArray arr) = arr).
Proof.
  destruct (fromArray_spec arr) as (Hw & Hr & Hc & Hg). cbv zeta in *.
  set (c := length (nth 0 arr [])) in *.
  assert (Hgen : Matrix.toArray (Matrix.fromArray arr) = map (resize c 0) arr).
  { unfold Matrix.toArray. rewrite map_id.
    assert (Hw' : wf (Matrix.mk (length arr) c (map (resize c 0) arr))).
    { split; [cbn [Matrix.data Matrix.rows]; by rewrite length_map|].
      cbn [Matrix.data Matrix.cols].
      apply Forall_forall. intros row [row' [-> _]]%list_elem_of_fmap.
      by rewrite length_resize. }
    pose proof (matrix_ext _ _ Hw Hw' Hr Hc) as Heq.
    rewrite Heq; [done|]. intros i j Hi Hj. rewrite Hr in Hi. rewrite Hc in Hj.
    rewrite Hg by done. unfold Matrix.get. cbn [Matrix.data].
    rewrite !(nth_lookup _ i).
    change (map (resize c 0) arr) with (resize c 0 <$> arr).
    rewrite list_lookup_fmap.
    destruct (arr !! i) as [row|] eqn:Hrow; cbn.
    - by rewrite nth_resize.
    - apply lookup_ge_None in Hrow. lia. }
  split; [done|]. intros Hrect. rewrite Hgen.
  rewrite <- (map_id arr) at 2. apply map_ext_Forall.
  eapply Forall_impl; [exact Hrect|]. intros row Hrow. cbv beta.
  rewrite <- Hrow. apply resize_all.
Qed.

(** A rectangular array comes back unchanged. *)
Lemma toArray_fromArray_witness :
  Matrix.toArray (Matrix.fromArray [[1; 2]; [3; 4]]) = [[1; 2]; [3; 4]].
Proof.
  apply (proj2 (toArray_fromArray [[1; 2]; [3; 4]])).
  repeat constructor.
Defined.

(** X8: a matrix with at least one row, or without columns, is rebuilt by
    [fromArray] from its [toArray]; a matrix without rows but with columns is
    not, since the array has no first row to take the number of columns
    from. *)
Theorem fromArray_toArray (m : Matrix.t) :
  wf m ->
  ((1 <= Matrix.rows m)%nat \/ Matrix.cols m = 0%nat ->
   Matrix.fromArray (Matrix.toArray m) = m)
  /\ (Matrix.rows m = 0%nat ->
      Matrix.fromArray (Matrix.toArray m) = Matrix.new 0 0 0).
Proof.
  intros Hw. unfold Matrix.toArray. rewrite map_id.
  destruct (fromArray_spec (Matrix.data m)) as (Hw' & Hr' & Hc' & Hg').
  cbv zeta in *. pose proof Hw as [Hlen Hrows]. split.
  - intros Hdim.
    assert (Hc : length (nth 0 (Matrix.data m) []) = Matrix.cols m).
    { destruct (decide (1 <= Matrix.rows m)%nat) as [H1|H0].
      - destruct (wf_row m 0 Hw ltac:(lia)) as (r & Hr0 & Hlr).
        by rewrite (nth_lookup_Some _ _ _ _ Hr0).
      - destruct Hdim as [?|Hc0]; [done|].
        destruct (Matrix.data m) as [|r l] eqn:Hd; [by rewrite Hc0|].
        simpl in Hlen. lia. }
    apply matrix_ext; [done|done|congruence|congruence|].
    intros i j Hi Hj. rewrite Hr' in Hi. rewrite Hc' in Hj. by rewrite Hg'.
  - intros H0. rewrite H0 in Hlen. destruct (Matrix.data m); [done|].
    simpl in Hlen. lia.
Qed.

(** A 2 x 2 matrix, and the matrix with no rows and three columns. *)
Lemma fromArray_toArray_witness :
  Matrix.fromArray (Matrix.toArray (Matrix.mk 2 2 [[1; 2]; [3; 4]]))
  = Matrix.mk 2 2 [[1; 2]; [3; 4]]
  /\ Matrix.fromArray (Matrix.toArray (Matrix.new 0 3 0)) = Matrix.new 0 0 0.
Proof.
  split.
  - apply (proj1 (fromArray_toArray (Matrix.mk 2 2 [[1; 2]; [3; 4]]) (wf_2x2 1 2 3 4))).
    left. cbn. lia.
  - apply (proj2 (fromArray_toArray (Matrix.new 0 3 0) (wf_new 0 3 0))).
    reflexivity.
Defined.

(** ** Matrix.ts: extractVector and setVector *)

Lemma NoDup_nth_ne (l : list nat) (p q : nat) :
  NoDup l -> (p < length l)%nat -> (q < length l)%nat -> p <> q ->
  nth p l O <> nth q l O.
Proof.
  intros Hnd Hp Hq Hne Heq. apply Hne.
  destruct (lookup_lt_is_Some_2 l p Hp) as [x Hx].
  destruct (lookup_lt_is_Some_2 l q Hq) as [y Hy].
  rewrite (nth_lookup_Some _ _ _ _ Hx), (nth_lookup_Some _ _ _ _ Hy) in Heq.
  subst y. by eapply NoDup_lookup.
Qed.

(** What the first [k] passes of [setVector] leave: the values at the first
    [k] indices, the old entries elsewhere. *)
Lemma setVector_loop (vec : list R) (indices : list nat) (values : list R)
    (k : nat) :
  NoDup indices ->
  Forall (fun i => (i < length vec)%nat) indices ->
  (k <= length indices)%nat ->
  let v := For 0 k (fun i vec0 => <[nth i indices O := vget values i]> vec0) vec in
  length v = length vec
  /\ (forall p, (p < k)%nat -> vget v (nth p indices O) = vget values p)
  /\ (forall i, (forall p, (p < k)%nat -> nth p indices O <> i) ->
        vget v i = vget vec i).
Proof.
  intros Hnd Hin. cbv zeta. induction k as [|k IH]; intros Hk.
  - rewrite For_empty by lia. split; [done|]. split; [intros; lia|done].
  - rewrite For_S by lia. destruct IH as (Hl & Hv & Ho); [lia|].
    set (v := For 0 k _ vec) in *.
    assert (Hlt : (nth k indices O < length v)%nat).
    { rewrite Hl. rewrite Forall_lookup in Hin.
      destruct (lookup_lt_is_Some_2 indices k ltac:(lia)) as [x Hx].
      rewrite (nth_lookup_Some _ _ _ _ Hx). by eapply Hin. }
    split; [by rewrite length_insert|]. split.
    + intros p Hp. destruct (decide (p = k)) as [->|Hne].
      * rewrite vget_insert by done. by rewrite decide_True.
      * rewrite vget_insert_ne by (apply NoDup_nth_ne; (done || lia)).
        apply Hv. lia.
    + intros i Hi. rewrite vget_insert_ne by (intros ->; by apply (Hi k); lia).
      apply Ho. intros p Hp. apply Hi. lia.
Qed.

Lemma setVector_spec (vec : list R) (indices : list nat) (values : list R) :
  NoDup indices ->
  Forall (fun i => (i < length vec)%nat) indices ->
  let v := Matrix.setVector vec indices values in
  length v = length vec
  /\ (forall p, (p < length indices)%nat -> vget v (nth p indices O) = vget values p)
  /\ (forall i, i ∉ indices -> vget v i = vget vec i).
Proof.
  intros Hnd Hin. cbv zeta. unfold Matrix.setVector.
  destruct (setVector_loop vec indices values (length indices) Hnd Hin (le_n _))
    as (Hl & Hv & Ho).
  do 2 (split; [done|]). intros i Hi. apply Ho.
  intros p Hp <-. apply Hi. apply list_elem_of_lookup. exists p.
  destruct (lookup_lt_is_Some_2 indices p Hp) as [x Hx].
  by rewrite (nth_lookup_Some _ _ _ _ Hx).
Qed.

(** X9: after [setVector] with distinct indices inside the vector,
    [extractVector] at the same indices reads the values back, the vector
    keeps its length, and the entries at other places are untouched. *)
Theorem extractVector_setVector (vec : list R) (indices : list nat)
    (values : list R) :
  NoDup indices ->
  Forall (fun i => (i < length vec)%nat) indices ->
  length values = length indices ->
  length (Matrix.setVector vec indices values) = length vec
  /\ Matrix.extractVector (Matrix.setVector vec indices values) indices = values
  /\ forall i, i ∉ indices ->
       vget (Matrix.setVector vec indices values) i = vget vec i.
Proof.
  intros Hnd Hin Hlen.
  destruct (setVector_spec vec indices values Hnd Hin) as (Hl & Hv & Ho).
  cbv zeta in *. split; [done|]. split; [|done].
  unfold Matrix.extractVector. apply vec_ext.
  - by rewrite length_map.
  - intros p Hp. rewrite length_map in Hp. rewrite <- Hv by done.
    unfold vget at 1.
    rewrite (nth_indep _ _ (vget (Matrix.setVector vec indices values) O))
      by (by rewrite length_map).
    by rewrite (map_nth (fun i => vget (Matrix.setVector vec indices values) i)).
Qed.

(** The entries 0 and 2 of a vector of three. *)
Lemma extractVector_setVector_witness :
  length (Matrix.setVector [0; 0; 0] [2; 0]%nat [5; 7]) = length [0; 0; 0]
  /\ Matrix.extractVector (Matrix.setVector [0; 0; 0] [2; 0]%nat [5; 7]) [2; 0]%nat
     = [5; 7]
  /\ forall i, i ∉ [2; 0]%nat ->
       vget (Matrix.setVector [0; 0; 0] [2; 0]%nat [5; 7]) i = vget [0; 0; 0] i.
Proof.
  apply (extractVector_setVector [0; 0; 0] [2; 0]%nat [5; 7]).
  - apply NoDup_cons. split; [|apply NoDup_singleton].
    intros H. apply list_elem_of_singleton in H. discriminate.
  - repeat constructor.
  - reflexivity.
Defined.

(** ** Matrix.ts: what solve returns *)

Lemma length_vplus (b c : list R) :
  length b = length c -> length (vplus b c) = length b.
Proof. intros H. unfold vplus. rewrite length_zip_with. lia. Qed.

Lemma vget_vplus (b c : list R) (i : nat) :
  length b = length c -> vget (vplus b c) i = vget b i + vget c i.
Proof.
  intros H. unfold vget, vplus. rewrite !nth_lookup, lookup_zip_with.
  destruct (b !! i) as [x|] eqn:Hb; cbn.
  - destruct (lookup_lt_is_Some_2 c i) as [y Hy].
    { rewrite <- H. by eapply lookup_lt_Some. }
    rewrite Hy. done.
  - apply lookup_ge_None in Hb. rewrite (lookup_ge_None_2 c i) by lia. cbn. lra.
Qed.

(** X10: for a system of [n >= 1] equations, [solve] either throws
    [Matrix is singular or nearly singular], or returns a vector [x] of
    length [n] with [A x = b]; when it returns, [x] is the only solution. *)
Theorem solve_returns_the_solution (n : nat) (A : Matrix.t) (b : list R) :
  wf A -> Matrix.rows A = n -> Matrix.cols A = n -> length b = n ->
  (1 <= n)%nat ->
  match Matrix.solve A b with
  | Throw msg => msg = "Matrix is singular or nearly singular"%string
  | Ok x =>
      length x = n
      /\ (forall i, (i < n)%nat ->
            Rsum n (fun j => Matrix.get A i j * vget x j) = vget b i)
      /\ forall y : list R,
           (forall i, (i < n)%nat ->
              Rsum n (fun j => Matrix.get A i j * vget y j) = vget b i) ->
           forall j, (j < n)%nat -> vget y j = vget x j
  end.
Proof.
  intros Hw Hr Hc Hl Hn.
  pose proof (solve_spec n A b Hw Hr Hc Hl Hn) as Hspec.
  destruct (Matrix.solve A b) as [x|msg]; [|done].
  destruct Hspec as (Hlx & Hsol & Hnull). split; [done|]. split; [exact Hsol|].
  intros y Hy j Hj.
  assert (H0 : vget y j - vget x j = 0); [|lra].
  apply (Hnull (fun j => vget y j - vget x j)); [|done].
  intros i Hi. specialize (Hsol i Hi). specialize (Hy i Hi). cbv beta in *.
  rewrite (Rsum_ext _ _ (fun j => Matrix.get A i j * vget y j
                                  - Matrix.get A i j * vget x j))
    by (intros; ring).
  rewrite Rsum_minus. lra.
Qed.

(** Two equations with the matrix [[2, 1], [1, 3]]. *)
Lemma solve_returns_the_solution_witness :
  let A := Matrix.mk 2 2 [[2; 1]; [1; 3]] in
  let b := [3; 5] in
  match Matrix.solve A b with
  | Throw msg => msg = "Matrix is singular or nearly singular"%string
  | Ok x =>
      length x = 2%nat
      /\ (forall i, (i < 2)%nat ->
            Rsum 2 (fun j => Matrix.get A i j * vget x j) = vget b i)
      /\ forall y : list R,
           (forall i, (i < 2)%nat ->
              Rsum 2 (fun j => Matrix.get A i j * vget y j) = vget b i) ->
           forall j, (j < 2)%nat -> vget y j = vget x j
  end.
Proof.
  intros A b. apply (solve_returns_the_solution 2 A b).
  - apply wf_2x2.
  - reflexivity.
  - reflexivity.
  - reflexivity.
  - lia.
Defined.

(** X11: [solve] never returns for a singular matrix: when some vector
    [u] other than zero has [A u = 0], it throws
    [Matrix is singular or nearly singular], whatever the right-hand side. *)
Theorem solve_detects_singular (n : nat) (A : Matrix.t) (b : list R)
    (u : nat -> R) (k : nat) :
  wf A -> Matrix.rows A = n -> Matrix.cols A = n -> length b = n ->
  (k < n)%nat -> u k <> 0 ->
  (forall i, (i < n)%nat -> Rsum n (fun j => Matrix.get A i j * u j) = 0) ->
  Matrix.solve A b = Throw "Matrix is singular or nearly singular".
Proof.
  intros Hw Hr Hc Hl Hk Hu Hnull.
  pose proof (solve_spec n A b Hw Hr Hc Hl ltac:(lia)) as Hspec.
  destruct (Matrix.solve A b) as [x|msg]; [|by rewrite Hspec].
  destruct Hspec as (_ & _ & Hz). destruct Hu. by apply Hz.
Qed.

(** The matrix [[1, 2], [2, 4]] maps [(2, -1)] to zero. *)
Lemma solve_detects_singular_witness :
  Matrix.solve (Matrix.mk 2 2 [[1; 2]; [2; 4]]) [1; 1]
  = Throw "Matrix is singular or nearly singular".
Proof.
  apply (solve_detects_singular 2 (Matrix.mk 2 2 [[1; 2]; [2; 4]]) [1; 1]
           (fun j => match j with O => 2 | _ => -1 end) 0).
  - apply wf_2x2.
  - reflexivity.
  - reflexivity.
  - reflexivity.
  - lia.
  - lra.
  - intros i Hi. destruct i as [|[|i]]; [| |lia]; unfold Matrix.get; simpl; lra.
Defined.

Lemma solve_ok_dims (A : Matrix.t) (b x : list R) :
  Matrix.solve A b = Ok x ->
  Matrix.rows A = Matrix.cols A /\ Matrix.rows A = length b
  /\ (1 <= Matrix.rows A)%nat.
Proof.
  unfold Matrix.solve.
  destruct (Nat.eqb_spec (Matrix.rows A) (Matrix.cols A)) as [Hrc|]; [|done].
  destruct (Nat.eqb_spec (Matrix.rows A) (length b)) as [Hrb|]; [|done].
  cbn [negb]. destruct (ForE _ _ _ _) as [[A1 x1]|]; [|done]. cbn [bind].
  destruct (Nat.eqb_spec (Matrix.rows A) 0); [done|]. intros _. lia.
Qed.

Lemma scaleVec_zero (b : list R) : scaleVec 0 b = replicate (length b) 0.
Proof.
  unfold scaleVec. induction b as [|x b IH]; [done|].
  cbn. rewrite IH. f_equal. ring.
Qed.

(** X12: [solve] is linear in the right-hand side: when it returns [x]
    for [b] and [y] for [c], it returns [s x] for [s b] and a vector with the
    entries of [x + y] for [b + c]; whether it throws does not depend on the
    right-hand side. *)
Theorem solve_superposition (A : Matrix.t) (b c x y : list R) (s : R) :
  wf A ->
  Matrix.solve A b = Ok x -> Matrix.solve A c = Ok y ->
  Matrix.solve A (scaleVec s b) = Ok (scaleVec s x)
  /\ exists z, Matrix.solve A (vplus b c) = Ok z
       /\ length z = length x
       /\ forall j, vget z j = vget x j + vget y j.
Proof.
  intros Hw Hx Hy. split.
  - by rewrite solve_scale, Hx.
  - destruct (solve_ok_dims A b x Hx) as (Hrc & Hrb & Hn).
    destruct (solve_ok_dims A c y Hy) as (_ & Hrc' & _).
    assert (Hbc : length b = length c) by congruence.
    assert (Hz : exists z, Matrix.solve A (vplus b c) = Ok z).
    { pose proof (solve_scale 0 A b) as H0. rewrite Hx in H0. cbn in H0.
      pose proof (solve_scale 0 A (vplus b c)) as H1.
      rewrite !scaleVec_zero, length_vplus in * by done. rewrite H0 in H1.
      destruct (Matrix.solve A (vplus b c)) as [z|msg]; [by exists z|done]. }
    destruct Hz as (z & Hz). exists z. split; [done|].
    set (n := Matrix.rows A) in *.
    pose proof (solve_spec n A b Hw eq_refl (eq_sym Hrc) (eq_sym Hrb) Hn) as Sb.
    pose proof (solve_spec n A c Hw eq_refl (eq_sym Hrc) (eq_sym Hrc') Hn) as Sc.
    pose proof (solve_spec n A (vplus b c) Hw eq_refl (eq_sym Hrc)) as Sz.
    rewrite Hx in Sb. rewrite Hy in Sc. rewrite Hz in Sz.
    destruct Sb as (Hlx & Hsx & Hnull). destruct Sc as (Hly & Hsy & _).
    destruct Sz as (Hlz & Hsz & _); [by rewrite length_vplus; congruence|done|].
    split; [congruence|]. intros j. destruct (decide (j < n)%nat) as [Hj|Hj].
    + assert (H0 : vget z j - (vget x j + vget y j) = 0); [|lra].
      apply (Hnull (fun j => vget z j - (vget x j + vget y j))); [|done].
      intros i Hi. specialize (Hsx i Hi). specialize (Hsy i Hi).
      specialize (Hsz i Hi). rewrite vget_vplus in Hsz by done.
      rewrite (Rsum_ext _ _ (fun j => Matrix.get A i j * vget z j
                                      - (Matrix.get A i j * vget x j
                                         + Matrix.get A i j * vget y j)))
        by (intros; ring).
      rewrite Rsum_minus, Rsum_plus. lra.
    + rewrite !vget_ge by lia. lra.
Qed.

Lemma wf_1x1 (a : R) : wf (Matrix.mk 1 1 [[a]]).
Proof. split; [reflexivity|]. repeat constructor. Qed.

Lemma solve_one_by_two (b : R) :
  exists x, Matrix.solve (Matrix.mk 1 1 [[2]]) [b] = Ok x.
Proof.
  destruct (solve_one (Matrix.mk 1 1 [[2]]) [b] (wf_1x1 2) eq_refl eq_refl eq_refl)
    as (x & Hx & _).
  - unfold Matrix.get. cbn [nth Matrix.data]. rewrite Rabs_pos_eq by lra. lra.
  - by exists x.
Qed.

(** The equation [2 x = b] with two right-hand sides. *)
Lemma solve_superposition_witness :
  let A := Matrix.mk 1 1 [[2]] in
  exists x y,
    Matrix.solve A [4] = Ok x /\ Matrix.solve A [6] = Ok y
    /\ Matrix.solve A (scaleVec 3 [4]) = Ok (scaleVec 3 x)
    /\ exists z, Matrix.solve A (vplus [4] [6]) = Ok z
         /\ length z = length x
         /\ forall j, vget z j = vget x j + vget y j.
Proof.
  intros A.
  destruct (solve_one_by_two 4) as (x & Hx).
  destruct (solve_one_by_two 6) as (y & Hy).
  exists x, y. split; [exact Hx|]. split; [exact Hy|].
  apply (solve_superposition A [4] [6] x y 3).
  - apply wf_1x1.
  - exact Hx.
  - exact Hy.
Defined.

(** ** Matrix.ts: the local axes of a member *)

(** [x], [y] and their vector product. *)
Lemma cross_orthonormal (x0 x1 x2 y0 y1 y2 : R) :
  x0 * x0 + x1 * x1 + x2 * x2 = 1 ->
  y0 * y0 + y1 * y1 + y2 * y2 = 1 ->
  x0 * y0 + x1 * y1 + x2 * y2 = 0 ->
  orthonormal3 [x0; x1; x2] [y0; y1; y2]
    [x1 * y2 - x2 * y1; x2 * y0 - x0 * y2; x0 * y1 - x1 * y0].
Proof.
  intros Hx Hy Hxy. unfold orthonormal3, dot3, vget. cbn [nth].
  do 2 (split; [done|]). split; [|split; [done|split; ring]].
  replace ((x1 * y2 - x2 * y1) * (x1 * y2 - x2 * y1)
           + (x2 * y0 - x0 * y2) * (x2 * y0 - x0 * y2)
           + (x0 * y1 - x1 * y0) * (x0 * y1 - x1 * y0))
    with ((x0 * x0 + x1 * x1 + x2 * x2) * (y0 * y0 + y1 * y1 + y2 * y2)
          - (x0 * y0 + x1 * y1 + x2 * y2) * (x0 * y0 + x1 * y1 + x2 * y2)) by ring.
  rewrite Hx, Hy, Hxy. ring.
Qed.

(** Turning [y] and [z] about [x] keeps the three axes orthonormal. *)
Lemma rotate_orthonormal (x0 x1 x2 y0 y1 y2 z0 z1 z2 c s : R) :
  orthonormal3 [x0; x1; x2] [y0; y1; y2] [z0; z1; z2] ->
  c * c + s * s = 1 ->
  orthonormal3 [x0; x1; x2]
    [y0 * c + z0 * s; y1 * c + z1 * s; y2 * c + z2 * s]
    [- y0 * s + z0 * c; - y1 * s + z1 * c; - y2 * s + z2 * c].
Proof.
  unfold orthonormal3, dot3, vget. cbn [nth].
  intros (Hx & Hy & Hz & Hxy & Hxz & Hyz) Hcs.
  split; [done|]. split; [|split; [|split; [|split]]].
  - replace ((y0 * c + z0 * s) * (y0 * c + z0 * s)
             + (y1 * c + z1 * s) * (y1 * c + z1 * s)
             + (y2 * c + z2 * s) * (y2 * c + z2 * s))
      with (c * c * (y0 * y0 + y1 * y1 + y2 * y2)
            + s * s * (z0 * z0 + z1 * z1 + z2 * z2)
            + 2 * c * s * (y0 * z0 + y1 * z1 + y2 * z2)) by ring.
    rewrite Hy, Hz, Hyz. lra.
  - replace ((- y0 * s + z0 * c) * (- y0 * s + z0 * c)
             + (- y1 * s + z1 * c) * (- y1 * s + z1 * c)
             + (- y2 * s + z2 * c) * (- y2 * s + z2 * c))
      with (s * s * (y0 * y0 + y1 * y1 + y2 * y2)
            + c * c * (z0 * z0 + z1 * z1 + z2 * z2)
            - 2 * c * s * (y0 * z0 + y1 * z1 + y2 * z2)) by ring.
    rewrite Hy, Hz, Hyz. lra.
  - replace (x0 * (y0 * c + z0 * s) + x1 * (y1 * c + z1 * s) + x2 * (y2 * c + z2 * s))
      with (c * (x0 * y0 + x1 * y1 + x2 * y2) + s * (x0 * z0 + x1 * z1 + x2 * z2))
      by ring.
    rewrite Hxy, Hxz. ring.
  - replace (x0 * (- y0 * s + z0 * c) + x1 * (- y1 * s + z1 * c)
             + x2 * (- y2 * s + z2 * c))
      with (- s * (x0 * y0 + x1 * y1 + x2 * y2) + c * (x0 * z0 + x1 * z1 + x2 * z2))
      by ring.
    rewrite Hxy, Hxz. ring.
  - replace ((y0 * c + z0 * s) * (- y0 * s + z0 * c)
             + (y1 * c + z1 * s) * (- y1 * s + z1 * c)
             + (y2 * c + z2 * s) * (- y2 * s + z2 * c))
      with (c * s * ((z0 * z0 + z1 * z1 + z2 * z2) - (y0 * y0 + y1 * y1 + y2 * y2))
            + (c * c - s * s) * (y0 * z0 + y1 * z1 + y2 * z2)) by ring.
    rewrite Hy, Hz, Hyz. ring.
Qed.

(** The matrix whose columns are three given vectors. *)
Lemma columns_spec (x y z : list R) :
  length x = 3%nat ->
  let Rm := Matrix.transpose (Matrix.fromArray [x; y; z]) in
  wf Rm /\ Matrix.rows Rm = 3%nat /\ Matrix.cols Rm = 3%nat
  /\ forall k i, (k < 3)%nat -> (i < 3)%nat ->
       Matrix.get Rm k i = vget (nth i [x; y; z] []) k.
Proof.
  intros Hx. cbv zeta.
  destruct (fromArray_spec [x; y; z]) as (Hw & Hr & Hc & Hg).
  cbv zeta in Hr, Hc, Hg. cbn [length nth] in Hr, Hc, Hg. rewrite Hx in Hc, Hg.
  destruct (transpose_spec _ Hw) as (Hw' & Hr' & Hc' & Hg').
  split; [done|]. split; [congruence|]. split; [congruence|].
  intros k i Hk Hi. rewrite Hg' by lia. rewrite Hg by lia. done.
Qed.

(** The matrix of three orthonormal columns. *)
Lemma axes_finish (x y z : list R) :
  length x = 3%nat -> orthonormal3 x y z ->
  let Rm := Matrix.transpose (Matrix.fromArray [x; y; z]) in
  wf Rm /\ Matrix.rows Rm = 3%nat /\ Matrix.cols Rm = 3%nat
  /\ (forall k, (k < 3)%nat -> Matrix.get Rm k 0 = vget x k)
  /\ forall i j, (i < 3)%nat -> (j < 3)%nat ->
       Rsum 3 (fun k => Matrix.get Rm k i * Matrix.get Rm k j)
       = if (i =? j)%nat then 1 else 0.
Proof.
  intros Hx (Hxx & Hyy & Hzz & Hxy & Hxz & Hyz). cbv zeta.
  destruct (columns_spec x y z Hx) as (Hw & Hr & Hc & Hg). cbv zeta in *.
  do 3 (split; [done|]). split.
  - intros k Hk. by rewrite Hg by lia.
  - intros i j Hi Hj. cbn [Rsum]. rewrite !Hg by lia.
    unfold dot3 in *.
    below i; below j; cbn [nth Nat.eqb]; lra.
Qed.

(** The direction cosines of a member form a unit vector. *)
Lemma direction_unit (dx dy dz : R) :
  let L := sqrt (dx * dx + dy * dy + dz * dz) in
  ~ L < 1e-10 ->
  dx / L * (dx / L) + dy / L * (dy / L) + dz / L * (dz / L) = 1.
Proof.
  intros L HL.
  assert (HL2 : L * L = dx * dx + dy * dy + dz * dz).
  { apply sqrt_sqrt. nra. }
  assert (HLpos : L <> 0) by lra.
  replace (dx / L * (dx / L) + dy / L * (dy / L) + dz / L * (dz / L))
    with ((dx * dx + dy * dy + dz * dz) / (L * L)) by (field; done).
  rewrite <- HL2. field. done.
Qed.

(** The rotation matrix of a member: its first column and the products of
    its columns. *)
Lemma rotation_columns (iNode jNode : Node.t) (rotation : R) :
  let dx := Node.x jNode - Node.x iNode in
  let dy := Node.y jNode - Node.y iNode in
  let dz := Node.z jNode - Node.z iNode in
  let L := sqrt (dx * dx + dy * dy + dz * dz) in
  ~ L < 1e-10 ->
  ~ sqrt (dx / L * (dx / L) + dz / L * (dz / L)) < 1e-10 \/ (dx = 0 /\ dz = 0) ->
  exists Rm, createRotationMatrix iNode jNode rotation = Ok Rm
    /\ wf Rm /\ Matrix.rows Rm = 3%nat /\ Matrix.cols Rm = 3%nat
    /\ (forall k, (k < 3)%nat -> Matrix.get Rm k 0 = vget [dx / L; dy / L; dz / L] k)
    /\ forall i j, (i < 3)%nat -> (j < 3)%nat ->
         Rsum 3 (fun k => Matrix.get Rm k i * Matrix.get Rm k j)
         = if (i =? j)%nat then 1 else 0.
Proof.
  intros dx dy dz L HL Hh.
  pose proof (direction_unit dx dy dz HL) as Hunit. fold L in Hunit.
  unfold createRotationMatrix. fold dx dy dz. fold L.
  destruct (Rlt_dec L 1e-10) as [|_]; [done|].
  set (cx := dx / L) in *. set (cy := dy / L) in *. set (cz := dz / L) in *.
  set (h := sqrt (cx * cx + cz * cz)) in *.
  assert (Hcs : forall a, cos a * cos a + sin a * sin a = 1).
  { intros a. pose proof (sin2_cos2 a) as H. unfold Rsqr in H. lra. }
  assert (Hpre : exists y0 y1 y2,
            (if Rlt_dec h 1e-10
             then if Rgt_dec cy 0 then [-1; 0; 0] else [1; 0; 0]
             else [- cy * cx / h; h; - cy * cz / h]) = [y0; y1; y2]
            /\ y0 * y0 + y1 * y1 + y2 * y2 = 1
            /\ cx * y0 + cy * y1 + cz * y2 = 0).
  { destruct (Rlt_dec h 1e-10) as [Hsmall|Hbig].
    - destruct Hh as [|[Hdx Hdz]]; [done|].
      assert (Hcx : cx = 0) by (unfold cx; rewrite Hdx; unfold Rdiv; ring).
      assert (Hcz : cz = 0) by (unfold cz; rewrite Hdz; unfold Rdiv; ring).
      destruct (Rgt_dec cy 0); eexists _, _, _; (split; [reflexivity|]);
        rewrite Hcx, Hcz; split; ring.
    - assert (Hh2 : h * h = cx * cx + cz * cz) by (apply sqrt_sqrt; nra).
      assert (Hh0 : h <> 0) by lra.
      eexists _, _, _. split; [reflexivity|]. split.
      + replace (- cy * cx / h * (- cy * cx / h) + h * h
                 + - cy * cz / h * (- cy * cz / h))
          with (cy * cy * ((cx * cx + cz * cz) / (h * h)) + h * h) by (field; done).
        rewrite <- Hh2. replace (h * h / (h * h)) with 1 by (field; done). lra.
      + replace (cx * (- cy * cx / h) + cy * h + cz * (- cy * cz / h))
          with (cy * (h - (cx * cx + cz * cz) / h)) by (field; done).
        rewrite <- Hh2. field. done. }
  destruct Hpre as (y0 & y1 & y2 & -> & Hyy & Hxy).
  unfold vget. cbn [nth].
  pose proof (cross_orthonormal cx cy cz y0 y1 y2 Hunit Hyy Hxy) as Hortho.
  destruct (Rgt_dec (Rabs rotation) 1e-10) as [Hrot|Hrot].
  - eexists. split; [reflexivity|]. apply axes_finish; [reflexivity|].
    by apply rotate_orthonormal.
  - eexists. split; [reflexivity|]. by apply axes_finish.
Qed.

(** X13: for a member that is not shorter than [1e-10] and is either not
    nearly vertical (the horizontal part of its direction is not below
    [1e-10]) or exactly vertical, [createRotationMatrix] returns a 3 x 3
    matrix whose first column holds the direction cosines of the member and
    whose columns are orthonormal, for every rotation angle. *)
Theorem createRotationMatrix_orthonormal (iNode jNode : Node.t) (rotation : R) :
  let dx := Node.x jNode - Node.x iNode in
  let dy := Node.y jNode - Node.y iNode in
  let dz := Node.z jNode - Node.z iNode in
  let L := sqrt (dx * dx + dy * dy + dz * dz) in
  ~ L < 1e-10 ->
  ~ sqrt (dx / L * (dx / L) + dz / L * (dz / L)) < 1e-10 \/ (dx = 0 /\ dz = 0) ->
  exists Rm, createRotationMatrix iNode jNode rotation = Ok Rm
    /\ wf Rm /\ Matrix.rows Rm = 3%nat /\ Matrix.cols Rm = 3%nat
    /\ (forall k, (k < 3)%nat -> Matrix.get Rm k 0 = vget [dx / L; dy / L; dz / L] k)
    /\ forall i j, (i < 3)%nat -> (j < 3)%nat ->
         Rsum 3 (fun k => Matrix.get Rm k i * Matrix.get Rm k j)
         = if (i =? j)%nat then 1 else 0.
Proof. apply rotation_columns. Qed.

(** X14: under the same conditions the 12 x 12 transformation matrix is
    orthogonal: [multiply] of its [transpose] with it returns [identity]. *)
Theorem createTransformationMatrix_orthogonal (iNode jNode : Node.t) (rotation : R) :
  let dx := Node.x jNode - Node.x iNode in
  let dy := Node.y jNode - Node.y iNode in
  let dz := Node.z jNode - Node.z iNode in
  let L := sqrt (dx * dx + dy * dy + dz * dz) in
  ~ L < 1e-10 ->
  ~ sqrt (dx / L * (dx / L) + dz / L * (dz / L)) < 1e-10 \/ (dx = 0 /\ dz = 0) ->
  exists T, createTransformationMatrix iNode jNode rotation = Ok T
    /\ Matrix.multiply (Matrix.transpose T) T = Ok (Matrix.identity 12).
Proof.
  intros dx dy dz L HL Hh.
  destruct (createTransformationMatrix_spec iNode jNode rotation HL)
    as (Rm & T & HRm & HT & Hw & Hr & Hc & Hb).
  destruct (rotation_columns iNode jNode rotation HL Hh)
    as (Rm' & HRm' & _ & _ & _ & _ & Hid).
  rewrite HRm in HRm'. injection HRm' as <-.
  exists T. split; [done|].
  destruct (transpose_spec T Hw) as (Hwt & Hrt & Hct & Hgt).
  destruct (multiply_spec _ T Hwt Hw) as (m & -> & Hwm & Hrm & Hcm & Hgm);
    [congruence|].
  destruct (identity_spec 12) as (Hwi & Hri & Hci & Hgi).
  f_equal. apply matrix_ext; [done|done|congruence|congruence|].
  intros i j Hi Hj. rewrite Hrm, Hrt, Hc in Hi. rewrite Hcm, Hc in Hj.
  rewrite Hgm by congruence. rewrite Hgi by done. rewrite Hct, Hr.
  rewrite (Rsum_ext _ _ (fun k => Matrix.get T k i * Matrix.get T k j))
    by (intros k Hk; rewrite Hgt by congruence; done).
  pose proof (Hid 0%nat 0%nat ltac:(lia) ltac:(lia)) as H00.
  pose proof (Hid 0%nat 1%nat ltac:(lia) ltac:(lia)) as H01.
  pose proof (Hid 0%nat 2%nat ltac:(lia) ltac:(lia)) as H02.
  pose proof (Hid 1%nat 1%nat ltac:(lia) ltac:(lia)) as H11.
  pose proof (Hid 1%nat 2%nat ltac:(lia) ltac:(lia)) as H12.
  pose proof (Hid 2%nat 2%nat ltac:(lia) ltac:(lia)) as H22.
  cbn [Rsum Nat.eqb] in H00, H01, H02, H11, H12, H22.
  assert (HT' : forall k i, (k < 12)%nat -> (i < 12)%nat ->
            Matrix.get T k i
            = if (k / 3 =? i / 3)%nat then Matrix.get Rm (k mod 3) (i mod 3) else 0).
  { intros. by apply blockDiag_entry. }
  cbn [Rsum]. rewrite !HT' by lia. clear -Hi Hj H00 H01 H02 H11 H12 H22.
  below i; below j;
    cbn [Nat.div Nat.modulo Nat.divmod Nat.eqb fst snd Nat.sub]; lra.
Qed.

Lemma unit_x_length :
  ~ sqrt ((1 - 0) * (1 - 0) + (0 - 0) * (0 - 0) + (0 - 0) * (0 - 0)) < 1e-10.
Proof. rewrite sqrt_unit_x. lra. Qed.

Lemma unit_x_horizontal :
  ~ sqrt ((1 - 0) / sqrt ((1 - 0) * (1 - 0) + (0 - 0) * (0 - 0) + (0 - 0) * (0 - 0))
          * ((1 - 0) / sqrt ((1 - 0) * (1 - 0) + (0 - 0) * (0 - 0) + (0 - 0) * (0 - 0)))
          + (0 - 0) / sqrt ((1 - 0) * (1 - 0) + (0 - 0) * (0 - 0) + (0 - 0) * (0 - 0))
            * ((0 - 0) / sqrt ((1 - 0) * (1 - 0) + (0 - 0) * (0 - 0) + (0 - 0) * (0 - 0))))
    < 1e-10.
Proof. rewrite sqrt_unit_x, sqrt_unit_h. lra. Qed.

(** A member of unit length along X, turned by 30 degrees. *)
Lemma createRotationMatrix_orthonormal_witness :
  let iNode := Node.mk "N1" 0 0 0 in
  let jNode := Node.mk "N2" 1 0 0 in
  let dx := Node.x jNode - Node.x iNode in
  let dy := Node.y jNode - Node.y iNode in
  let dz := Node.z jNode - Node.z iNode in
  let L := sqrt (dx * dx + dy * dy + dz * dz) in
  exists Rm, createRotationMatrix iNode jNode 30 = Ok Rm
    /\ wf Rm /\ Matrix.rows Rm = 3%nat /\ Matrix.cols Rm = 3%nat
    /\ (forall k, (k < 3)%nat -> Matrix.get Rm k 0 = vget [dx / L; dy / L; dz / L] k)
    /\ forall i j, (i < 3)%nat -> (j < 3)%nat ->
         Rsum 3 (fun k => Matrix.get Rm k i * Matrix.get Rm k j)
         = if (i =? j)%nat then 1 else 0.
Proof.
  intros iNode jNode dx dy dz L.
  apply (createRotationMatrix_orthonormal iNode jNode 30).
  - exact unit_x_length.
  - left. exact unit_x_horizontal.
Defined.

(** The same member. *)
Lemma createTransformationMatrix_orthogonal_witness :
  exists T,
    createTransformationMatrix (Node.mk "N1" 0 0 0) (Node.mk "N2" 1 0 0) 30 = Ok T
    /\ Matrix.multiply (Matrix.transpose T) T = Ok (Matrix.identity 12).
Proof.
  apply (createTransformationMatrix_orthogonal (Node.mk "N1" 0 0 0)
           (Node.mk "N2" 1 0 0) 30).
  - exact unit_x_length.
  - left. exact unit_x_horizontal.
Defined.

(** ** Member3DElement.ts: rigid motions *)

(** X15: the local stiffness matrix maps every rigid motion of the member
    to zero end forces: for a translation [(t0, t1, t2)] and a small rotation
    [(w0, w1, w2)] of the member as a whole (the far end, at distance [L]
    along the local x axis, moves by [t + w x (L, 0, 0)]), [multiplyVector]
    returns twelve zeros. *)
Theorem localStiffnessMatrix_rigid_motion
    (e : Member3DElement.t) (t0 t1 t2 w0 w1 w2 : R) :
  constructed e ->
  let L := Member3DElement.length e in
  let d := [t0; t1; t2; w0; w1; w2;
            t0; t1 + w2 * L; t2 - w1 * L; w0; w1; w2] in
  exists f, Matrix.multiplyVector (Member3DElement.localStiffnessMatrix e) d = Ok f
    /\ length f = 12%nat
    /\ forall i, (i < 12)%nat -> vget f i = 0.
Proof.
  intros He L d. pose proof (constructed_length_pos e He) as HL. fold L in HL.
  destruct (localStiffnessMatrix_wf e) as (Hw & Hr & Hc).
  destruct (multiplyVector_spec (Member3DElement.localStiffnessMatrix e) d)
    as (f & Hf & Hlf & Hgf); [by rewrite Hc|].
  exists f. split; [done|]. split; [congruence|].
  intros i Hi. rewrite Hgf by congruence. rewrite Hc. unfold matVec.
  assert (HL0 : L <> 0) by lra.
  below i; cbn [Rsum]; unfold Matrix.get, vget, d; simpl; fold L; field; done.
Qed.

(** The unit member moved by [(1, 2, 3)] and turned by [(4, 5, 6)]. *)
Lemma localStiffnessMatrix_rigid_motion_witness :
  let L := Member3DElement.length beamElement in
  let d := [1; 2; 3; 4; 5; 6; 1; 2 + 6 * L; 3 - 5 * L; 4; 5; 6] in
  exists f,
    Matrix.multiplyVector (Member3DElement.localStiffnessMatrix beamElement) d = Ok f
    /\ length f = 12%nat
    /\ forall i, (i < 12)%nat -> vget f i = 0.
Proof.
  intros L d.
  apply (localStiffnessMatrix_rigid_motion beamElement 1 2 3 4 5 6).
  exact beamElement_constructed.
Defined.

(** The local stiffness matrix maps a vector with the same translation at
    both ends and no rotation to zero. *)
Lemma localStiffnessMatrix_translation (e : Member3DElement.t) (u : nat -> R) (k : nat) :
  constructed e -> (k < 12)%nat ->
  u 3%nat = 0 -> u 4%nat = 0 -> u 5%nat = 0 ->
  u 9%nat = 0 -> u 10%nat = 0 -> u 11%nat = 0 ->
  u 6%nat = u 0%nat -> u 7%nat = u 1%nat -> u 8%nat = u 2%nat ->
  matVec 12 (Member3DElement.localStiffnessMatrix e) u k = 0.
Proof.
  intros He Hk H3 H4 H5 H9 H10 H11 H6 H7 H8.
  pose proof (constructed_length_pos e He) as HL.
  assert (HL0 : Member3DElement.length e <> 0) by lra.
  unfold matVec. cbn [Rsum]. rewrite H3, H4, H5, H9, H10, H11, H6, H7, H8.
  below k; unfold Matrix.get; simpl; field; done.
Qed.

(** X16: moving both ends of a member by the same translation [(t0, t1, t2)]
    (no rotation) produces no member forces: for [numPoints >= 1],
    [computeMemberForces] returns [numPoints + 1] samples whose six force
    components are all zero, whatever member loads are passed. *)
Theorem computeMemberForces_rigid_translation
    (e : Member3DElement.t) (t0 t1 t2 : R) (loads : list MemberLoad.t)
    (numPoints : nat) :
  constructed e -> (1 <= numPoints)%nat ->
  exists pts,
    Member3DElement.computeMemberForces e
      [t0; t1; t2; 0; 0; 0; t0; t1; t2; 0; 0; 0] loads numPoints = Ok pts
    /\ length pts = (numPoints + 1)%nat
    /\ forall p k, In p pts -> (k < 6)%nat -> vget (ForcePoint.forces p) k = 0.
Proof.
  intros He Hn.
  set (d := [t0; t1; t2; 0; 0; 0; t0; t1; t2; 0; 0; 0]).
  destruct (computeMemberForces_eq e d He eq_refl) as (T & HT & HwT & HrT & HcT & Heq).
  destruct (transformationMatrix_spec e He) as (Rm & T' & HT' & _ & _ & _ & Hb).
  assert (T' = T) as -> by congruence.
  eexists. split; [apply Heq|]. split.
  - by rewrite length_map, length_seq.
  - intros p k Hp Hk. apply in_map_iff in Hp as (i & <- & _).
    unfold interpolatedSample. cbn [ForcePoint.forces].
    assert (Hz : forall k', (k' < 12)%nat ->
              localEndForces (Member3DElement.localStiffnessMatrix e) T d k' = 0).
    { intros k' Hk'. unfold localEndForces.
      apply localStiffnessMatrix_translation; [done|done|..];
        unfold matVec; cbn [Rsum];
        rewrite !(blockDiag_entry T Rm) by (done || lia);
        cbn [Nat.add Nat.div Nat.modulo Nat.divmod Nat.eqb fst snd Nat.sub];
        unfold vget, d; simpl; ring. }
    below k; unfold vget; cbn [map seq nth Nat.add];
      rewrite !Hz by lia; ring.
Qed.

(** The unit member moved by [(1, 2, 3)], sampled at the ends and at
    midspan. *)
Lemma computeMemberForces_rigid_translation_witness :
  exists pts,
    Member3DElement.computeMemberForces beamElement
      [1; 2; 3; 0; 0; 0; 1; 2; 3; 0; 0; 0] [] 2 = Ok pts
    /\ length pts = (2 + 1)%nat
    /\ forall p k, In p pts -> (k < 6)%nat -> vget (ForcePoint.forces p) k = 0.
Proof.
  apply (computeMemberForces_rigid_translation beamElement 1 2 3 [] 2).
  - exact beamElement_constructed.
  - lia.
Defined.

(** ** Member3DElement.ts: fixed-end reactions *)

(** A list of twelve entries, written out. *)
Ltac entries := repeat (apply (f_equal2 cons); [try ring|]); try reflexivity.

Ltac twelve fer H :=
  do 12 (destruct fer as [|? fer]; [discriminate H|]);
  destruct fer; [clear H|discriminate H].

(** Every load adds its own contribution to [fer]: the vector after the load
    is [fer] plus what the load adds to the zero vector. *)
Lemma accumulateLoad_vplus (e : Member3DElement.t) (load : MemberLoad.t)
    (fer : list R) :
  length fer = 12%nat ->
  Member3DElement.accumulateLoad e load fer
  = vplus fer (Member3DElement.accumulateLoad e load (replicate 12 0)).
Proof.
  intros H. twelve fer H.
  unfold Member3DElement.accumulateLoad.
  destruct (negb _).
  { unfold vplus. simpl. entries. }
  cbv zeta.
  destruct (MemberLoad.type load).
  - destruct (Rlt_dec _ _).
    + unfold Member3DElement.addUniformLoadFER.
      destruct (_ && _); destruct (toUpperCase _);
        unfold vplus, vadd, vget; simpl; entries.
    + unfold Member3DElement.addLinearLoadFER, Member3DElement.addUniformLoadFER.
      destruct (_ && _); destruct (toUpperCase _);
        unfold vplus, vadd, vget; simpl; entries.
  - unfold Member3DElement.addPointLoadFER.
    destruct (toUpperCase _);
      unfold vplus, vadd, vget; simpl; entries.
  - unfold vplus. simpl. entries.
Qed.

Lemma vplus_assoc (a b c : list R) : vplus (vplus a b) c = vplus a (vplus b c).
Proof.
  unfold vplus. revert b c. induction a as [|x a IH]; intros [|y b] [|z c]; try done.
  simpl. by rewrite IH, Rplus_assoc.
Qed.

Lemma vplus_comm (a b : list R) : vplus a b = vplus b a.
Proof.
  unfold vplus. revert b. induction a as [|x a IH]; intros [|y b]; try done.
  simpl. by rewrite IH, Rplus_comm.
Qed.

Lemma vplus_zero_r (a : list R) : vplus a (replicate (length a) 0) = a.
Proof.
  unfold vplus. induction a as [|x a IH]; [done|]. simpl. by rewrite IH, Rplus_0_r.
Qed.

Lemma length_ForOf_accumulateLoad e loads fer :
  length (ForOf loads (Member3DElement.accumulateLoad e) fer) = length fer.
Proof.
  unfold ForOf. revert fer. induction loads as [|l loads IH]; intros fer; [done|].
  simpl. by rewrite IH, length_accumulateLoad.
Qed.

Lemma ForOf_accumulateLoad_vplus e loads fer :
  length fer = 12%nat ->
  ForOf loads (Member3DElement.accumulateLoad e) fer
  = vplus fer (Member3DElement.localFER e loads).
Proof.
  unfold Member3DElement.localFER, ForOf. revert fer.
  induction loads as [|l loads IH]; intros fer H.
  - cbn [foldl]. by rewrite <- H, vplus_zero_r.
  - cbn [foldl]. rewrite IH by (by rewrite length_accumulateLoad).
    rewrite (IH (Member3DElement.accumulateLoad e l (replicate 12 0)))
      by (by rewrite length_accumulateLoad).
    by rewrite (accumulateLoad_vplus e l fer), vplus_assoc.
Qed.

(** The local vector of two lists of loads is the sum of their vectors. *)
Lemma localFER_vplus e l1 l2 :
  Member3DElement.localFER e (l1 ++ l2)
  = vplus (Member3DElement.localFER e l1) (Member3DElement.localFER e l2).
Proof.
  rewrite localFER_app. apply ForOf_accumulateLoad_vplus, length_localFER.
Qed.

Lemma localFER_perm e l1 l2 :
  Permutation l1 l2 -> Member3DElement.localFER e l1 = Member3DElement.localFER e l2.
Proof.
  induction 1 as [|x l l' _ IH|x y l|l l' l'' _ IH1 _ IH2].
  - done.
  - change (x :: l) with ([x] ++ l). change (x :: l') with ([x] ++ l').
    by rewrite !localFER_vplus, IH.
  - change (y :: x :: l) with ([y] ++ [x] ++ l).
    change (x :: y :: l) with ([x] ++ [y] ++ l).
    rewrite !localFER_vplus, <- !vplus_assoc.
    by rewrite (vplus_comm (Member3DElement.localFER e [y])).
  - congruence.
Qed.

Lemma localFER_filter e loads :
  Member3DElement.localFER e
    (List.filter
       (fun l => String.eqb (MemberLoad.member l) (Member3DElement.id e)) loads)
  = Member3DElement.localFER e loads.
Proof.
  induction loads as [|l loads IH]; [done|].
  change (l :: loads) with ([l] ++ loads) at 2. rewrite localFER_vplus, <- IH.
  cbn [List.filter].
  destruct (String.eqb (MemberLoad.member l) (Member3DElement.id e)) eqn:Hl.
  - change (l :: ?t) with ([l] ++ t). by rewrite localFER_vplus.
  - assert (Hz : Member3DElement.localFER e [l] = replicate 12 0).
    { unfold Member3DElement.localFER, ForOf. cbn [foldl].
      unfold Member3DElement.accumulateLoad. by rewrite Hl. }
    rewrite Hz, vplus_comm.
    set (rest := List.filter _ loads).
    rewrite <- (length_localFER e rest) at 1.
    by rewrite vplus_zero_r.
Qed.

(** X17: [fixedEndReactions] reads only the loads whose [member] is the id of
    the element: the result for a list of member loads is the result for the
    sublist of the loads on this member. *)
Theorem fixedEndReactions_own_loads_only
    (e : Member3DElement.t) (loads : list MemberLoad.t) :
  Member3DElement.fixedEndReactions e loads
  = Member3DElement.fixedEndReactions e
      (List.filter
         (fun l => String.eqb (MemberLoad.member l) (Member3DElement.id e)) loads).
Proof. apply fixedEndReactions_localFER. symmetry. apply localFER_filter. Qed.

(** X18: the fixed-end reactions of an element built by the constructor are
    additive in the loads: [fixedEndReactions] succeeds on [l1], on [l2] and
    on [l1 ++ l2], with twelve entries each, and every entry for [l1 ++ l2]
    is the sum of the entries for [l1] and for [l2]. *)
Theorem fixedEndReactions_superposition
    (e : Member3DElement.t) (l1 l2 : list MemberLoad.t) :
  constructed e ->
  exists f1 f2 f,
    Member3DElement.fixedEndReactions e l1 = Ok f1
    /\ Member3DElement.fixedEndReactions e l2 = Ok f2
    /\ Member3DElement.fixedEndReactions e (l1 ++ l2) = Ok f
    /\ length f1 = 12%nat /\ length f2 = 12%nat /\ length f = 12%nat
    /\ forall i, (i < 12)%nat -> vget f i = vget f1 i + vget f2 i.
Proof.
  intros He.
  destruct (fixedEndReactions_spec e l1 He) as (Rm & T & HT & _ & _ & _ & _ & H1).
  destruct (fixedEndReactions_spec e l2 He) as (Rm2 & T2 & HT2 & _ & _ & _ & _ & H2).
  destruct (fixedEndReactions_spec e (l1 ++ l2) He)
    as (Rm3 & T3 & HT3 & _ & _ & _ & _ & H3).
  assert (T2 = T) as -> by congruence. assert (T3 = T) as -> by congruence.
  do 3 eexists. split; [exact H1|]. split; [exact H2|]. split; [exact H3|].
  do 3 (split; [by rewrite length_map, length_seq|]).
  assert (Hsum : forall k,
            matVec 12 (Matrix.transpose T) (vget (Member3DElement.localFER e (l1 ++ l2))) k
            = matVec 12 (Matrix.transpose T) (vget (Member3DElement.localFER e l1)) k
              + matVec 12 (Matrix.transpose T) (vget (Member3DElement.localFER e l2)) k).
  { intros k. unfold matVec. rewrite <- Rsum_plus. apply Rsum_ext.
    intros j Hj. rewrite localFER_vplus, vget_vplus by (by rewrite !length_localFER).
    ring. }
  intros i Hi. below i; unfold vget; cbn [map seq nth Nat.add]; apply Hsum.
Qed.

(** Two point loads on the unit member. *)
Lemma fixedEndReactions_superposition_witness :
  let p1 := MemberLoad.mk "M1" point FY (Some 1) None None None None None in
  let p2 := MemberLoad.mk "M1" point FZ (Some 2) None None None None (Some 0.25) in
  exists f1 f2 f,
    Member3DElement.fixedEndReactions beamElement [p1] = Ok f1
    /\ Member3DElement.fixedEndReactions beamElement [p2] = Ok f2
    /\ Member3DElement.fixedEndReactions beamElement ([p1] ++ [p2]) = Ok f
    /\ length f1 = 12%nat /\ length f2 = 12%nat /\ length f = 12%nat
    /\ forall i, (i < 12)%nat -> vget f i = vget f1 i + vget f2 i.
Proof.
  intros p1 p2.
  apply (fixedEndReactions_superposition beamElement [p1] [p2]).
  exact beamElement_constructed.
Defined.

(** X19: [fixedEndReactions] does not depend on the order of the member
    loads (in exact arithmetic): two lists that are permutations of each
    other give the same result. *)
Theorem fixedEndReactions_order_irrelevant
    (e : Member3DElement.t) (l1 l2 : list MemberLoad.t) :
  Permutation l1 l2 ->
  Member3DElement.fixedEndReactions e l1 = Member3DElement.fixedEndReactions e l2.
Proof. intros H. by apply fixedEndReactions_localFER, localFER_perm. Qed.

Lemma fixedEndReactions_order_irrelevant_witness :
  let p1 := MemberLoad.mk "M1" point FY (Some 1) None None None None None in
  let p2 := MemberLoad.mk "M1" distributed FZ None (Some 2) None None None None in
  Member3DElement.fixedEndReactions beamElement [p1; p2]
  = Member3DElement.fixedEndReactions beamElement [p2; p1].
Proof.
  intros p1 p2.
  apply (fixedEndReactions_order_irrelevant beamElement [p1; p2] [p2; p1]).
  apply perm_swap.
Defined.

(** ** Member3DElement.ts: statics of the load formulas *)

(** X20: the end forces that [addPointLoadFER] adds for a point force [P] at
    distance [a] from end i of a member of length [L <> 0] are statically
    equivalent to the force: in the local directions FY, FZ and FX the two
    end forces add up to [P], and the end moments together with the force at
    end j at lever arm [L] give the moment [P * a] of the force about end i
    (with the sign of the local axes: [+] about z for FY, [-] about y for
    FZ). *)
Theorem addPointLoadFER_equilibrium (P a L : R) :
  L <> 0 ->
  let f dir := vget (Member3DElement.addPointLoadFER (replicate 12 0) dir P a L) in
  (f FX 0%nat + f FX 6%nat = P)
  /\ (f FY 1%nat + f FY 7%nat = P
      /\ f FY 5%nat + f FY 11%nat + f FY 7%nat * L = P * a)
  /\ (f FZ 2%nat + f FZ 8%nat = P
      /\ f FZ 4%nat + f FZ 10%nat - f FZ 8%nat * L = - (P * a)).
Proof.
  intros HL f. unfold f, Member3DElement.addPointLoadFER, vadd, vget. simpl.
  repeat split; field; done.
Qed.

(** A force of 3 at a quarter of a member of length 2. *)
Lemma addPointLoadFER_equilibrium_witness :
  let f dir := vget (Member3DElement.addPointLoadFER (replicate 12 0) dir 3 0.5 2) in
  (f FX 0%nat + f FX 6%nat = 3)
  /\ (f FY 1%nat + f FY 7%nat = 3
      /\ f FY 5%nat + f FY 11%nat + f FY 7%nat * 2 = 3 * 0.5)
  /\ (f FZ 2%nat + f FZ 8%nat = 3
      /\ f FZ 4%nat + f FZ 10%nat - f FZ 8%nat * 2 = - (3 * 0.5)).
Proof.
  apply (addPointLoadFER_equilibrium 3 0.5 2). lra.
Defined.

(** X21: the end forces that [addUniformLoadFER] adds for a uniform load [w]
    between [x1] and [x2] on a member of length [L <> 0] are statically
    equivalent to its resultant.  When the load covers the member
    ([|x1| < 1e-10] and [|x2 - L| < 1e-10]) the resultant is [w * L] at
    [L / 2]; otherwise it is [w * (x2 - x1)] at [(x1 + x2) / 2].  In the
    directions FY, FZ and FX the end forces add up to the resultant, and for
    FY and FZ the end moments with the force at end j at lever arm [L] give
    the moment of the resultant about end i. *)
Theorem addUniformLoadFER_equilibrium (w x1 x2 L : R) :
  L <> 0 ->
  let f dir := vget (Member3DElement.addUniformLoadFER (replicate 12 0) dir w x1 x2 L) in
  let full := Rltb (Rabs x1) 1e-10 && Rltb (Rabs (x2 - L)) 1e-10 in
  let W := if full then w * L else w * (x2 - x1) in
  let c := if full then L / 2 else (x1 + x2) / 2 in
  (f FX 0%nat + f FX 6%nat = W)
  /\ (f FY 1%nat + f FY 7%nat = W
      /\ f FY 5%nat + f FY 11%nat + f FY 7%nat * L = W * c)
  /\ (f FZ 2%nat + f FZ 8%nat = W
      /\ f FZ 4%nat + f FZ 10%nat - f FZ 8%nat * L = - (W * c)).
Proof.
  intros HL f full W c.
  unfold f, W, c, full, Member3DElement.addUniformLoadFER, vadd, vget.
  destruct (_ && _); simpl; repeat split; field; done.
Qed.

(** A load of 3 on the second half of a member of length 2. *)
Lemma addUniformLoadFER_equilibrium_witness :
  let f dir := vget (Member3DElement.addUniformLoadFER (replicate 12 0) dir 3 1 2 2) in
  let full := Rltb (Rabs 1) 1e-10 && Rltb (Rabs (2 - 2)) 1e-10 in
  let W := if full then 3 * 2 else 3 * (2 - 1) in
  let c := if full then 2 / 2 else (1 + 2) / 2 in
  (f FX 0%nat + f FX 6%nat = W)
  /\ (f FY 1%nat + f FY 7%nat = W
      /\ f FY 5%nat + f FY 11%nat + f FY 7%nat * 2 = W * c)
  /\ (f FZ 2%nat + f FZ 8%nat = W
      /\ f FZ 4%nat + f FZ 10%nat - f FZ 8%nat * 2 = - (W * c)).
Proof.
  apply (addUniformLoadFER_equilibrium 3 1 2 2). lra.
Defined.




(** ** Analyzer: the classification of the degrees of freedom *)

Lemma StronglySorted_snoc (l : list nat) (y : nat) :
  StronglySorted lt l -> Forall (fun x => (x < y)%nat) l ->
  StronglySorted lt (l ++ [y]).
Proof.
  induction 1 as [|x l Hs IH Hx]; intros Hy; simpl.
  - constructor; constructor.
  - apply Forall_cons in Hy as [Hxy Hy]. constructor; [by apply IH|].
    apply Forall_app. split; [done|]. by constructor.
Qed.

Lemma dof_div (k c : nat) : (c < 6)%nat -> ((k * 6 + c) / 6 = k)%nat.
Proof. intros H. symmetry. apply (Nat.div_unique _ 6 k c); lia. Qed.

Lemma dof_mod (k c : nat) : (c < 6)%nat -> ((k * 6 + c) mod 6 = c)%nat.
Proof. intros H. symmetry. apply (Nat.mod_unique _ 6 k c); lia. Qed.

Lemma classified_step nodes supportMap (k c : nat) (free fixed : list nat) :
  (c < 6)%nat ->
  classified nodes supportMap (k * 6 + c) (free, fixed) ->
  classified nodes supportMap (k * 6 + Datatypes.S c)
    (if constraintAt nodes supportMap k c
     then (free, fixed ++ [(k * 6 + c)%nat])
     else (free ++ [(k * 6 + c)%nat], fixed)).
Proof.
  intros Hc (Hs1 & Hs2 & H1 & H2). cbn [fst snd] in *.
  pose proof (dof_div k c Hc) as Hdiv. pose proof (dof_mod k c Hc) as Hmod.
  destruct (constraintAt nodes supportMap k c) eqn:Hflag; unfold classified; cbn [fst snd].
  - split; [done|]. split.
    { apply StronglySorted_snoc; [done|]. apply Forall_forall.
      intros x Hx. by apply H2 in Hx as [? _]. }
    split; intros d.
    + rewrite H1. split; intros [Hd Hf]; (split; [|done]); [lia|].
      destruct (decide (d = k * 6 + c)%nat) as [->|Hne]; [|lia].
      rewrite Hdiv, Hmod in Hf. congruence.
    + rewrite elem_of_app, list_elem_of_singleton, H2. split.
      * intros [[Hd Hf]| ->]; [split; [lia|done]|].
        rewrite Hdiv, Hmod. split; [lia|done].
      * intros [Hd Hf]. destruct (decide (d = k * 6 + c)%nat); [by right|].
        left. split; [lia|done].
  - split.
    { apply StronglySorted_snoc; [done|]. apply Forall_forall.
      intros x Hx. by apply H1 in Hx as [? _]. }
    split; [done|]. split; intros d.
    + rewrite elem_of_app, list_elem_of_singleton, H1. split.
      * intros [[Hd Hf]| ->]; [split; [lia|done]|].
        rewrite Hdiv, Hmod. split; [lia|done].
      * intros [Hd Hf]. destruct (decide (d = k * 6 + c)%nat); [by right|].
        left. split; [lia|done].
    + rewrite H2. split; intros [Hd Hf]; (split; [|done]); [lia|].
      destruct (decide (d = k * 6 + c)%nat) as [->|Hne]; [|lia].
      rewrite Hdiv, Hmod in Hf. congruence.
Qed.

Lemma classify_classified (nodes : list Node.t) (supportMap : gmap string Support.t) :
  classified nodes supportMap (length nodes * 6)
    (Analyzer.classify nodes supportMap).
Proof.
  unfold Analyzer.classify.
  apply (ForEach_inv (fun idx s => classified nodes supportMap (idx * 6) s)).
  - unfold classified. cbn [fst snd]. split; [constructor|]. split; [constructor|].
    split; intros d; rewrite elem_of_nil; split; (done || intros [H _]; lia).
  - intros k node [free fixed] Hk IH.
    assert (Hc : forall j, constraintAt nodes supportMap k j
                 = nth j (Analyzer.constraintsOf (supportMap !! Node.id node)) false).
    { intros j. unfold constraintAt. by rewrite Hk. }
    set (cs := Analyzer.constraintsOf (supportMap !! Node.id node)) in *.
    replace (Datatypes.S k * 6)%nat with (k * 6 + 6)%nat by lia.
    for_ind (fun c (s : list nat * list nat) =>
               classified nodes supportMap (k * 6 + c) s).
    + lia.
    + by rewrite Nat.add_0_r.
    + intros c [free' fixed'] Hc6 IH'. rewrite <- Hc.
      apply classified_step; [lia|done].
Qed.

(** X23: the analyzer built by the constructor splits the [6 * nodes]
    degrees of freedom in two: [freeDOF] and [fixedDOF] are strictly
    increasing lists of indices below [numDOF]; the degree of freedom
    [6 * i + j] is in [fixedDOF] when the support registered for the id of
    node [i] constrains component [j], and in [freeDOF] otherwise (also when
    the node has no support). *)
Theorem classifyDOF_partition (model : StanalModel.t) (a : Analyzer.t) :
  Analyzer.new model = Ok a ->
  let nodes := StanalModel.nodes model in
  Analyzer.numDOF a = (length nodes * 6)%nat
  /\ StronglySorted lt (Analyzer.freeDOF a)
  /\ StronglySorted lt (Analyzer.fixedDOF a)
  /\ (forall d, d ∈ Analyzer.freeDOF a <->
        (d < Analyzer.numDOF a)%nat
        /\ constraintAt nodes (Analyzer.supportMap a) (d / 6) (d mod 6) = false)
  /\ (forall d, d ∈ Analyzer.fixedDOF a <->
        (d < Analyzer.numDOF a)%nat
        /\ constraintAt nodes (Analyzer.supportMap a) (d / 6) (d mod 6) = true).
Proof.
  intros Hnew nodes. destruct (new_ok model a Hnew) as [Hm (Hn & _ & Hcl)].
  rewrite Hm in Hn, Hcl. fold nodes in Hn, Hcl.
  pose proof (classify_classified nodes (Analyzer.supportMap a)) as H.
  rewrite <- Hcl, <- Hn in H. destruct H as (H1 & H2 & H3 & H4).
  done.
Qed.

(** The beam fixed at [N1] and free in Y at [N2]. *)
Lemma classifyDOF_partition_witness :
  let nodes := StanalModel.nodes beam in
  Analyzer.numDOF beamAnalyzer = (length nodes * 6)%nat
  /\ StronglySorted lt (Analyzer.freeDOF beamAnalyzer)
  /\ StronglySorted lt (Analyzer.fixedDOF beamAnalyzer)
  /\ (forall d, d ∈ Analyzer.freeDOF beamAnalyzer <->
        (d < Analyzer.numDOF beamAnalyzer)%nat
        /\ constraintAt nodes (Analyzer.supportMap beamAnalyzer) (d / 6) (d mod 6)
           = false)
  /\ (forall d, d ∈ Analyzer.fixedDOF beamAnalyzer <->
        (d < Analyzer.numDOF beamAnalyzer)%nat
        /\ constraintAt nodes (Analyzer.supportMap beamAnalyzer) (d / 6) (d mod 6)
           = true).
Proof.
  apply (classifyDOF_partition beam beamAnalyzer). exact new_beam.
Defined.

(** ** Analyzer: what a successful analysis satisfies *)

Lemma Rsum_blocks (n : nat) (g : nat -> R) :
  Rsum (n * 6) g = Rsum n (fun i => Rsum 6 (fun j => g (i * 6 + j)%nat)).
Proof.
  induction n as [|n IH]; [done|].
  replace (Datatypes.S n * 6)%nat
    with (Datatypes.S (Datatypes.S (Datatypes.S (Datatypes.S (Datatypes.S
            (Datatypes.S (n * 6))))))) by lia.
  rewrite (Rsum_S n), <- IH. cbn [Rsum].
  rewrite Nat.add_0_r.
  replace (Datatypes.S (n * 6)) with (n * 6 + 1)%nat by lia.
  replace (Datatypes.S (n * 6 + 1)) with (n * 6 + 2)%nat by lia.
  replace (Datatypes.S (n * 6 + 2)) with (n * 6 + 3)%nat by lia.
  replace (Datatypes.S (n * 6 + 3)) with (n * 6 + 4)%nat by lia.
  replace (Datatypes.S (n * 6 + 4)) with (n * 6 + 5)%nat by lia.
  lra.
Qed.

Lemma StronglySorted_lt_NoDup (l : list nat) : StronglySorted lt l -> NoDup l.
Proof.
  induction 1 as [|x l _ IH Hx]; constructor; [|done].
  intros Hin. rewrite Forall_forall in Hx. specialize (Hx x Hin). lia.
Qed.

(** The degrees of freedom of an analyzer built by the constructor. *)
Lemma analyzer_classified (a : Analyzer.t) :
  analyzer_ok a ->
  classified (StanalModel.nodes (Analyzer.model a)) (Analyzer.supportMap a)
    (Analyzer.numDOF a) (Analyzer.freeDOF a, Analyzer.fixedDOF a).
Proof.
  intros (Hn & _ & Hcl). rewrite Hcl, Hn. apply classify_classified.
Qed.

(** The displacement vector of a successful analysis: zero outside the free
    degrees of freedom, the solution of the reduced system on them. *)
Lemma displacements_spec (a : Analyzer.t) (D1 : list R) :
  analyzer_ok a ->
  let D := Matrix.setVector (replicate (Analyzer.numDOF a) 0) (Analyzer.freeDOF a) D1 in
  length D = Analyzer.numDOF a
  /\ (forall p, (p < length (Analyzer.freeDOF a))%nat ->
        vget D (nth p (Analyzer.freeDOF a) O) = vget D1 p)
  /\ (forall d, d ∉ Analyzer.freeDOF a -> vget D d = 0).
Proof.
  intros Hok D. destruct (analyzer_classified a Hok) as (Hs & _ & Hfree & _).
  cbn [fst snd] in *.
  destruct (setVector_spec (replicate (Analyzer.numDOF a) 0) (Analyzer.freeDOF a) D1)
    as (Hl & Hv & Ho).
  - by apply StronglySorted_lt_NoDup.
  - apply Forall_forall. intros d Hd. rewrite length_replicate. by apply Hfree in Hd as [? _].
  - rewrite length_replicate in Hl. split; [done|]. split; [done|].
    intros d Hd. fold D in Ho. rewrite Ho by done. apply vget_replicate.
Qed.

Lemma node_result_components (a : Analyzer.t) (D reactions : list R)
    (i j : nat) (nr : NodeResult.t) :
  Analyzer.extractNodeResults a D reactions !! i = Some nr -> (j < 6)%nat ->
  component (NodeResult.displacement nr) j = vget D (i * 6 + j)
  /\ component (NodeResult.reaction nr) j = vget reactions (i * 6 + j)
  /\ (i < length (StanalModel.nodes (Analyzer.model a)))%nat.
Proof.
  unfold Analyzer.extractNodeResults. intros H Hj.
  rewrite list_lookup_imap in H.
  destruct (StanalModel.nodes (Analyzer.model a) !! i) as [node|] eqn:Hnode; [|done].
  injection H as <-. apply lookup_lt_Some in Hnode.
  below j; simpl; rewrite ?Nat.add_0_r; done.
Qed.

(** X24: in the result of a successful analysis every displacement component
    that a support constrains is exactly zero: for the node at position [i]
    of the model and a component [j < 6] that the support registered for the
    node's id constrains, component [j] of the node's displacement is [0]. *)
Theorem constrained_displacements_are_zero
    (model : StanalModel.t) (a : Analyzer.t) (name : string)
    (i j : nat) (nr : NodeResult.t) :
  Analyzer.new model = Ok a ->
  AnalysisResult.success (Analyzer.analyzeResult a name) = true ->
  AnalysisResult.nodes (Analyzer.analyzeResult a name) !! i = Some nr ->
  (j < 6)%nat ->
  constraintAt (StanalModel.nodes model) (Analyzer.supportMap a) i j = true ->
  component (NodeResult.displacement nr) j = 0.
Proof.
  intros Hnew Hsucc Hnr Hj Hfix. destruct (new_ok model a Hnew) as [Hmodel Hok].
  destruct (analyzeResult_cases a name Hok)
    as [[_ Hr]|(combo & K & P & Hcombo & HK & HP & HlP & Hcase)].
  { rewrite Hr in Hsucc. done. }
  destruct Hcase as [(msg & _ & Hr)|(D1 & reactions & _ & Hrest)].
  { rewrite Hr in Hsucc. done. }
  cbv zeta in Hrest. destruct Hrest as (_ & _ & _ & Hr).
  rewrite Hr in Hnr. cbn [AnalysisResult.nodes] in Hnr.
  destruct (node_result_components a _ _ i j nr Hnr Hj) as (-> & _ & Hi).
  destruct (displacements_spec a D1 Hok) as (_ & _ & Hzero).
  apply Hzero. destruct (analyzer_classified a Hok) as (_ & _ & Hfree & _).
  cbn [fst snd] in Hfree. rewrite Hfree, Hmodel, dof_div, dof_mod by done.
  intros [_ ?]. congruence.
Qed.

(** At the fixed node [N1] of the beam the displacement in X is zero. *)
Lemma constrained_displacements_are_zero_witness :
  exists nr,
    AnalysisResult.nodes (Analyzer.analyzeResult beamAnalyzer "C1") !! 0%nat = Some nr
    /\ component (NodeResult.displacement nr) 0 = 0.
Proof.
  destruct (AnalysisResult.nodes (Analyzer.analyzeResult beamAnalyzer "C1") !! 0%nat)
    as [nr|] eqn:Hnr.
  - exists nr. split; [reflexivity|].
    apply (constrained_displacements_are_zero beam beamAnalyzer "C1" 0 0 nr).
    + exact new_beam.
    + exact beam_success.
    + exact Hnr.
    + lia.
    + reflexivity.
  - exfalso. destruct beam_result as (P & D & reactions & members & _ & _ & _ & Hr).
    rewrite Hr in Hnr. discriminate Hnr.
Defined.

(** A sum over all degrees of freedom of terms that vanish outside the free
    ones is the sum over the list of the free ones. *)
Lemma Rsum_free (a : Analyzer.t) (g : nat -> R) :
  analyzer_ok a ->
  (forall d, d ∉ Analyzer.freeDOF a -> g d = 0) ->
  Rsum (Analyzer.numDOF a) g
  = Rsum (length (Analyzer.freeDOF a)) (fun q => g (nth q (Analyzer.freeDOF a) O)).
Proof.
  intros Hok Hg. pose proof (analyzer_classified a Hok) as (_ & _ & Hfree & _).
  cbn [fst snd] in Hfree. destruct Hok as (Hn & _ & Hcl).
  rewrite Rsum_list_nth.
  replace (Analyzer.freeDOF a)
    with (Analyzer.classify (StanalModel.nodes (Analyzer.model a))
            (Analyzer.supportMap a)).1 by (by rewrite <- Hcl).
  rewrite classify_sum, Hn, Rsum_blocks.
  apply Rsum_ext. intros i Hi. apply Rsum_ext. intros j Hj.
  destruct (constraintAt _ _ i j) eqn:Hc; [|done].
  apply Hg. rewrite Hfree, dof_div, dof_mod by done. intros [_ ?]. congruence.
Qed.

(** X25: in the result of a successful analysis the reaction
    [K * D - P] vanishes, in exact arithmetic, in every component that no
    support constrains: for the node at position [i] of the model and a
    component [j < 6] that is free (also when the node has no support),
    component [j] of the node's reaction is [0]. *)
Theorem free_reactions_are_zero
    (model : StanalModel.t) (a : Analyzer.t) (name : string)
    (i j : nat) (nr : NodeResult.t) :
  Analyzer.new model = Ok a ->
  AnalysisResult.success (Analyzer.analyzeResult a name) = true ->
  AnalysisResult.nodes (Analyzer.analyzeResult a name) !! i = Some nr ->
  (j < 6)%nat ->
  constraintAt (StanalModel.nodes model) (Analyzer.supportMap a) i j = false ->
  component (NodeResult.reaction nr) j = 0.
Proof.
  intros Hnew Hsucc Hnr Hj Hfree. destruct (new_ok model a Hnew) as [Hmodel Hok].
  destruct (analyzeResult_cases a name Hok)
    as [[_ Hr]|(combo & K & P & Hcombo & HK & HP & HlP & Hcase)].
  { rewrite Hr in Hsucc. done. }
  destruct Hcase as [(msg & _ & Hr)|(D1 & reactions & Hsolve & Hrest)].
  { rewrite Hr in Hsucc. done. }
  cbv zeta in Hrest. destruct Hrest as (_ & _ & HgR & Hr).
  rewrite Hr in Hnr. cbn [AnalysisResult.nodes] in Hnr.
  destruct (node_result_components a _ _ i j nr Hnr Hj) as (_ & -> & Hi).
  destruct (displacements_spec a D1 Hok) as (HlD & Hset & Hzero).
  set (D := Matrix.setVector (replicate (Analyzer.numDOF a) 0) (Analyzer.freeDOF a) D1)
    in *.
  set (free := Analyzer.freeDOF a) in *.
  pose proof (analyzer_classified a Hok) as (_ & _ & Hcl & _).
  cbn [fst snd] in Hcl. fold free in Hcl.
  assert (Hd : (i * 6 + j)%nat ∈ free).
  { rewrite Hcl, dof_div, dof_mod, Hmodel by done. split; [|done].
    destruct Hok as (Hn & _). rewrite Hn. lia. }
  assert (Hlt : (i * 6 + j < Analyzer.numDOF a)%nat) by (by apply Hcl in Hd as [? _]).
  apply list_elem_of_lookup in Hd as [p Hp].
  pose proof (lookup_lt_Some _ _ _ Hp) as Hplt.
  pose proof (nth_lookup_Some _ _ O _ Hp) as Hnth.
  destruct (subMatrix_spec K free free) as (Hw11 & Hr11 & Hc11 & Hg11).
  cbv zeta in Hw11, Hr11, Hc11, Hg11.
  pose proof (solve_spec (length free) _ (Matrix.extractVector P free)
                Hw11 Hr11 Hc11) as Hspec.
  rewrite Hsolve in Hspec.
  destruct Hspec as (HlD1 & Hsol & _).
  { unfold Matrix.extractVector. by rewrite length_map. }
  { lia. }
  specialize (Hsol p Hplt). cbv beta in Hsol.
  rewrite HgR by done. unfold matVec.
  rewrite (Rsum_free a (fun s => Matrix.get K (i * 6 + j) s * vget D s) Hok).
  2: { intros d Hd. rewrite Hzero by done. ring. }
  fold free.
  rewrite (Rsum_ext _ _ (fun q =>
             Matrix.get (Matrix.subMatrix K free free) p q * vget D1 q)).
  2: { intros q Hq. rewrite Hg11, Hnth, Hset by done. done. }
  rewrite Hsol. unfold Matrix.extractVector, vget at 1.
  rewrite (nth_indep _ 0 (vget P O)) by (by rewrite length_map).
  rewrite (map_nth (fun i0 => vget P i0)), Hnth. lra.
Qed.

(** At the node [N2] of the beam, free in Y, the reaction in Y is zero. *)
Lemma free_reactions_are_zero_witness :
  exists nr,
    AnalysisResult.nodes (Analyzer.analyzeResult beamAnalyzer "C1") !! 1%nat = Some nr
    /\ component (NodeResult.reaction nr) 1 = 0.
Proof.
  destruct (AnalysisResult.nodes (Analyzer.analyzeResult beamAnalyzer "C1") !! 1%nat)
    as [nr|] eqn:Hnr.
  - exists nr. split; [reflexivity|].
    apply (free_reactions_are_zero beam beamAnalyzer "C1" 1 1 nr).
    + exact new_beam.
    + exact beam_success.
    + exact Hnr.
    + lia.
    + reflexivity.
  - exfalso. destruct beam_result as (P & D & reactions & members & _ & _ & _ & Hr).
    rewrite Hr in Hnr. discriminate Hnr.
Defined.

(** ** Analyzer: extrema of the member forces *)

Lemma findMax_loop (l : list MemberForces.t) (key : MemberForces.t -> R) :
  extremumOf l key
    (ForOf l (fun f '(maxVal, maxLoc) =>
       let val := Rabs (key f) in
       if Rgt_dec val (Rabs maxVal) then (key f, MemberForces.x f)
       else (maxVal, maxLoc)) (0, 0)).
Proof.
  unfold ForOf. induction l as [|g l IH] using rev_ind.
  - split; [by intros f Hf%elem_of_nil|]. left. split; [done|].
    by intros f Hf%elem_of_nil.
  - rewrite foldl_app. cbn [foldl].
    destruct (foldl _ _ l) as [v loc]. destruct IH as [Hmax Hwhich].
    cbn [fst] in Hmax. cbv zeta.
    destruct (Rgt_dec (Rabs (key g)) (Rabs v)) as [Hgt|Hle].
    + split.
      * intros f [Hf|Hf]%elem_of_app; cbn [fst].
        -- specialize (Hmax f Hf). lra.
        -- apply list_elem_of_singleton in Hf as ->. lra.
      * right. exists (length l), g.
        split; [by rewrite lookup_app_r, Nat.sub_diag by lia|].
        split; [done|]. split.
        { intros Hz. rewrite Hz, Rabs_R0 in Hgt. pose proof (Rabs_pos v). lra. }
        intros k' f' Hk' Hf'. rewrite lookup_app_l in Hf' by done.
        apply list_elem_of_lookup_2 in Hf'. specialize (Hmax f' Hf'). lra.
    + split.
      * intros f [Hf|Hf]%elem_of_app; cbn [fst]; [by apply Hmax|].
        apply list_elem_of_singleton in Hf as ->. lra.
      * destruct Hwhich as [[[= -> ->] Hz]|(k & f & Hk & Hs & Hnz & Hfirst)].
        -- left. split; [done|]. intros f [Hf|Hf]%elem_of_app; [by apply Hz|].
           apply list_elem_of_singleton in Hf as ->.
           rewrite Rabs_R0 in Hle. pose proof (Rabs_pos (key g)).
           destruct (Req_dec (key g) 0) as [|Hne]; [done|].
           apply Rabs_pos_lt in Hne. lra.
        -- right. exists k, f. pose proof (lookup_lt_Some _ _ _ Hk) as Hlt.
           split; [by rewrite lookup_app_l|]. split; [done|]. split; [done|].
           intros k' f' Hk' Hf'. rewrite lookup_app_l in Hf' by lia.
           by eapply Hfirst.
Qed.

(** X26: [findMax] returns the sample value of largest magnitude and where it
    occurs: no sample has a larger [|key|] than the returned value; when all
    values are zero (or there is no sample) the result is value 0 at
    location 0; otherwise the result is the value (with its sign) and the
    [x] of the first sample whose magnitude is the largest. *)
Theorem findMax_is_first_largest
    (forces : list MemberForces.t) (key : MemberForces.t -> R) :
  let m := Analyzer.findMax forces key in
  (forall f, f ∈ forces -> Rabs (key f) <= Rabs (Extremum.value m))
  /\ ((Extremum.value m = 0 /\ Extremum.location m = 0
       /\ forall f, f ∈ forces -> key f = 0)
      \/ exists k f, forces !! k = Some f
           /\ Extremum.value m = key f
           /\ Extremum.location m = MemberForces.x f
           /\ key f <> 0
           /\ forall k' f', (k' < k)%nat -> forces !! k' = Some f' ->
                Rabs (key f') < Rabs (key f)).
Proof.
  cbv zeta. unfold Analyzer.findMax.
  pose proof (findMax_loop forces key) as H.
  destruct (ForOf forces _ _) as [v loc]. destruct H as [Hmax Hwhich].
  cbn [fst Extremum.value Extremum.location] in *. split; [done|].
  destruct Hwhich as [[[= -> ->] Hz]|(k & f & Hk & [= -> ->] & Hnz & Hfirst)].
  - by left.
  - right. by exists k, f.
Qed.

(** ** Analyzer: the elements built by the constructor *)

(** A map filled by [map.set(v.id, v)] for every [v] of a list. *)
Lemma insert_loop {A : Type} (id : A -> string) (l : list A) (m0 : gmap string A) :
  let m := foldl (fun m v => <[id v := v]> m) m0 l in
  (forall k v, m0 !! k = Some v -> id v = k) ->
  (forall k v, m !! k = Some v -> id v = k)
  /\ forall k, is_Some (m !! k) <-> hasId id l k = true \/ is_Some (m0 !! k).
Proof.
  revert m0. induction l as [|w l IH]; intros m0 m H0.
  - split; [done|]. intros k. simpl. split; [by right|]. by intros [|].
  - subst m. cbn [foldl]. destruct (IH (<[id w := w]> m0)) as [Hid Hdom].
    { intros k v. destruct (decide (id w = k)) as [<-|Hne].
      - rewrite lookup_insert_eq. by intros [= <-].
      - rewrite lookup_insert_ne by done. apply H0. }
    split; [done|]. intros k. rewrite Hdom. unfold hasId. cbn [existsb].
    destruct (String.eqb_spec (id w) k) as [<-|Hne].
    + rewrite lookup_insert_eq. cbn [orb]. split; intros _; [by left|].
      right. by eexists.
    + rewrite lookup_insert_ne by done. cbn [orb]. done.
Qed.

Lemma forEach_from_fst (l : list Node.t) (start : nat)
    (s : gmap string Node.t * gmap string nat) :
  (forEach_from l start (fun node index '(nodeMap, nodeIndexMap) =>
     (<[Node.id node := node]> nodeMap, <[Node.id node := index]> nodeIndexMap)) s).1
  = foldl (fun m v => <[Node.id v := v]> m) s.1 l.
Proof.
  revert start s. induction l as [|v l IH]; intros start [nm nim]; [done|].
  cbn [forEach_from foldl fst]. by rewrite IH.
Qed.

(** The loop of [initialize] over the members. *)
Lemma elements_loop (nm : gmap string Node.t) (mm : gmap string Material.t)
    (sm : gmap string Section_.t) (l : list Member.t)
    (els0 els : list Member3DElement.t) :
  (forall k v, nm !! k = Some v -> Node.id v = k) ->
  (forall k v, mm !! k = Some v -> Material.id v = k) ->
  (forall k v, sm !! k = Some v -> Section_.id v = k) ->
  ForOfE l (fun member elements =>
      match nm !! Member.iNode member, nm !! Member.jNode member,
            mm !! Member.material member, sm !! Member.section member with
      | Some iNode, Some jNode, Some material, Some section =>
          let! element :=
            Member3DElement.new member iNode jNode material section in
          Ok (elements ++ [element])
      | _, _, _, _ => Ok elements
      end) els0 = Ok els ->
  exists new, els = els0 ++ new
    /\ Forall2 builtFrom new
         (List.filter (fun m =>
            bool_decide (is_Some (nm !! Member.iNode m))
            && bool_decide (is_Some (nm !! Member.jNode m))
            && bool_decide (is_Some (mm !! Member.material m))
            && bool_decide (is_Some (sm !! Member.section m))) l).
Proof.
  intros Hnm Hmm Hsm. revert els0. induction l as [|m l IH]; intros els0.
  - cbn [ForOfE]. intros [= <-]. exists []. by rewrite app_nil_r.
  - cbn [ForOfE List.filter].
    destruct (nm !! Member.iNode m) as [iN|] eqn:HiN.
    2: { cbn [bind]. rewrite bool_decide_eq_false_2 by (by intros [? ?]). apply IH. }
    destruct (nm !! Member.jNode m) as [jN|] eqn:HjN.
    2: { cbn [bind]. rewrite (bool_decide_eq_false_2 (is_Some None))
           by (by intros [? ?]).
         rewrite andb_false_r. apply IH. }
    destruct (mm !! Member.material m) as [mat|] eqn:Hmat.
    2: { cbn [bind]. rewrite (bool_decide_eq_false_2 (is_Some None))
           by (by intros [? ?]).
         rewrite andb_false_r. apply IH. }
    destruct (sm !! Member.section m) as [sec|] eqn:Hsec.
    2: { cbn [bind]. rewrite (bool_decide_eq_false_2 (is_Some None))
           by (by intros [? ?]).
         rewrite andb_false_r. apply IH. }
    rewrite !bool_decide_eq_true_2 by (by eexists). cbn [andb].
    destruct (Member3DElement.new m iN jN mat sec) as [e|msg] eqn:Hnew; [|done].
    cbn [bind]. intros Hrest. destruct (IH _ Hrest) as (new & -> & Hall).
    exists (e :: new). split; [by rewrite <- app_assoc|].
    constructor; [|done].
    unfold Member3DElement.new in Hnew. destruct (Rlt_dec _ _); [done|].
    injection Hnew as <-. unfold builtFrom. simpl.
    rewrite (Hnm _ _ HiN), (Hnm _ _ HjN), (Hmm _ _ Hmat), (Hsm _ _ Hsec). done.
Qed.

(** X27: the analyzer built by the constructor has one element for every
    member whose two end nodes, material and section are defined in the
    model, in the order of the model; a member with an unknown node,
    material or section id is skipped without an error.  Every element has
    the id of its member, end nodes, material and section with the ids the
    member names, and the member's rotation (0 when it is missing). *)
Theorem constructor_elements (model : StanalModel.t) (a : Analyzer.t) :
  Analyzer.new model = Ok a ->
  Forall2 builtFrom (Analyzer.elements a)
    (List.filter (resolvable model) (StanalModel.members model)).
Proof.
  unfold Analyzer.new, Analyzer.initialize.
  cbn [Analyzer.model Analyzer.nodeMap Analyzer.nodeIndexMap Analyzer.materialMap
       Analyzer.sectionMap Analyzer.supportMap Analyzer.elements Analyzer.freeDOF
       Analyzer.fixedDOF].
  pose proof (forEach_from_fst (StanalModel.nodes model) 0 (∅, ∅)) as Hfst.
  fold (ForEach (StanalModel.nodes model)
          (fun node index '(nodeMap, nodeIndexMap) =>
             (<[Node.id node := node]> nodeMap, <[Node.id node := index]> nodeIndexMap))
          ((∅ : gmap string Node.t), (∅ : gmap string nat))) in Hfst.
  destruct (ForEach (StanalModel.nodes model) _ _) as [nm nim].
  cbn [fst] in Hfst.
  destruct (insert_loop Node.id (StanalModel.nodes model) ∅) as [Hnm Hnd];
    [by intros k v; rewrite lookup_empty|].
  rewrite <- Hfst in Hnm, Hnd.
  destruct (insert_loop Material.id (StanalModel.materials model) ∅) as [Hmm Hmd];
    [by intros k v; rewrite lookup_empty|].
  destruct (insert_loop Section_.id (StanalModel.sections model) ∅) as [Hsm Hsd];
    [by intros k v; rewrite lookup_empty|].
  unfold ForOf.
  match goal with
  | |- bind (ForOfE ?l ?body ?s) _ = _ -> _ =>
      destruct (ForOfE l body s) as [els|msg] eqn:Hels; [|done]
  end.
  cbn [bind]. intros [= <-].
  match goal with
  | |- context [Analyzer.classifyDOF ?a0] =>
      destruct (classifyDOF_fields a0) as (_ & _ & _ & He & _)
  end.
  rewrite He. cbn [Analyzer.elements].
  destruct (elements_loop _ _ _ _ _ _ Hnm Hmm Hsm Hels) as (new & -> & Hall).
  cbn [app].
  erewrite filter_ext; [exact Hall|].
  intros m. unfold resolvable.
  assert (Hb : forall (P : Prop) `{Decision P} (b : bool),
            (P <-> b = true \/ is_Some (@None nat)) -> b = bool_decide P).
  { intros P ? b HP. destruct b.
    - symmetry. apply bool_decide_eq_true_2, HP. by left.
    - symmetry. apply bool_decide_eq_false_2. intros [?|[? ?]]%HP; done. }
  assert (Hn : forall {A : Type} (m0 : gmap string A) (k : string),
            m0 = ∅ -> is_Some (m0 !! k) <-> is_Some (@None nat)).
  { intros A m0 k ->. rewrite lookup_empty. split; intros [? ?]; done. }
  f_equal; [f_equal; [f_equal|]|]; apply Hb.
  - rewrite Hnd, (Hn _ ∅) by done. done.
  - rewrite Hnd, (Hn _ ∅) by done. done.
  - rewrite Hmd, (Hn _ ∅) by done. done.
  - rewrite Hsd, (Hn _ ∅) by done. done.
Qed.

Lemma new_stray : Analyzer.new stray = Ok strayAnalyzer.
Proof.
  run_constructor stray. cbn [beamSupports ForOf foldl Support.node].
  rewrite (new_unit_x _ _ _ "N1" "N2"). cbn [bind app].
  reflexivity.
Qed.

(** Of the two members of [stray] only the second one has an element. *)
Lemma constructor_elements_witness :
  Forall2 builtFrom (Analyzer.elements strayAnalyzer)
    (List.filter (resolvable stray) (StanalModel.members stray)).
Proof.
  apply (constructor_elements stray strayAnalyzer). exact new_stray.
Defined.

(** ** Analyzer: superposition of load cases *)

Lemma zip_with_map_same {A B C D : Type} (h : B -> C -> D) (g1 : A -> B)
    (g2 : A -> C) (l : list A) :
  zip_with h (map g1 l) (map g2 l) = map (fun v => h (g1 v) (g2 v)) l.
Proof. induction l as [|v l IH]; [done|]. cbn. by rewrite IH. Qed.

(** One pass of the loop of [analyze] over the factors. *)
Lemma combine_step (a : Analyzer.t) (caseName : string) (factor : R) (P : list R) :
  analyzer_ok a -> length P = Analyzer.numDOF a ->
  match Analyzer.findLoadCase a caseName with
  | Some loadCase =>
      let! caseP := Analyzer.assembleLoadVector a loadCase in
      Ok (For 0 (Analyzer.numDOF a) (fun i P =>
            <[i := vget P i + factor * vget caseP i]> P) P)
  | None => Ok P
  end = Ok (vplus P (scaleVec factor (caseVector a caseName))).
Proof.
  intros Hok HlP. pose proof (length_caseVector a caseName Hok) as Hlen.
  unfold caseVector in *.
  destruct (Analyzer.findLoadCase a caseName) as [lc|].
  - destruct (assembleLoadVector_ok a lc Hok) as (caseP & HcP & HlcP).
    rewrite HcP in *. cbn [bind]. f_equal.
    destruct (For_update (Analyzer.numDOF a)
                (fun i r => r + factor * vget caseP i) P) as [Hl Hg]; [lia|].
    cbv zeta in Hl, Hg. apply vec_ext.
    + rewrite Hl, length_vplus; [done|]. rewrite length_scaleVec. congruence.
    + intros i Hi. rewrite Hl, HlP in Hi.
      rewrite Hg, decide_True, vget_vplus, vget_scaleVec by
        (done || rewrite length_scaleVec; congruence). done.
  - f_equal. apply vec_ext.
    + rewrite length_vplus; [done|]. rewrite length_scaleVec. congruence.
    + intros i Hi. rewrite vget_vplus, vget_scaleVec, vget_replicate
        by (rewrite length_scaleVec; congruence). ring.
Qed.

(** The load vector of a combination of two cases. *)
Lemma combinedLoadVector_pair (a : Analyzer.t) (combo : LoadCombination.t)
    (caseA caseB : string) (fA fB : R) :
  analyzer_ok a ->
  LoadCombination.factors combo = [(caseA, fA); (caseB, fB)] ->
  Analyzer.combinedLoadVector a combo
  = Ok (vplus (scaleVec fA (caseVector a caseA)) (scaleVec fB (caseVector a caseB))).
Proof.
  intros Hok Hf.
  pose proof (length_caseVector a caseA Hok) as HlA.
  pose proof (length_caseVector a caseB Hok) as HlB.
  assert (HsA : length (scaleVec fA (caseVector a caseA)) = Analyzer.numDOF a)
    by (by rewrite length_scaleVec).
  assert (HsB : length (scaleVec fB (caseVector a caseB)) = Analyzer.numDOF a)
    by (by rewrite length_scaleVec).
  assert (Hz : length (vplus (replicate (Analyzer.numDOF a) 0)
                         (scaleVec fA (caseVector a caseA))) = Analyzer.numDOF a).
  { rewrite length_vplus; rewrite length_replicate; done. }
  unfold Analyzer.combinedLoadVector. rewrite Hf. cbn [ForOfE].
  rewrite combine_step by (done || by rewrite length_replicate). cbn [bind].
  rewrite combine_step by done.
  cbn [bind]. f_equal. apply vec_ext.
  - rewrite (length_vplus (vplus _ _)) by congruence.
    rewrite (length_vplus (scaleVec _ _)) by congruence. congruence.
  - intros i _.
    rewrite (vget_vplus (vplus _ _)) by congruence.
    rewrite (vget_vplus (replicate _ _)) by (rewrite length_replicate; congruence).
    rewrite (vget_vplus (scaleVec _ _)) by congruence.
    rewrite vget_replicate. ring.
Qed.

(** Whether [solve] returns does not depend on the right-hand side. *)
Lemma solve_any_rhs (A : Matrix.t) (b c x : list R) :
  Matrix.solve A b = Ok x -> length c = length b ->
  exists y, Matrix.solve A c = Ok y.
Proof.
  intros Hx Hl. pose proof (solve_scale 0 A b) as H0. rewrite Hx in H0. cbn in H0.
  pose proof (solve_scale 0 A c) as H1.
  rewrite !scaleVec_zero, Hl in *. rewrite H0 in H1.
  destruct (Matrix.solve A c) as [y|msg]; [by exists y|done].
Qed.

(** The solution for the sum of two right-hand sides. *)
Lemma solve_vplus (A : Matrix.t) (b c x y : list R) :
  wf A ->
  Matrix.solve A b = Ok x -> Matrix.solve A c = Ok y ->
  Matrix.solve A (vplus b c) = Ok (vplus x y).
Proof.
  intros Hw Hx Hy.
  destruct (solve_ok_dims A b x Hx) as (Hrc & Hrb & Hn).
  destruct (solve_ok_dims A c y Hy) as (_ & Hrc' & _).
  assert (Hbc : length b = length c) by congruence.
  destruct (solve_any_rhs A b (vplus b c) x Hx) as (z & Hz);
    [by rewrite length_vplus|].
  rewrite Hz. f_equal.
  set (n := Matrix.rows A) in *.
  pose proof (solve_spec n A b Hw eq_refl (eq_sym Hrc) (eq_sym Hrb) Hn) as Sb.
  pose proof (solve_spec n A c Hw eq_refl (eq_sym Hrc) (eq_sym Hrc') Hn) as Sc.
  pose proof (solve_spec n A (vplus b c) Hw eq_refl (eq_sym Hrc)) as Sz.
  rewrite Hx in Sb. rewrite Hy in Sc. rewrite Hz in Sz.
  destruct Sb as (Hlx & Hsx & Hnull). destruct Sc as (Hly & Hsy & _).
  destruct Sz as (Hlz & Hsz & _); [by rewrite length_vplus; congruence|done|].
  apply vec_ext; [rewrite length_vplus; congruence|].
  intros j Hj. rewrite vget_vplus by congruence.
  assert (H0 : vget z j - (vget x j + vget y j) = 0); [|lra].
  apply (Hnull (fun j => vget z j - (vget x j + vget y j))); [|lia].
  intros i Hi. specialize (Hsx i Hi). specialize (Hsy i Hi).
  specialize (Hsz i Hi). rewrite vget_vplus in Hsz by done.
  rewrite (Rsum_ext _ _ (fun j => Matrix.get A i j * vget z j
                                  - (Matrix.get A i j * vget x j
                                     + Matrix.get A i j * vget y j)))
    by (intros; ring).
  rewrite Rsum_minus, Rsum_plus. lra.
Qed.

Lemma extractVector_vplus (P1 P2 : list R) (indices : list nat) :
  length P1 = length P2 ->
  Matrix.extractVector (vplus P1 P2) indices
  = vplus (Matrix.extractVector P1 indices) (Matrix.extractVector P2 indices).
Proof.
  intros Hl. unfold Matrix.extractVector, vplus at 2.
  rewrite zip_with_map_same. apply map_ext. intros i. by apply vget_vplus.
Qed.

Lemma displacements_vplus (a : Analyzer.t) (x y : list R) :
  analyzer_ok a -> length x = length y ->
  Matrix.setVector (replicate (Analyzer.numDOF a) 0) (Analyzer.freeDOF a) (vplus x y)
  = vplus
      (Matrix.setVector (replicate (Analyzer.numDOF a) 0) (Analyzer.freeDOF a) x)
      (Matrix.setVector (replicate (Analyzer.numDOF a) 0) (Analyzer.freeDOF a) y).
Proof.
  intros Hok Hl.
  destruct (displacements_spec a x Hok) as (Hlx & Hsx & Hzx).
  destruct (displacements_spec a y Hok) as (Hly & Hsy & Hzy).
  destruct (displacements_spec a (vplus x y) Hok) as (Hlz & Hsz & Hzz).
  apply vec_ext; [rewrite length_vplus; congruence|].
  intros d _. rewrite vget_vplus by congruence.
  destruct (decide (d ∈ Analyzer.freeDOF a)) as [Hd|Hd].
  - apply list_elem_of_lookup in Hd as [p Hp].
    pose proof (lookup_lt_Some _ _ _ Hp) as Hplt.
    rewrite <- (nth_lookup_Some _ _ O _ Hp).
    rewrite Hsx, Hsy, Hsz by done. by apply vget_vplus.
  - rewrite Hzx, Hzy, Hzz by done. ring.
Qed.

Lemma computeReactions_vplus (a : Analyzer.t) (K : Matrix.t)
    (D1 D2 P1 P2 R1 R2 : list R) :
  Matrix.rows K = Analyzer.numDOF a -> Matrix.cols K = Analyzer.numDOF a ->
  length D1 = Analyzer.numDOF a -> length D2 = Analyzer.numDOF a ->
  length P1 = length P2 ->
  Analyzer.computeReactions a K D1 P1 = Ok R1 ->
  Analyzer.computeReactions a K D2 P2 = Ok R2 ->
  Analyzer.computeReactions a K (vplus D1 D2) (vplus P1 P2) = Ok (vplus R1 R2).
Proof.
  intros Hr Hc Hl1 Hl2 HlP H1 H2.
  destruct (computeReactions_spec a K D1 P1 Hr Hc Hl1) as (r1 & E1 & Hlr1 & Hg1).
  destruct (computeReactions_spec a K D2 P2 Hr Hc Hl2) as (r2 & E2 & Hlr2 & Hg2).
  destruct (computeReactions_spec a K (vplus D1 D2) (vplus P1 P2) Hr Hc)
    as (r & -> & Hlr & Hg); [rewrite length_vplus; congruence|].
  assert (r1 = R1) as -> by congruence. assert (r2 = R2) as -> by congruence.
  f_equal. apply vec_ext; [rewrite length_vplus; congruence|].
  intros i Hi. rewrite Hlr in Hi.
  rewrite Hg by done. rewrite (vget_vplus R1 R2) by congruence.
  rewrite (vget_vplus P1 P2) by congruence. rewrite Hg1, Hg2 by done.
  unfold matVec.
  rewrite (Rsum_ext _ _ (fun j => Matrix.get K i j * vget D1 j
                                  + Matrix.get K i j * vget D2 j)).
  2: { intros j _. rewrite vget_vplus by congruence. ring. }
  rewrite Rsum_plus. ring.
Qed.

Lemma extractNodeResults_vplus (a : Analyzer.t) (D1 D2 R1 R2 : list R) :
  length D1 = length D2 -> length R1 = length R2 ->
  Analyzer.extractNodeResults a (vplus D1 D2) (vplus R1 R2)
  = zip_with addNode (Analyzer.extractNodeResults a D1 R1)
      (Analyzer.extractNodeResults a D2 R2).
Proof.
  intros HlD HlR. unfold Analyzer.extractNodeResults. apply list_eq. intros i.
  rewrite lookup_zip_with, !list_lookup_imap.
  destruct (StanalModel.nodes (Analyzer.model a) !! i) as [node|]; [|done].
  cbn. unfold addNode, addDOF. cbn. by rewrite !vget_vplus.
Qed.

Lemma elementDisplacements_vplus (a : Analyzer.t) (D1 D2 : list R)
    (e : Member3DElement.t) (l : nat) :
  length D1 = length D2 ->
  vget (elementDisplacements a (vplus D1 D2) e) l
  = vget (elementDisplacements a D1 e) l + vget (elementDisplacements a D2 e) l.
Proof.
  intros Hl.
  assert (Hn : forall i, nth i (vplus D1 D2) 0 = nth i D1 0 + nth i D2 0)
    by (intros i; by apply vget_vplus).
  unfold elementDisplacements, Analyzer.dofAt, vget.
  destruct (Analyzer.nodeIndexMap a !! Node.id (Member3DElement.iNode e));
    destruct (Analyzer.nodeIndexMap a !! Node.id (Member3DElement.jNode e));
    do 12 (destruct l as [|l]; [cbn [nth]; rewrite ?Hn; (reflexivity || ring)|]);
    destruct l; cbn [nth]; ring.
Qed.

Lemma forces_vplus (a : Analyzer.t) (D1 D2 : list R) (e : Member3DElement.t) :
  length D1 = length D2 ->
  map Analyzer.toMemberForces (samplesOf e (elementDisplacements a (vplus D1 D2) e))
  = zip_with addForces
      (map Analyzer.toMemberForces (samplesOf e (elementDisplacements a D1 e)))
      (map Analyzer.toMemberForces (samplesOf e (elementDisplacements a D2 e))).
Proof.
  intros Hl. unfold samplesOf. rewrite !map_map, zip_with_map_same.
  apply map_ext. intros i.
  assert (Hf : forall k,
            localEndForces (Member3DElement.localStiffnessMatrix e) (transformationOf e)
              (elementDisplacements a (vplus D1 D2) e) k
            = localEndForces (Member3DElement.localStiffnessMatrix e) (transformationOf e)
                (elementDisplacements a D1 e) k
              + localEndForces (Member3DElement.localStiffnessMatrix e)
                  (transformationOf e) (elementDisplacements a D2 e) k).
  { intros k. unfold localEndForces, matVec. rewrite <- Rsum_plus.
    apply Rsum_ext. intros j _.
    rewrite (Rsum_ext _ _ (fun l =>
               Matrix.get (transformationOf e) j l * vget (elementDisplacements a D1 e) l
               + Matrix.get (transformationOf e) j l
                 * vget (elementDisplacements a D2 e) l)).
    2: { intros l _. rewrite elementDisplacements_vplus by done. ring. }
    rewrite Rsum_plus. ring. }
  unfold interpolatedSample, Analyzer.toMemberForces, addForces, vget.
  cbn [map seq ForcePoint.x ForcePoint.forces nth MemberForces.x
       MemberForces.axial MemberForces.shearY MemberForces.shearZ
       MemberForces.torsion MemberForces.momentY MemberForces.momentZ].
  rewrite !Hf. f_equal; ring.
Qed.

(** The successful result of [analyze], from the solution of the reduced
    system. *)
Lemma analyzeResult_solved (a : Analyzer.t) (name : string)
    (combo : LoadCombination.t) (K : Matrix.t) (P D1 : list R) :
  analyzer_ok a ->
  Analyzer.findCombination a name = Some combo ->
  Analyzer.assembleGlobalStiffnessMatrix a = Ok K ->
  Analyzer.combinedLoadVector a combo = Ok P ->
  Matrix.solve (Matrix.subMatrix K (Analyzer.freeDOF a) (Analyzer.freeDOF a))
    (Matrix.extractVector P (Analyzer.freeDOF a)) = Ok D1 ->
  let D := Matrix.setVector (replicate (Analyzer.numDOF a) 0) (Analyzer.freeDOF a) D1 in
  exists reactions,
    Analyzer.computeReactions a K D P = Ok reactions
    /\ length reactions = Analyzer.numDOF a
    /\ Analyzer.analyzeResult a name
       = AnalysisResult.mk true None name
           (Analyzer.extractNodeResults a D reactions)
           (map (fun e => memberResultOf e (elementDisplacements a D e))
              (Analyzer.elements a))
           (Analyzer.computeSummary
              (Analyzer.extractNodeResults a D reactions)
              (map (fun e => memberResultOf e (elementDisplacements a D e))
                 (Analyzer.elements a))).
Proof.
  intros Hok Hcombo HK HP Hsolve D.
  destruct (analyzeResult_cases a name Hok)
    as [[Hnone _]|(combo' & K' & P' & Hcombo' & HK' & HP' & HlP & Hcase)];
    [congruence|].
  assert (combo' = combo) as -> by congruence.
  assert (K' = K) as -> by congruence. assert (P' = P) as -> by congruence.
  destruct Hcase as [(msg & Hthrow & _)|(D1' & reactions & Hsolve' & Hrest)];
    [congruence|].
  assert (D1' = D1) as -> by congruence. cbv zeta in Hrest.
  destruct Hrest as (HR & HlR & _ & Hres). by exists reactions.
Qed.

(** The solution of the reduced system behind a successful result. *)
Lemma success_solved (a : Analyzer.t) (name : string) :
  analyzer_ok a ->
  AnalysisResult.success (Analyzer.analyzeResult a name) = true ->
  exists combo K P D1,
    Analyzer.findCombination a name = Some combo
    /\ Analyzer.assembleGlobalStiffnessMatrix a = Ok K
    /\ wf K /\ Matrix.rows K = Analyzer.numDOF a /\ Matrix.cols K = Analyzer.numDOF a
    /\ Analyzer.combinedLoadVector a combo = Ok P
    /\ length P = Analyzer.numDOF a
    /\ Matrix.solve (Matrix.subMatrix K (Analyzer.freeDOF a) (Analyzer.freeDOF a))
         (Matrix.extractVector P (Analyzer.freeDOF a)) = Ok D1.
Proof.
  intros Hok Hsucc.
  destruct (analyzeResult_cases a name Hok)
    as [[_ Hr]|(combo & K & P & Hcombo & HK & HP & HlP & Hcase)].
  { rewrite Hr in Hsucc. done. }
  destruct Hcase as [(msg & _ & Hr)|(D1 & reactions & Hsolve & _)].
  { rewrite Hr in Hsucc. done. }
  destruct (assemble_inv a (fun _ => True) Hok I) as (K' & HK' & Hw & Hr & Hc & _);
    [done|].
  assert (K' = K) as -> by congruence.
  by exists combo, K, P, D1.
Qed.

(** X28: superposition of load cases.  For an analyzer built by the
    constructor and three combinations with the factors [{A: fA}],
    [{B: fB}] and [{A: fA, B: fB}]: when the analysis of the first succeeds,
    so do the other two, and in the result of the third every node has the
    sum of the displacements and of the reactions of the first two, and
    every member force sample is the sum of the samples of the first two at
    the same position. *)
Theorem load_case_superposition
    (model : StanalModel.t) (a : Analyzer.t) (nA nB nAB : string)
    (cA cB cAB : LoadCombination.t) (caseA caseB : string) (fA fB : R) :
  Analyzer.new model = Ok a ->
  Analyzer.findCombination a nA = Some cA ->
  Analyzer.findCombination a nB = Some cB ->
  Analyzer.findCombination a nAB = Some cAB ->
  LoadCombination.factors cA = [(caseA, fA)] ->
  LoadCombination.factors cB = [(caseB, fB)] ->
  LoadCombination.factors cAB = [(caseA, fA); (caseB, fB)] ->
  AnalysisResult.success (Analyzer.analyzeResult a nA) = true ->
  let rA := Analyzer.analyzeResult a nA in
  let rB := Analyzer.analyzeResult a nB in
  let rAB := Analyzer.analyzeResult a nAB in
  AnalysisResult.success rB = true
  /\ AnalysisResult.success rAB = true
  /\ AnalysisResult.nodes rAB
     = zip_with addNode (AnalysisResult.nodes rA) (AnalysisResult.nodes rB)
  /\ map MemberResult.forces (AnalysisResult.members rAB)
     = zip_with (zip_with addForces)
         (map MemberResult.forces (AnalysisResult.members rA))
         (map MemberResult.forces (AnalysisResult.members rB)).
Proof.
  intros Hnew HnA HnB HnAB HfA HfB HfAB Hsucc. cbv zeta.
  destruct (new_ok model a Hnew) as [_ Hok].
  destruct (success_solved a nA Hok Hsucc)
    as (cA' & K & PA & xA & HnA' & HK & HwK & HrK & HcK & HPA & HlPA & HxA).
  assert (cA' = cA) as -> by congruence.
  pose proof (combinedLoadVector_single a cA caseA fA Hok HfA) as HPA'.
  pose proof (combinedLoadVector_single a cB caseB fB Hok HfB) as HPB.
  pose proof (combinedLoadVector_pair a cAB caseA caseB fA fB Hok HfAB) as HPAB.
  set (PB := scaleVec fB (caseVector a caseB)) in *.
  assert (PA = scaleVec fA (caseVector a caseA)) as HPAeq by congruence.
  rewrite <- HPAeq in HPAB. clear HPA' HPAeq.
  assert (HlPB : length PB = Analyzer.numDOF a).
  { unfold PB. by rewrite length_scaleVec, length_caseVector. }
  set (free := Analyzer.freeDOF a) in *.
  destruct (solve_any_rhs _ _ (Matrix.extractVector PB free) _ HxA) as (xB & HxB).
  { unfold Matrix.extractVector. by rewrite !length_map. }
  destruct (subMatrix_spec K free free) as (Hw11 & _).
  pose proof (solve_vplus _ _ _ _ _ Hw11 HxA HxB) as HxAB.
  rewrite <- extractVector_vplus in HxAB by congruence.
  destruct (analyzeResult_solved a nA cA K PA xA Hok HnA HK HPA HxA)
    as (RA & HRA & HlRA & ->).
  destruct (analyzeResult_solved a nB cB K PB xB Hok HnB HK HPB HxB)
    as (RB & HRB & HlRB & ->).
  destruct (analyzeResult_solved a nAB cAB K (vplus PA PB) (vplus xA xB)
              Hok HnAB HK HPAB HxAB) as (RAB & HRAB & HlRAB & ->).
  cbn [AnalysisResult.success AnalysisResult.nodes AnalysisResult.members].
  do 2 (split; [done|]).
  destruct (displacements_spec a xA Hok) as (HlDA & _).
  destruct (displacements_spec a xB Hok) as (HlDB & _).
  assert (Hlx : length xA = length xB).
  { destruct (solve_ok_dims _ _ _ HxA) as (_ & _ & Hone).
    destruct (subMatrix_spec K free free) as (Hw & Hr & Hc & _).
    cbv zeta in Hw, Hr, Hc.
    pose proof (solve_spec (length free) (Matrix.subMatrix K free free)
                  (Matrix.extractVector PA free) Hw Hr Hc) as SA.
    pose proof (solve_spec (length free) (Matrix.subMatrix K free free)
                  (Matrix.extractVector PB free) Hw Hr Hc) as SB.
    rewrite HxA in SA. rewrite HxB in SB.
    rewrite Hr in Hone.
    destruct SA as (? & _); [unfold Matrix.extractVector; by rewrite length_map|done|].
    destruct SB as (? & _); [unfold Matrix.extractVector; by rewrite length_map|done|].
    congruence. }
  rewrite displacements_vplus in HRAB |- * by done.
  rewrite (computeReactions_vplus a K _ _ PA PB RA RB HrK HcK HlDA HlDB) in HRAB
    by (done || congruence).
  injection HRAB as <-.
  split.
  - apply extractNodeResults_vplus; congruence.
  - rewrite !map_map. cbn [MemberResult.forces memberResultOf].
    rewrite zip_with_map_same. apply map_ext. intros e.
    unfold memberResultOf. cbn [MemberResult.forces].
    apply forces_vplus. congruence.
Qed.

(** Whether the analysis succeeds depends on the stiffness matrix and on the
    free degrees of freedom only, not on the loads. *)
Lemma success_transfer (a a' : Analyzer.t) (n n' : string) (c' : LoadCombination.t) :
  analyzer_ok a -> analyzer_ok a' ->
  Analyzer.assembleGlobalStiffnessMatrix a' = Analyzer.assembleGlobalStiffnessMatrix a ->
  Analyzer.freeDOF a' = Analyzer.freeDOF a ->
  AnalysisResult.success (Analyzer.analyzeResult a n) = true ->
  Analyzer.findCombination a' n' = Some c' ->
  AnalysisResult.success (Analyzer.analyzeResult a' n') = true.
Proof.
  intros Hok Hok' HKeq Hfree Hsucc Hc'.
  destruct (success_solved a n Hok Hsucc)
    as (combo & K & P & D1 & _ & HK & _ & _ & _ & _ & _ & Hsolve).
  destruct (analyzeResult_cases a' n' Hok')
    as [[Hnone _]|(combo' & K' & P' & _ & HK' & _ & _ & Hcase)]; [congruence|].
  assert (K' = K) as -> by congruence. rewrite Hfree in Hcase.
  destruct Hcase as [(msg & Hthrow & _)|(D1' & reactions & _ & Hrest)].
  - destruct (solve_any_rhs _ _
                (Matrix.extractVector P' (Analyzer.freeDOF a)) _ Hsolve) as (y & Hy).
    + unfold Matrix.extractVector. by rewrite !length_map.
    + congruence.
  - cbv zeta in Hrest. destruct Hrest as (_ & _ & _ & ->). done.
Qed.

Lemma new_twoCases : Analyzer.new twoCases = Ok twoCasesAnalyzer.
Proof.
  run_constructor twoCases. cbn [beamSupports ForOf foldl Support.node].
  rewrite (new_unit_x _ _ _ "N1" "N2"). cbn [bind app].
  reflexivity.
Qed.

Lemma twoCases_success :
  AnalysisResult.success (Analyzer.analyzeResult twoCasesAnalyzer "CA") = true.
Proof.
  apply (success_transfer beamAnalyzer twoCasesAnalyzer "C1" "CA"
           (LoadCombination.mk "CA" [("A"%string, 1)])).
  - exact beam_ok.
  - exact (proj2 (new_ok twoCases twoCasesAnalyzer new_twoCases)).
  - reflexivity.
  - reflexivity.
  - exact beam_success.
  - reflexivity.
Qed.

(** The two load cases of [twoCases] and their combination. *)
Lemma load_case_superposition_witness :
  let rA := Analyzer.analyzeResult twoCasesAnalyzer "CA" in
  let rB := Analyzer.analyzeResult twoCasesAnalyzer "CB" in
  let rAB := Analyzer.analyzeResult twoCasesAnalyzer "CAB" in
  AnalysisResult.success rB = true
  /\ AnalysisResult.success rAB = true
  /\ AnalysisResult.nodes rAB
     = zip_with addNode (AnalysisResult.nodes rA) (AnalysisResult.nodes rB)
  /\ map MemberResult.forces (AnalysisResult.members rAB)
     = zip_with (zip_with addForces)
         (map MemberResult.forces (AnalysisResult.members rA))
         (map MemberResult.forces (AnalysisResult.members rB)).
Proof.
  apply (load_case_superposition twoCases twoCasesAnalyzer "CA" "CB" "CAB"
           (LoadCombination.mk "CA" [("A"%string, 1)])
           (LoadCombination.mk "CB" [("B"%string, 2)])
           (LoadCombination.mk "CAB" [("A"%string, 1); ("B"%string, 2)])
           "A" "B" 1 2).
  - exact new_twoCases.
  - reflexivity.
  - reflexivity.
  - reflexivity.
  - reflexivity.
  - reflexivity.
  - reflexivity.
  - exact twoCases_success.
Defined.

(** ** Analyzer: the outcomes of analyze *)

Lemma extractNodeResults_ids (a : Analyzer.t) (D reactions : list R) :
  map NodeResult.nodeId (Analyzer.extractNodeResults a D reactions)
  = map Node.id (StanalModel.nodes (Analyzer.model a)).
Proof.
  unfold Analyzer.extractNodeResults. apply list_eq. intros i.
  change map with (@fmap list _). rewrite !list_lookup_fmap, list_lookup_imap.
  by destruct (StanalModel.nodes (Analyzer.model a) !! i).
Qed.

(** X29: the outcomes of [analyze] for an analyzer built by the constructor.
    The result names the combination.  Either it is a success without error
    message, with one node result per node of the model and one member
    result per element, in order and with their ids, each member with twelve
    force samples; or it is a failure with no node and member results and the
    empty summary, whose message is ["Load combination '<name>' not found"]
    when the model has no combination of that name,
    ["Cannot read properties of undefined (reading '-1')"] when the
    combination exists and no degree of freedom is free, and
    ["Matrix is singular or nearly singular"] otherwise. *)
Theorem analyze_outcomes (model : StanalModel.t) (a : Analyzer.t) (name : string) :
  Analyzer.new model = Ok a ->
  let r := Analyzer.analyzeResult a name in
  AnalysisResult.loadCase r = name
  /\ ((AnalysisResult.success r = true
       /\ AnalysisResult.error r = None
       /\ map NodeResult.nodeId (AnalysisResult.nodes r)
          = map Node.id (StanalModel.nodes model)
       /\ map MemberResult.memberId (AnalysisResult.members r)
          = map Member3DElement.id (Analyzer.elements a)
       /\ Forall (fun m => length (MemberResult.forces m) = 12%nat)
            (AnalysisResult.members r))
      \/ (AnalysisResult.success r = false
          /\ AnalysisResult.nodes r = []
          /\ AnalysisResult.members r = []
          /\ AnalysisResult.summary r = Analyzer.emptySummary
          /\ ((Analyzer.findCombination a name = None
               /\ AnalysisResult.error r
                  = Some ("Load combination '" ++ name ++ "' not found")%string)
              \/ (Analyzer.findCombination a name <> None
                  /\ Analyzer.freeDOF a = []
                  /\ AnalysisResult.error r
                     = Some "Cannot read properties of undefined (reading '-1')"%string)
              \/ (Analyzer.findCombination a name <> None
                  /\ Analyzer.freeDOF a <> []
                  /\ AnalysisResult.error r
                     = Some "Matrix is singular or nearly singular"%string)))).
Proof.
  intros Hnew. cbv zeta. destruct (new_ok model a Hnew) as [Hmodel Hok].
  destruct (analyzeResult_cases a name Hok)
    as [[Hnone ->]|(combo & K & P & Hcombo & HK & HP & HlP & Hcase)].
  { split; [done|]. right. do 4 (split; [done|]). by left. }
  destruct Hcase as [(msg & Hthrow & ->)|(D1 & reactions & _ & Hrest)].
  - split; [done|]. right. do 4 (split; [done|]). right.
    cbn [failedResult AnalysisResult.error].
    destruct (subMatrix_spec K (Analyzer.freeDOF a) (Analyzer.freeDOF a))
      as (Hw11 & Hr11 & Hc11 & _).
    cbv zeta in Hw11, Hr11, Hc11.
    destruct (Analyzer.freeDOF a) as [|d free] eqn:Hfree.
    + left. split; [congruence|]. split; [done|].
      rewrite solve_no_unknown in Hthrow by done. congruence.
    + right. split; [congruence|]. split; [done|].
      pose proof (solve_spec _ _ (Matrix.extractVector P (d :: free))
                    Hw11 Hr11 Hc11) as Hspec.
      rewrite Hthrow in Hspec. rewrite Hspec; [done| |cbn; lia].
      unfold Matrix.extractVector. by rewrite length_map.
  - cbv zeta in Hrest. destruct Hrest as (_ & _ & _ & ->).
    split; [done|]. left.
    cbn [AnalysisResult.success AnalysisResult.error AnalysisResult.nodes
         AnalysisResult.members].
    do 2 (split; [done|]). split; [by rewrite extractNodeResults_ids, Hmodel|].
    split.
    + rewrite map_map. by apply map_ext.
    + apply Forall_forall. intros m (e & -> & _)%list_elem_of_fmap.
      unfold memberResultOf, samplesOf. cbn [MemberResult.forces].
      by rewrite !length_map, length_seq.
Qed.

(** The analysis of the beam for its first combination. *)
Lemma analyze_outcomes_witness :
  let r := Analyzer.analyzeResult beamAnalyzer "C1" in
  AnalysisResult.loadCase r = "C1"%string
  /\ ((AnalysisResult.success r = true
       /\ AnalysisResult.error r = None
       /\ map NodeResult.nodeId (AnalysisResult.nodes r)
          = map Node.id (StanalModel.nodes beam)
       /\ map MemberResult.memberId (AnalysisResult.members r)
          = map Member3DElement.id (Analyzer.elements beamAnalyzer)
       /\ Forall (fun m => length (MemberResult.forces m) = 12%nat)
            (AnalysisResult.members r))
      \/ (AnalysisResult.success r = false
          /\ AnalysisResult.nodes r = []
          /\ AnalysisResult.members r = []
          /\ AnalysisResult.summary r = Analyzer.emptySummary
          /\ ((Analyzer.findCombination beamAnalyzer "C1" = None
               /\ AnalysisResult.error r
                  = Some ("Load combination '" ++ "C1" ++ "' not found")%string)
              \/ (Analyzer.findCombination beamAnalyzer "C1" <> None
                  /\ Analyzer.freeDOF beamAnalyzer = []
                  /\ AnalysisResult.error r
                     = Some "Cannot read properties of undefined (reading '-1')"%string)
              \/ (Analyzer.findCombination beamAnalyzer "C1" <> None
                  /\ Analyzer.freeDOF beamAnalyzer <> []
                  /\ AnalysisResult.error r
                     = Some "Matrix is singular or nearly singular"%string)))).
Proof.
  apply (analyze_outcomes beam beamAnalyzer "C1"). exact new_beam.
Defined.

(** X30: whether [analyze] succeeds does not depend on the loads: when the
    analysis of one combination succeeds, the analysis of every combination
    defined in the model succeeds, on the same analyzer. *)
Theorem success_is_load_independent
    (model : StanalModel.t) (a : Analyzer.t) (n n' : string)
    (c' : LoadCombination.t) :
  Analyzer.new model = Ok a ->
  AnalysisResult.success (Analyzer.analyzeResult a n) = true ->
  Analyzer.findCombination a n' = Some c' ->
  AnalysisResult.success (Analyzer.analyzeResult a n') = true.
Proof.
  intros Hnew Hsucc Hc'. destruct (new_ok model a Hnew) as [_ Hok].
  by apply (success_transfer a a n n' c' Hok Hok).
Qed.

(** The two combinations of the beam. *)
Lemma success_is_load_independent_witness :
  AnalysisResult.success (Analyzer.analyzeResult beamAnalyzer "C2") = true.
Proof.
  apply (success_is_load_independent beam beamAnalyzer "C1" "C2" beamTwice).
  - exact new_beam.
  - exact beam_success.
  - reflexivity.
Defined.
